(** * A shallow embedding of the greedy memory planner

    The development follows [greedy_memory_planner.h] and
    [greedy_memory_planner.cc].  The planner is a C++ object whose members are
    fixed-size arrays and a few scalars; here it is a record, every member
    function is a function on that record, and the [ErrorReporter] the
    planner talks to is the list of the [Report] calls it has received.

    Conventions of the embedding:
    - [int] is [Z].  Signed overflow is undefined in C++, so no wrap-around is
      given to [+], [-] and [*]: the model is the source as long as no
      result leaves the range of [int].  The sums of the layout
      ([offset + size] and the gap) stay in that range when the sizes are
      not negative and add up to at most [INT_MAX] ([placement_fits_int]);
      the products of [PrintMemoryPlan] by the line width stay in it when 80
      times [offset + size] is at most [INT_MAX].  The theorems on the
      planner whose conclusion depends on the value of such a sum or product
      have these bounds among their hypotheses, and say in their conclusion
      that the values are in range; the lemmas that lead to them are
      statements about the model.  [/] and [%] are C++'s truncating
      [Z.quot] and [Z.rem].
    - A [char] array written by index is a total map as well; a write
      outside [line[0 .. 80]] is undefined in the source, and the theorems
      on [PrintMemoryPlan] show, under their hypotheses, that every column
      written is among 0..79.
    - A C array is a total map from indices to cells.  The constructor of
      the planner initialises only [buffer_count_] and
      [need_to_calculate_offsets_], so the initial content of every array
      (and of [next_free_entry_]) is whatever the storage held: the
      constructor of the model takes that storage as its argument.
    - A [ListEntry*] is [option Z]: [None] is [nullptr] and [Some i] is
      [&buffers_sorted_by_offset_[i]].
    - The [while (true)] and [do ... while (true)] loops of the source are
      recursive functions on a step budget; running out of budget is [None].
      The [for] loops have a known trip count and need none. *)

From Stdlib Require Import ZArith List Lia Bool Permutation Sorted Ascii String Finite.
Import ListNotations.
Local Open Scope Z_scope.

Set Implicit Arguments.

(** ** Arrays, loops and the error reporter *)

Definition array (T : Type) : Type := Z -> T.

Definition upd {T : Type} (a : array T) (i : Z) (v : T) : array T :=
  fun j => if j =? i then v else a j.

Notation "x <- e ;; k" :=
  (match e with Some x => k | None => None end)
  (at level 61, e at next level, right associativity).

(** [for (int i = lo; i < hi; ++i) body], for a body that leaves [hi] alone. *)
Fixpoint for_range {S : Type} (n : nat) (i : Z) (body : Z -> S -> S) (s : S) : S :=
  match n with
  | O => s
  | Datatypes.S n' => for_range n' (i + 1) body (body i s)
  end.

Definition for_loop {S : Type} (lo hi : Z) (body : Z -> S -> S) (s : S) : S :=
  for_range (Z.to_nat (hi - lo)) lo body s.

(** The same loop for a body that may itself run out of budget. *)
Fixpoint for_rangeM {S : Type} (n : nat) (i : Z) (body : Z -> S -> option S) (s : S)
  : option S :=
  match n with
  | O => Some s
  | Datatypes.S n' => s' <- body i s ;; for_rangeM n' (i + 1) body s'
  end.

Definition for_loopM {S : Type} (lo hi : Z) (body : Z -> S -> option S) (s : S)
  : option S :=
  for_rangeM (Z.to_nat (hi - lo)) lo body s.

(** One call [error_reporter->Report(format, args...)]. *)
Inductive ReportArg : Type :=
| ArgInt (n : Z)
| ArgStr (s : string).

Record Report : Type := mkReport {
  report_format : string;
  report_args : list ReportArg
}.

(** The reporter is an external collaborator: all the planner can do is call
    it, so it is the list of the calls made so far, oldest first. *)
Definition ErrorReporter : Type := list Report.

Definition report (er : ErrorReporter) (fmt : string) (args : list ReportArg)
  : ErrorReporter :=
  er ++ [mkReport fmt args].

(** ** The data of the planner *)

Definition kMaxBufferCount : Z := 1024.

Record BufferRequirements : Type := mkBufferRequirements {
  size : Z;
  first_time_used : Z;
  last_time_used : Z
}.

Record ListEntry : Type := mkListEntry {
  offset : Z;
  requirements_index : Z;
  next_entry_index : Z
}.

Record GreedyMemoryPlanner : Type := mkGreedyMemoryPlanner {
  requirements_ : array BufferRequirements;
  buffer_count_ : Z;
  buffer_sizes_sorted_by_size_ : array Z;
  buffer_ids_sorted_by_size_ : array Z;
  buffers_sorted_by_offset_ : array ListEntry;
  next_free_entry_ : Z;
  buffer_offsets_ : array Z;
  need_to_calculate_offsets_ : bool
}.

Definition set_requirements (p : GreedyMemoryPlanner) (v : array BufferRequirements) :=
  mkGreedyMemoryPlanner v (buffer_count_ p) (buffer_sizes_sorted_by_size_ p)
    (buffer_ids_sorted_by_size_ p) (buffers_sorted_by_offset_ p)
    (next_free_entry_ p) (buffer_offsets_ p) (need_to_calculate_offsets_ p).

Definition set_buffer_count (p : GreedyMemoryPlanner) (v : Z) :=
  mkGreedyMemoryPlanner (requirements_ p) v (buffer_sizes_sorted_by_size_ p)
    (buffer_ids_sorted_by_size_ p) (buffers_sorted_by_offset_ p)
    (next_free_entry_ p) (buffer_offsets_ p) (need_to_calculate_offsets_ p).

Definition set_sorted_by_size (p : GreedyMemoryPlanner) (sizes ids : array Z) :=
  mkGreedyMemoryPlanner (requirements_ p) (buffer_count_ p) sizes ids
    (buffers_sorted_by_offset_ p)
    (next_free_entry_ p) (buffer_offsets_ p) (need_to_calculate_offsets_ p).

Definition set_sorted_by_offset (p : GreedyMemoryPlanner) (v : array ListEntry) :=
  mkGreedyMemoryPlanner (requirements_ p) (buffer_count_ p)
    (buffer_sizes_sorted_by_size_ p) (buffer_ids_sorted_by_size_ p) v
    (next_free_entry_ p) (buffer_offsets_ p) (need_to_calculate_offsets_ p).

Definition set_next_free_entry (p : GreedyMemoryPlanner) (v : Z) :=
  mkGreedyMemoryPlanner (requirements_ p) (buffer_count_ p)
    (buffer_sizes_sorted_by_size_ p) (buffer_ids_sorted_by_size_ p)
    (buffers_sorted_by_offset_ p) v (buffer_offsets_ p)
    (need_to_calculate_offsets_ p).

Definition set_buffer_offsets (p : GreedyMemoryPlanner) (v : array Z) :=
  mkGreedyMemoryPlanner (requirements_ p) (buffer_count_ p)
    (buffer_sizes_sorted_by_size_ p) (buffer_ids_sorted_by_size_ p)
    (buffers_sorted_by_offset_ p) (next_free_entry_ p) v
    (need_to_calculate_offsets_ p).

Definition set_need_to_calculate_offsets (p : GreedyMemoryPlanner) (v : bool) :=
  mkGreedyMemoryPlanner (requirements_ p) (buffer_count_ p)
    (buffer_sizes_sorted_by_size_ p) (buffer_ids_sorted_by_size_ p)
    (buffers_sorted_by_offset_ p) (next_free_entry_ p) (buffer_offsets_ p) v.

(** Writes to single fields of one pool cell. *)
Definition set_entry_offset (e : ListEntry) (v : Z) :=
  mkListEntry v (requirements_index e) (next_entry_index e).
Definition set_entry_requirements_index (e : ListEntry) (v : Z) :=
  mkListEntry (offset e) v (next_entry_index e).
Definition set_entry_next (e : ListEntry) (v : Z) :=
  mkListEntry (offset e) (requirements_index e) v.

(** [GreedyMemoryPlanner::GreedyMemoryPlanner()]: the member initialisers set
    [buffer_count_(0)] and [need_to_calculate_offsets_(true)] and nothing
    else; [storage] is the memory the object is constructed in. *)
Definition GreedyMemoryPlanner_new (storage : GreedyMemoryPlanner) : GreedyMemoryPlanner :=
  set_need_to_calculate_offsets (set_buffer_count storage 0) true.

(** ** Member functions *)

Definition AddBuffer (p : GreedyMemoryPlanner) (error_reporter : ErrorReporter)
    (size first_time_used last_time_used : Z)
  : bool * GreedyMemoryPlanner * ErrorReporter :=
  if buffer_count_ p >=? kMaxBufferCount then
    (false, p,
     report error_reporter "Too many buffers (max is %d)" [ArgInt kMaxBufferCount])
  else
    let current := mkBufferRequirements size first_time_used last_time_used in
    let p := set_requirements p (upd (requirements_ p) (buffer_count_ p) current) in
    let p := set_buffer_count p (buffer_count_ p + 1) in
    let p := set_need_to_calculate_offsets p true in
    (true, p, error_reporter).

Definition DoesEntryOverlapInTime (p : GreedyMemoryPlanner) (entry : Z)
    (first_time_used' last_time_used' : Z) : bool :=
  let entry_requirements :=
    requirements_ p (requirements_index (buffers_sorted_by_offset_ p entry)) in
  if first_time_used entry_requirements >? last_time_used' then false
  else if first_time_used' >? last_time_used entry_requirements then false
  else true.

(** The [do ... while (true)] of [NextValidEntry]. *)
Fixpoint NextValidEntry_loop (fuel : nat) (p : GreedyMemoryPlanner)
    (candidate_next_entry : Z) (first_time_used last_time_used : Z)
  : option (option Z) :=
  match fuel with
  | O => None
  | Datatypes.S fuel' =>
    if DoesEntryOverlapInTime p candidate_next_entry first_time_used last_time_used
    then Some (Some candidate_next_entry)
    else if next_entry_index (buffers_sorted_by_offset_ p candidate_next_entry) =? -1
    then Some None
    else NextValidEntry_loop fuel' p
           (next_entry_index (buffers_sorted_by_offset_ p candidate_next_entry))
           first_time_used last_time_used
  end.

Definition NextValidEntry (fuel : nat) (p : GreedyMemoryPlanner) (start : option Z)
    (first_time_used last_time_used : Z) : option (option Z) :=
  match start with
  | None => Some None
  | Some start =>
    if next_entry_index (buffers_sorted_by_offset_ p start) =? -1 then Some None
    else NextValidEntry_loop fuel p
           (next_entry_index (buffers_sorted_by_offset_ p start))
           first_time_used last_time_used
  end.

(** The gap search of [CalculateOffsetsIfNeeded] (the first [while (true)] of
    the placement loop).  [fuel] bounds this loop and [nfuel] the calls of
    [NextValidEntry] inside it.  [NextValidEntry] answers [nullptr] for a
    null [candidate_entry], so the source never reads through a null
    candidate; the model has no value for such a read.  The [int]s [gap]
    and [offset + size] are taken in [Z]: they are those of the source
    while the sizes are not negative and add up to at most [INT_MAX]. *)
Fixpoint gap_loop (fuel nfuel : nat) (p : GreedyMemoryPlanner)
    (candidate_entry : option Z) (wanted_size : Z)
    (wanted_first_time_used wanted_last_time_used : Z) : option (option Z) :=
  match fuel with
  | O => None
  | Datatypes.S fuel' =>
    next_entry <- NextValidEntry nfuel p candidate_entry
                    wanted_first_time_used wanted_last_time_used ;;
    match next_entry with
    | None => Some candidate_entry
    | Some next_entry =>
      match candidate_entry with
      | None => None
      | Some candidate =>
        let candidate_requirements :=
          requirements_ p (requirements_index (buffers_sorted_by_offset_ p candidate)) in
        let gap := offset (buffers_sorted_by_offset_ p next_entry)
                   - (offset (buffers_sorted_by_offset_ p candidate)
                      + size candidate_requirements) in
        if gap >=? wanted_size then Some candidate_entry
        else gap_loop fuel' nfuel p (Some next_entry) wanted_size
               wanted_first_time_used wanted_last_time_used
      end
    end
  end.

(** The ordered insertion (the second [while (true)] of the placement
    loop).  The assignments are made in the order of the source. *)
Fixpoint insert_loop (fuel : nat) (pool : array ListEntry)
    (current_entry new_entry_index offset' : Z) : option (array ListEntry) :=
  match fuel with
  | O => None
  | Datatypes.S fuel' =>
    let next_entry_index' := next_entry_index (pool current_entry) in
    if next_entry_index' =? -1 then
      let pool := upd pool current_entry
                    (set_entry_next (pool current_entry) new_entry_index) in
      let pool := upd pool new_entry_index
                    (set_entry_next (pool new_entry_index) (-1)) in
      Some pool
    else if offset (pool next_entry_index') >? offset' then
      let pool := upd pool new_entry_index
                    (set_entry_next (pool new_entry_index)
                       (next_entry_index (pool current_entry))) in
      let pool := upd pool current_entry
                    (set_entry_next (pool current_entry) new_entry_index) in
      Some pool
    else insert_loop fuel' pool next_entry_index' new_entry_index offset'
  end.

(** The body of [for (int i = 1; i < buffer_count_; ++i)].  The [int]
    [offset = candidate_entry->offset + candidate_requirements->size] is
    taken in [Z]: it is that of the source while the sizes are not negative
    and add up to at most [INT_MAX]. *)
Definition place_buffer (fuel : nat) (i : Z) (p : GreedyMemoryPlanner)
  : option GreedyMemoryPlanner :=
  let first_entry := 0 in
  let buffer_id := buffer_ids_sorted_by_size_ p i in
  let wanted_requirements := requirements_ p buffer_id in
  let wanted_size := size wanted_requirements in
  let wanted_first_time_used := first_time_used wanted_requirements in
  let wanted_last_time_used := last_time_used wanted_requirements in
  candidate_entry <-
    (if DoesEntryOverlapInTime p first_entry wanted_first_time_used wanted_last_time_used
     then Some (Some first_entry)
     else NextValidEntry fuel p (Some first_entry)
            wanted_first_time_used wanted_last_time_used) ;;
  candidate_entry <- gap_loop fuel fuel p candidate_entry wanted_size
                       wanted_first_time_used wanted_last_time_used ;;
  let offset' :=
    match candidate_entry with
    | Some candidate =>
      let candidate_requirements :=
        requirements_ p (requirements_index (buffers_sorted_by_offset_ p candidate)) in
      offset (buffers_sorted_by_offset_ p candidate) + size candidate_requirements
    | None => 0
    end in
  let p := set_buffer_offsets p (upd (buffer_offsets_ p) buffer_id offset') in
  let new_entry := next_free_entry_ p in
  let pool := buffers_sorted_by_offset_ p in
  let pool := upd pool new_entry (set_entry_offset (pool new_entry) offset') in
  let pool := upd pool new_entry (set_entry_requirements_index (pool new_entry) buffer_id) in
  let new_entry_index := next_free_entry_ p in
  let p := set_next_free_entry p (next_free_entry_ p + 1) in
  pool <- insert_loop fuel pool first_entry new_entry_index offset' ;;
  Some (set_sorted_by_offset p pool).

(** The indices [0 .. n-1] of an array of [n] cells, and the sum of a list. *)
Definition indices (n : Z) : list Z := map Z.of_nat (seq 0 (Z.to_nat n)).

Definition list_sum_Z (l : list Z) : Z := fold_right Z.add 0 l.

(** Modelled from the spec: [ReverseSortInPlace] is declared in
    reverse_sort_in_place.h, which is not among the sources.  The spec (4.2 and
    9) describes it: the array of sizes and the parallel array of ids are
    sorted in descending order of size with a stable tie-break, by extracting
    the maximum on each pass in a left-to-right scan.  [extract_max x l] is
    one such scan of [x :: l]: it returns the leftmost maximum and the other
    elements in their order. *)
Fixpoint extract_max (x : Z * Z) (l : list (Z * Z)) : (Z * Z) * list (Z * Z) :=
  match l with
  | [] => (x, [])
  | y :: l' =>
    let (m, r) := extract_max y l' in
    if fst m >? fst x then (m, x :: r) else (x, y :: l')
  end.

(** Modelled from the spec: the passes of [ReverseSortInPlace], one
    extraction of the maximum for each of the [n] elements. *)
Fixpoint extract_passes (n : nat) (l : list (Z * Z)) : list (Z * Z) :=
  match n, l with
  | Datatypes.S n', x :: l' =>
    let (m, r) := extract_max x l' in m :: extract_passes n' r
  | _, _ => []
  end.

(** Modelled from the spec: [ReverseSortInPlace(values, ids, size)] sorts the
    first [size] cells of [values] in descending order and moves the cells
    of [ids] along with them; the cells from [size] on are left alone. *)
Definition ReverseSortInPlace (values ids : array Z) (size' : Z) : array Z * array Z :=
  let sorted :=
    extract_passes (Z.to_nat size') (map (fun i => (values i, ids i)) (indices size')) in
  let stored (proj : Z * Z -> Z) (a : array Z) : array Z :=
    fun i => if (0 <=? i) && (i <? size')
             then proj (nth (Z.to_nat i) sorted (a i, a i)) else a i in
  (stored fst values, stored snd ids).

(** The body of the first [for] loop of [CalculateOffsetsIfNeeded]. *)
Definition fill_sorted_by_size (i : Z) (p : GreedyMemoryPlanner) : GreedyMemoryPlanner :=
  set_sorted_by_size p
    (upd (buffer_sizes_sorted_by_size_ p) i (size (requirements_ p i)))
    (upd (buffer_ids_sorted_by_size_ p) i i).

Definition CalculateOffsetsIfNeeded (fuel : nat) (p : GreedyMemoryPlanner)
  : option GreedyMemoryPlanner :=
  if negb (need_to_calculate_offsets_ p) || (buffer_count_ p =? 0) then Some p
  else
    let p := set_need_to_calculate_offsets p false in
    let p := for_loop 0 (buffer_count_ p) fill_sorted_by_size p in
    let (sizes, ids) := ReverseSortInPlace (buffer_sizes_sorted_by_size_ p)
                          (buffer_ids_sorted_by_size_ p) (buffer_count_ p) in
    let p := set_sorted_by_size p sizes ids in
    let first_entry := 0 in
    let pool := buffers_sorted_by_offset_ p in
    let pool := upd pool first_entry (set_entry_offset (pool first_entry) 0) in
    let pool := upd pool first_entry
                  (set_entry_requirements_index (pool first_entry)
                     (buffer_ids_sorted_by_size_ p 0)) in
    let pool := upd pool first_entry (set_entry_next (pool first_entry) (-1)) in
    let p := set_sorted_by_offset p pool in
    let p := set_next_free_entry p 1 in
    for_loopM 1 (buffer_count_ p) (place_buffer fuel) p.

(** The [while (entry)] of [GetMaximumMemorySize]; [entry] is never null
    there, the loop is left through its [break].  The [int] [current_size]
    is taken in [Z]: it is that of the source while the sizes are not
    negative and add up to at most [INT_MAX]. *)
Fixpoint max_size_loop (fuel : nat) (p : GreedyMemoryPlanner) (entry : Z) (max_size : Z)
  : option Z :=
  match fuel with
  | O => None
  | Datatypes.S fuel' =>
    let requirements :=
      requirements_ p (requirements_index (buffers_sorted_by_offset_ p entry)) in
    let current_size := offset (buffers_sorted_by_offset_ p entry) + size requirements in
    let max_size := if current_size >? max_size then current_size else max_size in
    if next_entry_index (buffers_sorted_by_offset_ p entry) =? -1 then Some max_size
    else max_size_loop fuel' p
           (next_entry_index (buffers_sorted_by_offset_ p entry)) max_size
  end.

Definition GetMaximumMemorySize (fuel : nat) (p : GreedyMemoryPlanner)
  : option (GreedyMemoryPlanner * Z) :=
  p <- CalculateOffsetsIfNeeded fuel p ;;
  if buffer_count_ p =? 0 then Some (p, 0)
  else
    max_size <- max_size_loop fuel p 0 0 ;;
    Some (p, max_size).

Definition GetBufferCount (p : GreedyMemoryPlanner) : Z := buffer_count_ p.

(** [offset'] is the content of [*offset] before the call; the second
    component of the result is its content after the call. *)
Definition GetOffsetForBuffer (p : GreedyMemoryPlanner) (error_reporter : ErrorReporter)
    (buffer_index : Z) (offset' : Z) : bool * Z * ErrorReporter :=
  if (buffer_index <? 0) || (buffer_index >=? buffer_count_ p) then
    (false, offset',
     report error_reporter "buffer index %d is outside range 0 to %d"
       [ArgInt buffer_index; ArgInt (buffer_count_ p)])
  else
    (true, buffer_offsets_ p buffer_index, error_reporter).

(** What [Report("%s", line)] reads from the character array [line]: the
    characters before the first NUL.  [line] has [kLineWidth + 1] cells. *)
Fixpoint c_string (n : nat) (line : array ascii) (i : Z) : string :=
  match n with
  | O => EmptyString
  | Datatypes.S n' =>
    if Ascii.eqb (line i) zero then EmptyString
    else String (line i) (c_string n' line (i + 1))
  end.

(** The [int]s [offset + size], [offset * kLineWidth] and
    [(offset + size) * kLineWidth] are taken in [Z] and [line] is a total
    map: the function is that of the source while 80 times [offset + size]
    is at most [INT_MAX] for every buffer, the offsets and sizes are not
    negative (then every column written is among 0..79) and [max_time] is
    below [INT_MAX] (then [++t] does not overflow). *)
Definition PrintMemoryPlan (fuel : nat) (p : GreedyMemoryPlanner)
    (error_reporter : ErrorReporter) : option (GreedyMemoryPlanner * ErrorReporter) :=
  p <- CalculateOffsetsIfNeeded fuel p ;;
  let kLineWidth := 80 in
  let '(max_size, max_time) :=
    for_loop 0 (buffer_count_ p)
      (fun i '(max_size, max_time) =>
         let requirements := requirements_ p i in
         let offset' := buffer_offsets_ p i in
         let last_time_used' := last_time_used requirements in
         let size' := offset' + size requirements in
         (if size' >? max_size then size' else max_size,
          if last_time_used' >? max_time then last_time_used' else max_time))
      (kLineWidth, 0) in
  let error_reporter :=
    for_loop 0 (max_time + 1)
      (fun t error_reporter =>
         let line : array ascii := fun _ => zero in
         let line := for_loop 0 kLineWidth (fun c line => upd line c "."%char) line in
         let line :=
           for_loop 0 (buffer_count_ p)
             (fun i line =>
                let requirements := requirements_ p i in
                if (t <? first_time_used requirements)
                   || (t >? last_time_used requirements) then line
                else
                  let offset' := buffer_offsets_ p i in
                  let size' := size requirements in
                  let line_start := Z.quot (offset' * kLineWidth) max_size in
                  let line_end := Z.quot ((offset' + size') * kLineWidth) max_size in
                  for_loop line_start line_end
                    (fun n line =>
                       if Ascii.eqb (line n) "."%char
                       then upd line n (ascii_of_N (Z.to_N (48 + Z.rem i 10)))
                       else upd line n "!"%char) line) line in
         let line := upd line kLineWidth zero in
         report error_reporter "%s" [ArgStr (c_string 81 line 0)])
      error_reporter in
  Some (p, error_reporter).

(** ** Scenarios *)

(** Adding a batch of buffers, in order. *)
Fixpoint AddBuffers (p : GreedyMemoryPlanner) (batch : list BufferRequirements)
  : GreedyMemoryPlanner :=
  match batch with
  | [] => p
  | r :: batch' =>
    AddBuffers (snd (fst (AddBuffer p [] (size r) (first_time_used r) (last_time_used r))))
      batch'
  end.

(** Walking the offset-ordered list from its head, as [GetMaximumMemorySize]
    does, and collecting the nodes met. *)
Fixpoint placement_walk (fuel : nat) (pool : array ListEntry) (entry : Z)
  : option (list ListEntry) :=
  match fuel with
  | O => None
  | Datatypes.S fuel' =>
    if next_entry_index (pool entry) =? -1 then Some [pool entry]
    else rest <- placement_walk fuel' pool (next_entry_index (pool entry)) ;;
         Some (pool entry :: rest)
  end.

Definition placement_list (fuel : nat) (p : GreedyMemoryPlanner) : option (list ListEntry) :=
  placement_walk fuel (buffers_sorted_by_offset_ p) 0.

(** The states a client can bring a planner into. *)
Inductive reachable : GreedyMemoryPlanner -> Prop :=
| reachable_new storage :
    reachable (GreedyMemoryPlanner_new storage)
| reachable_AddBuffer p er size' first' last' :
    reachable p ->
    reachable (snd (fst (AddBuffer p er size' first' last')))
| reachable_GetMaximumMemorySize p fuel p' m :
    reachable p ->
    GetMaximumMemorySize fuel p = Some (p', m) ->
    reachable p'
| reachable_PrintMemoryPlan p fuel er p' er' :
    reachable p ->
    PrintMemoryPlan fuel p er = Some (p', er') ->
    reachable p'.

(** Temporal overlap of two live intervals and disjointness of two byte
    ranges, as booleans. *)
Definition overlap_in_time (a b : BufferRequirements) : bool :=
  (first_time_used a <=? last_time_used b) && (first_time_used b <=? last_time_used a).

Definition ranges_disjoint (off_a size_a off_b size_b : Z) : bool :=
  (off_a + size_a <=? off_b) || (off_b + size_b <=? off_a).

Definition zero_storage : GreedyMemoryPlanner :=
  mkGreedyMemoryPlanner (fun _ => mkBufferRequirements 0 0 0) 0 (fun _ => 0) (fun _ => 0)
    (fun _ => mkListEntry 0 0 0) 0 (fun _ => 0) false.

(** ** The vocabulary of the proofs *)

(** The order of a stable descending sort on pairs of a size and the place
    the size had before the sort: larger sizes first, equal sizes in the
    order of their places. *)
Definition sorts_before (a b : Z * Z) : Prop :=
  fst b < fst a \/ (fst a = fst b /\ snd a < snd b).

Definition place_lt (a b : Z * Z) : Prop := snd a < snd b.

(** [chain pool i l]: following [next_entry_index] from the cell [i] visits
    exactly the cells [l], in that order, and then meets [-1]. *)
Inductive chain (pool : array ListEntry) : Z -> list Z -> Prop :=
| chain_last i :
    next_entry_index (pool i) = -1 -> chain pool i [i]
| chain_step i l :
    next_entry_index (pool i) <> -1 ->
    chain pool (next_entry_index (pool i)) l ->
    chain pool i (i :: l).

(** The state of the placement loop when the first [k] buffers of the size
    order are in the list [l] of pool cells. *)
Record placed (p : GreedyMemoryPlanner) (k : Z) (l : list Z) : Prop := mk_placed {
  placed_next_free : next_free_entry_ p = k;
  placed_chain : chain (buffers_sorted_by_offset_ p) 0 l;
  placed_perm : Permutation l (indices k);
  placed_ids : forall j, 0 <= j < k ->
    requirements_index (buffers_sorted_by_offset_ p j) = buffer_ids_sorted_by_size_ p j;
  placed_head : offset (buffers_sorted_by_offset_ p 0) = 0;
  placed_recorded : forall j, 1 <= j < k ->
    buffer_offsets_ p (buffer_ids_sorted_by_size_ p j)
    = offset (buffers_sorted_by_offset_ p j)
}.

Definition offsets_of (p : GreedyMemoryPlanner) (l : list Z) : list Z :=
  map (fun j => offset (buffers_sorted_by_offset_ p j)) l.

(** The end of the byte range of the buffer held in the list node [e]. *)
Definition range_end (p : GreedyMemoryPlanner) (e : ListEntry) : Z :=
  offset e + size (requirements_ p (requirements_index e)).

(** The bytes asked for by the first [k] buffers of the size order. *)
Definition placed_total (p : GreedyMemoryPlanner) (k : Z) : Z :=
  list_sum_Z
    (map (fun i => size (requirements_ p (buffer_ids_sorted_by_size_ p i))) (indices k)).

(** For sizes that are not negative the list is ordered by offset and no
    buffer ends beyond the bytes asked for so far. *)
Definition ordered (p : GreedyMemoryPlanner) (k : Z) (l : list Z) : Prop :=
  StronglySorted Z.le (offsets_of p l)
  /\ forall j, In j l ->
       range_end p (buffers_sorted_by_offset_ p j) <= placed_total p k.

(** What the placement loop never writes. *)
Definition same_input (p p' : GreedyMemoryPlanner) : Prop :=
  requirements_ p' = requirements_ p
  /\ buffer_count_ p' = buffer_count_ p
  /\ buffer_sizes_sorted_by_size_ p' = buffer_sizes_sorted_by_size_ p
  /\ buffer_ids_sorted_by_size_ p' = buffer_ids_sorted_by_size_ p
  /\ need_to_calculate_offsets_ p' = need_to_calculate_offsets_ p.

(** What a planner holds once a layout pass has placed all its buffers: the
    list [l] of pool cells starts at cell 0, holds every buffer once, its
    head is a largest buffer at offset 0, and, for sizes that are not
    negative, the offsets along it do not decrease. *)
Record laid_out (p : GreedyMemoryPlanner) (l : list Z) : Prop := mk_laid_out {
  laid_placed : placed p (buffer_count_ p) l;
  laid_ids :
    Permutation (map (buffer_ids_sorted_by_size_ p) (indices (buffer_count_ p)))
                (indices (buffer_count_ p));
  laid_largest : forall i, 0 <= i < buffer_count_ p ->
    size (requirements_ p i)
    <= size (requirements_ p (buffer_ids_sorted_by_size_ p 0));
  laid_ordered :
    (forall i, 0 <= i < buffer_count_ p -> 0 <= size (requirements_ p i)) ->
    ordered p (buffer_count_ p) l
}.

(** The invariant of the planner: the count is within the capacity, and a
    planner that is not dirty holds a complete layout of its buffers. *)
Definition planner_ok (p : GreedyMemoryPlanner) : Prop :=
  0 <= buffer_count_ p <= kMaxBufferCount
  /\ (need_to_calculate_offsets_ p = false ->
      0 < buffer_count_ p /\ exists l, laid_out p l).

(** The largest 32-bit [int], and the bytes asked for by all buffers. *)
Definition INT_MAX : Z := 2147483647.

Definition total_size (p : GreedyMemoryPlanner) : Z :=
  list_sum_Z (map (fun i => size (requirements_ p i)) (indices (buffer_count_ p))).

(** The line [PrintMemoryPlan] prints for a time step at which no buffer
    is live. *)
Definition eighty_dots : string :=
  "................................................................................".

(** The batch on which the gap search fails: buffer 1 is live during steps
    0..1, buffer 2 during steps 2..3, and buffer 3 during steps 1..2, so
    buffer 3 is live together with each of them; buffer 0 is the largest
    and is live with none of them. *)
Definition overlap_batch : list BufferRequirements :=
  [mkBufferRequirements 1000 10 10; mkBufferRequirements 100 0 1;
   mkBufferRequirements 10 2 3; mkBufferRequirements 5 1 2].

(** Storage whose [buffer_offsets_] cells still hold an earlier value. *)
Definition used_storage : GreedyMemoryPlanner :=
  set_buffer_offsets zero_storage (fun _ => 7).

(** A planner with two buffers that are live together. *)
Definition two_buffers : GreedyMemoryPlanner :=
  AddBuffers (GreedyMemoryPlanner_new zero_storage)
    [mkBufferRequirements 100 0 9; mkBufferRequirements 40 0 9].

(** ** The placement as a function on lists

    What the placement loop computes, written on the list of the placed
    buffers in offset order instead of the linked cells of the pool.  A node
    is the pair of an offset and a buffer id. *)

Definition node_of (e : ListEntry) : Z * Z := (offset e, requirements_index e).

Definition nodes (p : GreedyMemoryPlanner) (l : list Z) : list (Z * Z) :=
  map (fun j => node_of (buffers_sorted_by_offset_ p j)) l.

(** The test of [DoesEntryOverlapInTime] on a node. *)
Definition live_in (reqs : array BufferRequirements) (first' last' : Z) (n : Z * Z)
  : bool :=
  if first_time_used (reqs (snd n)) >? last' then false
  else if first' >? last_time_used (reqs (snd n)) then false
  else true.

Definition node_end (reqs : array BufferRequirements) (n : Z * Z) : Z :=
  fst n + size (reqs (snd n)).

(** The gap search from the candidate [c], with [rest] the nodes after it. *)
Fixpoint gap_after (reqs : array BufferRequirements) (wanted_size first' last' : Z)
    (c : Z * Z) (rest : list (Z * Z)) : Z * Z :=
  match rest with
  | [] => c
  | n :: rest' =>
    if live_in reqs first' last' n then
      if fst n - node_end reqs c >=? wanted_size then c
      else gap_after reqs wanted_size first' last' n rest'
    else gap_after reqs wanted_size first' last' c rest'
  end.

(** The offset chosen for a buffer: after the candidate the gap search ends
    with, or 0 when no placed buffer is live with it. *)
Fixpoint chosen_offset (reqs : array BufferRequirements) (wanted_size first' last' : Z)
    (placed_nodes : list (Z * Z)) : Z :=
  match placed_nodes with
  | [] => 0
  | n :: rest =>
    if live_in reqs first' last' n
    then node_end reqs (gap_after reqs wanted_size first' last' n rest)
    else chosen_offset reqs wanted_size first' last' rest
  end.

(** The ordered insertion behind the head of the list. *)
Fixpoint insert_by_offset (new : Z * Z) (after_head : list (Z * Z)) : list (Z * Z) :=
  match after_head with
  | [] => [new]
  | n :: rest =>
    if fst n >? fst new then new :: n :: rest else n :: insert_by_offset new rest
  end.

Definition place (reqs : array BufferRequirements) (placed_nodes : list (Z * Z))
    (buffer_id : Z) : list (Z * Z) :=
  let r := reqs buffer_id in
  let off := chosen_offset reqs (size r) (first_time_used r) (last_time_used r)
               placed_nodes in
  match placed_nodes with
  | [] => []
  | head :: rest => head :: insert_by_offset (off, buffer_id) rest
  end.

(** The buffer ids in the order of the sort, and the list a layout pass
    builds from them. *)
Definition size_order (reqs : array BufferRequirements) (n : Z) : list Z :=
  map snd (extract_passes (Z.to_nat n) (map (fun i => (size (reqs i), i)) (indices n))).

Definition greedy_plan (reqs : array BufferRequirements) (order : list Z)
  : list (Z * Z) :=
  match order with
  | [] => []
  | largest :: others => fold_left (place reqs) others [(0, largest)]
  end.

(** The buffers [ids] laid end to end from the offset [start], and the same
    said of the nodes of a placement list: each starts where the one before
    it ends. *)
Fixpoint stack_from (reqs : array BufferRequirements) (start : Z) (ids : list Z)
  : list (Z * Z) :=
  match ids with
  | [] => []
  | id :: rest => (start, id) :: stack_from reqs (start + size (reqs id)) rest
  end.

Fixpoint end_to_end (p : GreedyMemoryPlanner) (start : Z) (entries : list ListEntry)
  : Prop :=
  match entries with
  | [] => True
  | e :: rest => offset e = start /\ end_to_end p (range_end p e) rest
  end.

(** The character array [PrintMemoryPlan] fills for the time step [t], as in
    the body of its loop over the time steps, with the same reading of
    [int] and of [line]. *)
Definition plan_line (p : GreedyMemoryPlanner) (max_size t : Z) : array ascii :=
  let kLineWidth := 80 in
  let line : array ascii := fun _ => zero in
  let line := for_loop 0 kLineWidth (fun c line => upd line c "."%char) line in
  let line :=
    for_loop 0 (buffer_count_ p)
      (fun i line =>
         let requirements := requirements_ p i in
         if (t <? first_time_used requirements)
            || (t >? last_time_used requirements) then line
         else
           let offset' := buffer_offsets_ p i in
           let size' := size requirements in
           let line_start := Z.quot (offset' * kLineWidth) max_size in
           let line_end := Z.quot ((offset' + size') * kLineWidth) max_size in
           for_loop line_start line_end
             (fun n line =>
                if Ascii.eqb (line n) "."%char
                then upd line n (ascii_of_N (Z.to_N (48 + Z.rem i 10)))
                else upd line n "!"%char) line) line in
  upd line kLineWidth zero.

(** The states a client can bring a planner into when the planner was
    constructed in the memory [storage]. *)
Inductive reachable_from (storage : GreedyMemoryPlanner) : GreedyMemoryPlanner -> Prop :=
| from_new :
    reachable_from storage (GreedyMemoryPlanner_new storage)
| from_AddBuffer p er size' first' last' :
    reachable_from storage p ->
    reachable_from storage (snd (fst (AddBuffer p er size' first' last')))
| from_GetMaximumMemorySize p fuel p' m :
    reachable_from storage p ->
    GetMaximumMemorySize fuel p = Some (p', m) ->
    reachable_from storage p'
| from_PrintMemoryPlan p fuel er p' er' :
    reachable_from storage p ->
    PrintMemoryPlan fuel p er = Some (p', er') ->
    reachable_from storage p'.

(** The cells of [buffer_offsets_] no layout pass has written: those from
    the count on, and the cell of the first buffer of the size order. *)
Definition storage_kept (storage p : GreedyMemoryPlanner) : Prop :=
  (forall i, buffer_count_ p <= i -> buffer_offsets_ p i = buffer_offsets_ storage i)
  /\ (0 < buffer_count_ p ->
      buffer_offsets_ p (hd 0 (size_order (requirements_ p) (buffer_count_ p)))
      = buffer_offsets_ storage (hd 0 (size_order (requirements_ p) (buffer_count_ p)))).

(** The two buffers of [two_buffers] added to a planner in used storage,
    and two buffers that are never live together. *)
Definition two_buffers_used : GreedyMemoryPlanner :=
  AddBuffers (GreedyMemoryPlanner_new used_storage)
    [mkBufferRequirements 100 0 9; mkBufferRequirements 40 0 9].

Definition apart_buffers : GreedyMemoryPlanner :=
  AddBuffers (GreedyMemoryPlanner_new zero_storage)
    [mkBufferRequirements 50 0 1; mkBufferRequirements 80 2 3].

(** A pool whose cells 0 and 1 are linked, and a planner that holds it. *)
Definition two_cells : array ListEntry :=
  upd (upd (fun _ => mkListEntry 0 0 (-1)) 0 (mkListEntry 0 0 1)) 1
    (mkListEntry 100 1 (-1)).

Definition linked_planner : GreedyMemoryPlanner :=
  set_sorted_by_offset two_buffers two_cells.

(** [sized_before reqs a b]: the buffer [a] comes before the buffer [b] in
    the stable descending sort by size, so is placed before it: [a] is
    larger, or as large and added earlier. *)
Definition sized_before (reqs : array BufferRequirements) (a b : Z) : Prop :=
  size (reqs b) < size (reqs a) \/ (size (reqs a) = size (reqs b) /\ a < b).

(** A planner that is not dirty holds the list of [greedy_plan]. *)
Definition planner_exact (p : GreedyMemoryPlanner) : Prop :=
  need_to_calculate_offsets_ p = false ->
  exists l,
    placed p (buffer_count_ p) l
    /\ nodes p l
       = greedy_plan (requirements_ p) (size_order (requirements_ p) (buffer_count_ p)).

(** * Properties *)

(** ** Arrays and counted loops *)

Lemma upd_same {T : Type} (a : array T) i v : upd a i v i = v.
Proof. unfold upd. now rewrite Z.eqb_refl. Qed.

Lemma upd_other {T : Type} (a : array T) i j v : j <> i -> upd a i v j = a j.
Proof. unfold upd. intros H. apply Z.eqb_neq in H. now rewrite H. Qed.

Lemma for_range_invariant {S : Type} (P : Z -> S -> Prop) (body : Z -> S -> S) :
  forall n i s,
    P i s ->
    (forall j t, i <= j < i + Z.of_nat n -> P j t -> P (j + 1) (body j t)) ->
    P (i + Z.of_nat n) (for_range n i body s).
Proof.
  induction n as [|n IH]; intros i s Hs Hstep.
  - simpl. now rewrite Z.add_0_r.
  - cbn [for_range].
    replace (i + Z.of_nat (Datatypes.S n)) with ((i + 1) + Z.of_nat n) by lia.
    apply IH.
    + apply Hstep; [lia | exact Hs].
    + intros j t Hj. apply Hstep. lia.
Qed.

Lemma indices_succ k : 0 <= k -> indices (k + 1) = indices k ++ [k].
Proof.
  intros Hk. unfold indices.
  replace (Z.to_nat (k + 1)) with (Datatypes.S (Z.to_nat k)) by lia.
  rewrite seq_S, map_app. simpl. now rewrite Z2Nat.id by lia.
Qed.

Lemma in_indices k j : In j (indices k) <-> 0 <= j < k.
Proof.
  unfold indices. rewrite in_map_iff. split.
  - intros (x & <- & Hx). apply in_seq in Hx. lia.
  - intros Hj. exists (Z.to_nat j). split; [lia|]. apply in_seq. lia.
Qed.

Lemma NoDup_indices k : NoDup (indices k).
Proof.
  unfold indices. apply Finite.Injective_map_NoDup.
  - intros x y. lia.
  - apply seq_NoDup.
Qed.

Lemma length_indices k : List.length (indices k) = Z.to_nat k.
Proof. unfold indices. now rewrite length_map, length_seq. Qed.

Lemma nth_indices k j d : 0 <= j < k -> nth (Z.to_nat j) (indices k) d = j.
Proof.
  intros Hj. unfold indices.
  rewrite nth_indep with (d' := Z.of_nat 0) by (rewrite length_map, length_seq; lia).
  rewrite map_nth, seq_nth by lia. lia.
Qed.

Ltac cmp_to_prop :=
  repeat match goal with
  | H : (_ >? _) = _ |- _ => rewrite Z.gtb_ltb in H
  | H : (_ >=? _) = _ |- _ => rewrite Z.geb_leb in H
  | H : (_ <? _) = true |- _ => apply Z.ltb_lt in H
  | H : (_ <? _) = false |- _ => apply Z.ltb_ge in H
  | H : (_ <=? _) = true |- _ => apply Z.leb_le in H
  | H : (_ <=? _) = false |- _ => apply Z.leb_gt in H
  | H : (_ =? _) = true |- _ => apply Z.eqb_eq in H
  | H : (_ =? _) = false |- _ => apply Z.eqb_neq in H
  end.

(** ** The descending sort *)

Lemma extract_max_spec x l m r :
  extract_max x l = (m, r) ->
  Permutation (x :: l) (m :: r) /\ Forall (fun y => fst y <= fst m) (x :: l).
Proof.
  revert x m r. induction l as [|y l IH]; intros x m r H; simpl in H.
  - inversion H; subst. split; [reflexivity | constructor; [lia | constructor]].
  - destruct (extract_max y l) as [m' r'] eqn:E.
    destruct (IH _ _ _ E) as [HP HF].
    destruct (fst m' >? fst x) eqn:C; inversion H; subst; clear H; cmp_to_prop.
    + split.
      * rewrite HP. apply perm_swap.
      * constructor; [lia | exact HF].
    + split; [reflexivity|].
      constructor; [lia|]. eapply Forall_impl; [| exact HF]. simpl; intros; lia.
Qed.

Lemma extract_passes_perm n :
  forall l, List.length l = n -> Permutation l (extract_passes n l).
Proof.
  induction n as [|n IH]; intros [|x l] Hlen; simpl in *; try discriminate.
  - reflexivity.
  - destruct (extract_max x l) as [m r] eqn:E.
    apply extract_max_spec in E as [HP _].
    rewrite HP. constructor. apply IH.
    apply Permutation_length in HP. simpl in HP. lia.
Qed.

Lemma extract_passes_head n x l :
  exists m r, extract_passes (Datatypes.S n) (x :: l) = m :: r
              /\ Forall (fun y => fst y <= fst m) (x :: l).
Proof.
  simpl. destruct (extract_max x l) as [m r] eqn:E.
  apply extract_max_spec in E as [_ HF]. eauto.
Qed.

(** The model of the sort is the sort the spec describes: on elements
    tagged with their places it yields the stable descending order. *)
Lemma extract_max_order x l m r :
  extract_max x l = (m, r) ->
  StronglySorted place_lt (x :: l) ->
  StronglySorted place_lt r /\ Forall (sorts_before m) r.
Proof.
  revert x m r. induction l as [|y l IH]; intros x m r H Hs; simpl in H.
  - inversion H; subst. split; constructor.
  - destruct (extract_max y l) as [m' r'] eqn:E.
    inversion Hs as [|? ? Hs' Hx]; subst.
    destruct (IH _ _ _ E Hs') as [Hr' Hm'].
    destruct (@extract_max_spec _ _ _ _ E) as [Hperm Hmax].
    destruct (fst m' >? fst x) eqn:C; inversion H; subst; clear H; cmp_to_prop.
    + split.
      * constructor; [exact Hr'|].
        rewrite Forall_forall in *. intros z Hz. apply Hx.
        eapply Permutation_in; [symmetry; exact Hperm|]. now right.
      * constructor; [left; lia | exact Hm'].
    + split; [exact Hs'|].
      rewrite Forall_forall in *. intros z Hz.
      specialize (Hmax z Hz). specialize (Hx z Hz). unfold place_lt in Hx.
      unfold sorts_before. cbn beta in Hmax. lia.
Qed.

Lemma extract_passes_stable_descending n :
  forall l,
    List.length l = n ->
    StronglySorted place_lt l ->
    StronglySorted sorts_before (extract_passes n l).
Proof.
  induction n as [|n IH]; intros [|x l] Hlen Hs; simpl in *; try discriminate.
  - constructor.
  - destruct (extract_max x l) as [m r] eqn:E.
    destruct (@extract_max_order _ _ _ _ E Hs) as [Hr Hm].
    destruct (@extract_max_spec _ _ _ _ E) as [Hperm _].
    assert (Hrlen : List.length r = n).
    { apply Permutation_length in Hperm. simpl in Hperm. lia. }
    constructor; [now apply IH|].
    rewrite Forall_forall in *. intros z Hz. apply Hm.
    eapply Permutation_in; [symmetry; apply extract_passes_perm|]; eassumption.
Qed.

Lemma StronglySorted_indices n : StronglySorted Z.lt (indices n).
Proof.
  unfold indices. generalize 0%nat as start.
  induction (Z.to_nat n) as [|k IH]; intros start; simpl; constructor.
  - apply IH.
  - rewrite Forall_forall. intros z Hz.
    apply in_map_iff in Hz as (i & <- & Hi). apply in_seq in Hi. lia.
Qed.

Lemma StronglySorted_map_in {A B : Type} (R : A -> A -> Prop) (R' : B -> B -> Prop)
    (f : A -> B) (l : list A) :
  StronglySorted R l ->
  (forall a b, In a l -> In b l -> R a b -> R' (f a) (f b)) ->
  StronglySorted R' (map f l).
Proof.
  induction 1 as [|x l Hs IH Hx]; intros Hf; simpl; constructor.
  - apply IH. intros a b Ha Hb. apply Hf; now right.
  - rewrite Forall_forall in *. intros z Hz.
    apply in_map_iff in Hz as (y & <- & Hy).
    apply Hf; [now left | now right | now apply Hx].
Qed.

Lemma StronglySorted_nth {A : Type} (R : A -> A -> Prop) (l : list A) (d : A) :
  StronglySorted R l ->
  forall a b, (a < b < List.length l)%nat -> R (nth a l d) (nth b l d).
Proof.
  induction 1 as [|x l Hs IH Hx]; intros a b Hab; simpl in *; [lia|].
  destruct a as [|a], b as [|b]; try lia.
  - rewrite Forall_forall in Hx. apply Hx, nth_In. lia.
  - apply IH. lia.
Qed.

Lemma nth_map_lt {A B : Type} (g : A -> B) (l : list A) k d d0 :
  (k < List.length l)%nat -> nth k (map g l) d = g (nth k l d0).
Proof.
  intros Hk. rewrite nth_indep with (d' := g d0) by (now rewrite length_map).
  apply map_nth.
Qed.

Lemma map_nth_indices {A B : Type} (f : A -> B) (l : list A) (d : Z -> A) :
  map (fun j => f (nth (Z.to_nat j) l (d j))) (indices (Z.of_nat (List.length l)))
  = map f l.
Proof.
  apply nth_ext with (d := f (d 0)) (d' := f (d 0)).
  - now rewrite !length_map, length_indices, Nat2Z.id.
  - intros k Hk. rewrite length_map, length_indices, Nat2Z.id in Hk.
    rewrite (nth_map_lt _ _ _ 0) by (rewrite length_indices; lia).
    rewrite (nth_map_lt _ _ _ (d 0)) by exact Hk.
    replace (nth k (indices (Z.of_nat (List.length l))) 0) with (Z.of_nat k).
    + rewrite Nat2Z.id. f_equal. now apply nth_indep.
    + replace k with (Z.to_nat (Z.of_nat k)) at 2 by lia.
      rewrite nth_indices; lia.
Qed.

Section ReverseSort.
Variables (values ids : array Z) (n : Z).
Hypothesis n_nonneg : 0 <= n.

Let pairs := map (fun i => (values i, ids i)) (indices n).
Let sorted := extract_passes (Z.to_nat n) pairs.

Lemma sorted_perm : Permutation pairs sorted.
Proof.
  apply extract_passes_perm. unfold pairs.
  now rewrite length_map, length_indices.
Qed.

Lemma sorted_length : Z.of_nat (List.length sorted) = n.
Proof.
  rewrite <- (Permutation_length sorted_perm). unfold pairs.
  rewrite length_map, length_indices. lia.
Qed.

Lemma ReverseSortInPlace_ids_perm :
  Permutation (map (snd (ReverseSortInPlace values ids n)) (indices n))
              (map ids (indices n)).
Proof.
  transitivity (map snd sorted).
  - rewrite <- sorted_length at 2.
    rewrite <- (map_nth_indices snd sorted (fun i => (ids i, ids i))).
    rewrite sorted_length.
    apply Permutation_refl'. apply map_ext_in. intros j Hj.
    apply in_indices in Hj. unfold ReverseSortInPlace. cbn [snd].
    fold pairs. fold sorted.
    replace ((0 <=? j) && (j <? n))%bool with true; [reflexivity|].
    symmetry. apply andb_true_iff. split; [apply Z.leb_le | apply Z.ltb_lt]; lia.
  - rewrite <- sorted_perm. unfold pairs. rewrite map_map. simpl. reflexivity.
Qed.

Lemma ReverseSortInPlace_head :
  0 < n ->
  exists j0, 0 <= j0 < n
    /\ fst (ReverseSortInPlace values ids n) 0 = values j0
    /\ snd (ReverseSortInPlace values ids n) 0 = ids j0
    /\ forall j, 0 <= j < n -> values j <= values j0.
Proof.
  intros Hn.
  assert (Hp : exists x l, pairs = x :: l).
  { unfold pairs, indices. destruct (Z.to_nat n) as [|k] eqn:E; [lia|].
    simpl. eauto. }
  destruct Hp as (x & l & Hp).
  assert (Hs : exists m r, sorted = m :: r
                           /\ Forall (fun y => fst y <= fst m) pairs).
  { unfold sorted. rewrite Hp.
    destruct (Z.to_nat n) as [|k] eqn:E; [lia|]. apply extract_passes_head. }
  destruct Hs as (m & r & Hs & Hmax).
  assert (Hin : In m pairs).
  { eapply Permutation_in; [symmetry; apply sorted_perm|]. rewrite Hs. now left. }
  unfold pairs in Hin. apply in_map_iff in Hin as (j0 & Hj0 & Hin).
  apply in_indices in Hin.
  exists j0. split; [exact Hin|].
  unfold ReverseSortInPlace. cbn [fst snd]. fold pairs. fold sorted.
  replace ((0 <=? 0) && (0 <? n))%bool with true
    by (symmetry; apply andb_true_iff; split; [apply Z.leb_le | apply Z.ltb_lt]; lia).
  rewrite Hs. simpl. rewrite <- Hj0. simpl. repeat split.
  intros j Hj. rewrite Forall_forall in Hmax.
  specialize (Hmax (values j, ids j)). simpl in Hmax.
  rewrite <- Hj0 in Hmax. simpl in Hmax. apply Hmax.
  unfold pairs. apply in_map_iff. exists j. split; [reflexivity|].
  now apply in_indices.
Qed.
Lemma ReverseSortInPlace_stable_descending :
  (forall i j, 0 <= i < j -> j < n -> ids i < ids j) ->
  forall a b, 0 <= a < b -> b < n ->
    sorts_before
      (fst (ReverseSortInPlace values ids n) a, snd (ReverseSortInPlace values ids n) a)
      (fst (ReverseSortInPlace values ids n) b, snd (ReverseSortInPlace values ids n) b).
Proof.
  intros Hids a b Hab Hbn.
  assert (Hsorted : StronglySorted sorts_before sorted).
  { apply extract_passes_stable_descending.
    - unfold pairs. now rewrite length_map, length_indices.
    - unfold pairs. apply StronglySorted_map_in with (R := Z.lt).
      + apply StronglySorted_indices.
      + intros i j Hi Hj Hij. apply in_indices in Hi, Hj.
        unfold place_lt. cbn [snd]. apply Hids; lia. }
  pose proof sorted_length as Hlen.
  assert (Hcell : forall i, 0 <= i < n ->
            (fst (ReverseSortInPlace values ids n) i,
             snd (ReverseSortInPlace values ids n) i)
            = nth (Z.to_nat i) sorted (0, 0)).
  { intros i Hi. unfold ReverseSortInPlace. cbn [fst snd]. fold pairs. fold sorted.
    replace ((0 <=? i) && (i <? n))%bool with true
      by (symmetry; apply andb_true_iff; split; [apply Z.leb_le | apply Z.ltb_lt]; lia).
    rewrite (nth_indep sorted (values i, values i) (0, 0)) by lia.
    rewrite (nth_indep sorted (ids i, ids i) (0, 0)) by lia.
    now destruct (nth (Z.to_nat i) sorted (0, 0)). }
  rewrite !Hcell by lia.
  apply StronglySorted_nth; [exact Hsorted | lia].
Qed.
End ReverseSort.

(** ** The offset-ordered list inside the pool *)

Lemma chain_head pool i l : chain pool i l -> exists l', l = i :: l'.
Proof. destruct 1; eauto. Qed.

Lemma chain_frame pool pool' i l :
  chain pool i l ->
  (forall j, In j l -> next_entry_index (pool' j) = next_entry_index (pool j)) ->
  chain pool' i l.
Proof.
  induction 1 as [i Hi | i l Hi Hc IH]; intros Hsame.
  - apply chain_last. rewrite Hsame; [exact Hi | now left].
  - apply chain_step; rewrite Hsame by now left.
    + exact Hi.
    + apply IH. intros j Hj. apply Hsame. now right.
Qed.

Ltac upd_simpl :=
  repeat (rewrite upd_same || rewrite upd_other by lia); cbn [set_entry_next
    set_entry_offset set_entry_requirements_index offset requirements_index
    next_entry_index].

Lemma insert_loop_spec pool new off :
  new <> -1 ->
  forall l cur fuel,
    chain pool cur l -> NoDup l -> ~ In new l -> (List.length l <= fuel)%nat ->
    exists pool' l1 l2,
      insert_loop fuel pool cur new off = Some pool'
      /\ l = cur :: l1 ++ l2
      /\ chain pool' cur (cur :: l1 ++ new :: l2)
      /\ Forall (fun j => offset (pool j) <= off) l1
      /\ (forall j l2', l2 = j :: l2' -> off < offset (pool j))
      /\ (forall j, offset (pool' j) = offset (pool j)
                    /\ requirements_index (pool' j) = requirements_index (pool j))
      /\ (forall j, ~ In j l -> j <> new -> pool' j = pool j).
Proof.
  intros Hnew l cur fuel Hc. revert fuel.
  induction Hc as [i Hi | i l Hi Hc IH]; intros fuel Hnd Hnin Hfuel.
  - destruct fuel as [|fuel]; [simpl in Hfuel; lia|].
    assert (Hne : i <> new) by (intros ->; apply Hnin; now left).
    cbn [insert_loop]. rewrite Hi. cbn [Z.eqb].
    eexists _, [], []. split; [reflexivity|].
    split; [reflexivity|]. split; [|split; [constructor|split; [discriminate|split]]].
    + simpl. apply chain_step.
      * upd_simpl. exact Hnew.
      * upd_simpl. apply chain_last. now upd_simpl.
    + intros j.
      destruct (Z.eq_dec j new) as [->|E1]; [now upd_simpl|].
      destruct (Z.eq_dec j i) as [->|E2]; now upd_simpl.
    + intros j Hj Hjn.
      assert (j <> i) by (intros ->; apply Hj; now left). now upd_simpl.
  - destruct fuel as [|fuel]; [simpl in Hfuel; lia|].
    assert (Hne : i <> new) by (intros ->; apply Hnin; now left).
    inversion Hnd as [|? ? Hil Hnd']; subst.
    assert (Hnl : ~ In new l) by (intros H; apply Hnin; now right).
    cbn [insert_loop].
    destruct (next_entry_index (pool i) =? -1) eqn:E; cmp_to_prop; [contradiction|].
    destruct (offset (pool (next_entry_index (pool i))) >? off) eqn:Hgt; cmp_to_prop.
    + eexists _, [], l. split; [reflexivity|].
      split; [reflexivity|]. split; [|split; [constructor|split; [|split]]].
      * simpl. apply chain_step; upd_simpl; [exact Hnew|].
        apply chain_step; upd_simpl; [exact Hi|].
        apply chain_frame with (pool := pool); [exact Hc|].
        intros j Hj.
        assert (j <> i) by (intros ->; contradiction).
        assert (j <> new) by (intros ->; contradiction).
        now upd_simpl.
      * intros j l2' ->. apply chain_head in Hc as (l' & Hl').
        inversion Hl'; subst. exact Hgt.
      * intros j.
        destruct (Z.eq_dec j i) as [->|E2]; [now upd_simpl|].
        destruct (Z.eq_dec j new) as [->|E1]; now upd_simpl.
      * intros j Hj Hjn.
        assert (j <> i) by (intros ->; apply Hj; now left). now upd_simpl.
    + destruct (IH fuel Hnd' Hnl) as (pool' & l1 & l2 & Hrun & Hl & Hch & Hle & Hlt & Hsame & Hframe).
      { simpl in Hfuel. lia. }
      exists pool', (next_entry_index (pool i) :: l1), l2.
      split; [exact Hrun|]. split; [now rewrite Hl|].
      split; [|split; [|split; [exact Hlt|split; [exact Hsame|]]]].
      * simpl. apply chain_step; rewrite (Hframe i) by auto; auto.
      * constructor; [lia | exact Hle].
      * intros j Hj Hjn. apply Hframe; auto. intros H. apply Hj. now right.
Qed.

Lemma chain_length_pos pool i l : chain pool i l -> (1 <= List.length l)%nat.
Proof. destruct 1; simpl; lia. Qed.

(** The walks that only read the list stop, and what they return is a cell
    of the list from which the rest of the list is still ahead. *)
Lemma NextValidEntry_loop_spec p first' last' :
  forall l c fuel,
    chain (buffers_sorted_by_offset_ p) c l ->
    (List.length l <= fuel)%nat ->
    exists r,
      NextValidEntry_loop fuel p c first' last' = Some r
      /\ forall j, r = Some j ->
           exists l', chain (buffers_sorted_by_offset_ p) j l'
                      /\ incl l' l /\ (List.length l' <= List.length l)%nat.
Proof.
  intros l c fuel Hc. revert fuel.
  induction Hc as [i Hi | i l Hi Hc IH]; intros fuel Hfuel;
    (destruct fuel as [|fuel]; [simpl in Hfuel; lia|]); cbn [NextValidEntry_loop];
    destruct (DoesEntryOverlapInTime p i first' last').
  - eexists; split; [reflexivity|]. intros j [= <-].
    exists [i]. split; [now apply chain_last|]. split; [apply incl_refl | lia].
  - rewrite Hi. cbn [Z.eqb]. eexists; split; [reflexivity|]. discriminate.
  - eexists; split; [reflexivity|]. intros j [= <-].
    exists (i :: l). split; [now apply chain_step|]. split; [apply incl_refl | lia].
  - destruct (next_entry_index (buffers_sorted_by_offset_ p i) =? -1) eqn:E;
      cmp_to_prop; [contradiction|].
    destruct (IH fuel) as (r & Hr & Hsub); [simpl in Hfuel; lia|].
    exists r. split; [exact Hr|]. intros j Hj.
    destruct (Hsub j Hj) as (l' & Hl' & Hincl & Hlen).
    exists l'. split; [exact Hl'|]. split; [now apply incl_tl | simpl; lia].
Qed.

Lemma NextValidEntry_spec p first' last' l c fuel :
  chain (buffers_sorted_by_offset_ p) c l ->
  (List.length l <= fuel)%nat ->
  exists r,
    NextValidEntry fuel p (Some c) first' last' = Some r
    /\ forall j, r = Some j ->
         exists l', chain (buffers_sorted_by_offset_ p) j l'
                    /\ incl l' l /\ (List.length l' < List.length l)%nat.
Proof.
  intros Hc Hfuel. unfold NextValidEntry.
  destruct Hc as [i Hi | i l Hi Hc].
  - rewrite Hi. cbn [Z.eqb]. eexists; split; [reflexivity|]. discriminate.
  - destruct (next_entry_index (buffers_sorted_by_offset_ p i) =? -1) eqn:E;
      cmp_to_prop; [contradiction|].
    destruct (NextValidEntry_loop_spec p first' last' Hc (fuel := fuel))
      as (r & Hr & Hsub); [simpl in Hfuel; lia|].
    exists r. split; [exact Hr|]. intros j Hj.
    destruct (Hsub j Hj) as (l' & Hl' & Hincl & Hlen).
    exists l'. split; [exact Hl'|]. split; [now apply incl_tl | simpl; lia].
Qed.

Lemma gap_loop_spec p wanted_size first' last' nfuel :
  forall n l c fuel,
    (List.length l <= n)%nat ->
    chain (buffers_sorted_by_offset_ p) c l ->
    (List.length l <= fuel)%nat ->
    (List.length l <= nfuel)%nat ->
    exists j,
      gap_loop fuel nfuel p (Some c) wanted_size first' last' = Some (Some j)
      /\ In j l.
Proof.
  induction n as [|n IH]; intros l c fuel Hn Hc Hfuel Hnfuel.
  - apply chain_length_pos in Hc. lia.
  - pose proof (chain_length_pos Hc) as Hpos.
    destruct fuel as [|fuel]; [lia|]. cbn [gap_loop].
    destruct (NextValidEntry_spec p first' last' Hc Hnfuel) as (r & Hr & Hsub).
    rewrite Hr. destruct r as [next_entry|].
    + destruct (Hsub next_entry eq_refl) as (l' & Hl' & Hincl & Hlen).
      match goal with |- context [if ?b then _ else _] => destruct b end.
      * exists c. split; [reflexivity|].
        apply chain_head in Hc as (l0 & ->). now left.
      * destruct (IH l' next_entry fuel) as (j & Hj & Hin); try lia; [exact Hl'|].
        exists j. split; [exact Hj | now apply Hincl].
    + exists c. split; [reflexivity|].
      apply chain_head in Hc as (l0 & ->). now left.
Qed.

Lemma StronglySorted_insert (a b : list Z) x :
  StronglySorted Z.le (a ++ b) ->
  Forall (fun y => y <= x) a ->
  (forall y b', b = y :: b' -> x < y) ->
  StronglySorted Z.le (a ++ x :: b).
Proof.
  intros Hs Ha Hb. induction a as [|z a IH]; simpl in *.
  - constructor; [exact Hs|].
    destruct b as [|y b']; [constructor|].
    specialize (Hb y b' eq_refl).
    inversion Hs as [|? ? _ Hall]; subst.
    constructor; [lia|]. eapply Forall_impl; [|exact Hall]. simpl; intros; lia.
  - inversion Hs as [|? ? Hs' Hall]; subst.
    inversion Ha as [|? ? Hzx Ha']; subst.
    constructor; [now apply IH|].
    apply Forall_app in Hall as [H1 H2].
    apply Forall_app. split; [exact H1|]. constructor; [exact Hzx | exact H2].
Qed.

(** ** The placement loop *)

Lemma same_input_refl p : same_input p p.
Proof. repeat split. Qed.

Lemma same_input_trans p q r : same_input p q -> same_input q r -> same_input p r.
Proof.
  intros (A1 & A2 & A3 & A4 & A5) (B1 & B2 & B3 & B4 & B5).
  repeat split; congruence.
Qed.

Lemma placed_length p k l : placed p k l -> List.length l = Z.to_nat k.
Proof.
  intros H. rewrite (Permutation_length (placed_perm H)). apply length_indices.
Qed.

Lemma placed_in p k l j : placed p k l -> In j l <-> 0 <= j < k.
Proof.
  intros H. rewrite <- in_indices. split; apply Permutation_in.
  - apply (placed_perm H).
  - symmetry. apply (placed_perm H).
Qed.

(** The candidate the gap search ends with is null or a cell of the list. *)
Lemma candidate_spec fuel p k l wanted_size first' last' :
  placed p k l -> 1 <= k -> (Z.to_nat k <= fuel)%nat ->
  exists c0 c,
    (if DoesEntryOverlapInTime p 0 first' last' then Some (Some 0)
     else NextValidEntry fuel p (Some 0) first' last') = Some c0
    /\ gap_loop fuel fuel p c0 wanted_size first' last' = Some c
    /\ forall j, c = Some j -> In j l.
Proof.
  intros Hp Hk Hfuel.
  pose proof (placed_length Hp) as Hlen.
  pose proof (placed_chain Hp) as Hc.
  assert (Hgap : forall l' j, chain (buffers_sorted_by_offset_ p) j l' ->
            incl l' l -> (List.length l' <= List.length l)%nat ->
            exists c, gap_loop fuel fuel p (Some j) wanted_size first' last' = Some c
                      /\ forall j', c = Some j' -> In j' l).
  { intros l' j Hl' Hincl Hle.
    destruct (gap_loop_spec p wanted_size first' last' (nfuel := fuel)
                (n := List.length l') (fuel := fuel) (le_n _) Hl')
      as (j' & Hj' & Hin); try lia.
    exists (Some j'). split; [exact Hj'|]. intros ? [= <-]. now apply Hincl. }
  destruct (DoesEntryOverlapInTime p 0 first' last').
  - destruct (Hgap l 0 Hc) as (c & H1 & H2); [apply incl_refl | lia |].
    exists (Some 0), c. auto.
  - destruct (NextValidEntry_spec p first' last' Hc (fuel := fuel))
      as (r & Hr & Hsub); [lia|].
    rewrite Hr. destruct r as [j|].
    + destruct (Hsub j eq_refl) as (l' & Hl' & Hincl & Hlt).
      destruct (Hgap l' j Hl' Hincl) as (c & H1 & H2); [lia|].
      exists (Some j), c. auto.
    + exists None, None. split; [reflexivity|]. split; [|discriminate].
      destruct fuel as [|fuel']; [lia|]. reflexivity.
Qed.

Ltac planner_simpl :=
  cbn [set_requirements set_buffer_count set_sorted_by_size set_sorted_by_offset
       set_next_free_entry set_buffer_offsets set_need_to_calculate_offsets
       requirements_ buffer_count_ buffer_sizes_sorted_by_size_
       buffer_ids_sorted_by_size_ buffers_sorted_by_offset_ next_free_entry_
       buffer_offsets_ need_to_calculate_offsets_] in *.

Lemma place_buffer_spec fuel p k l :
  placed p k l -> 1 <= k -> (Z.to_nat k <= fuel)%nat ->
  (forall j, 0 <= j < k ->
     buffer_ids_sorted_by_size_ p j <> buffer_ids_sorted_by_size_ p k) ->
  exists p' l',
    place_buffer fuel k p = Some p'
    /\ placed p' (k + 1) l'
    /\ same_input p p'
    /\ ((forall j, 0 <= j <= k ->
           0 <= size (requirements_ p (buffer_ids_sorted_by_size_ p j))) ->
        ordered p k l -> ordered p' (k + 1) l').
Proof.
  intros Hp Hk Hfuel Hinj.
  unfold place_buffer.
  set (buffer_id := buffer_ids_sorted_by_size_ p k).
  set (w := requirements_ p buffer_id).
  destruct (candidate_spec (size w) (first_time_used w) (last_time_used w) Hp Hk Hfuel)
    as (c0 & c & Hc0 & Hc & Hcin).
  rewrite Hc0, Hc. planner_simpl.
  set (off := match c with
              | Some candidate =>
                offset (buffers_sorted_by_offset_ p candidate)
                + size (requirements_ p
                          (requirements_index (buffers_sorted_by_offset_ p candidate)))
              | None => 0
              end).
  rewrite (placed_next_free Hp).
  set (pool := buffers_sorted_by_offset_ p).
  set (pool1 := upd pool k (set_entry_offset (pool k) off)).
  set (pool2 := upd pool1 k (set_entry_requirements_index (pool1 k) buffer_id)).
  assert (Hhead : offset (pool 0) = 0) by apply (placed_head Hp).
  assert (Hids : forall j, 0 <= j < k ->
            requirements_index (pool j) = buffer_ids_sorted_by_size_ p j)
    by apply (placed_ids Hp).
  assert (Hkl : ~ In k l) by (rewrite (placed_in _ Hp); lia).
  assert (Hnd : NoDup l).
  { eapply Permutation_NoDup; [symmetry; apply (placed_perm Hp) | apply NoDup_indices]. }
  assert (Hpool2 : forall j, j <> k -> pool2 j = pool j).
  { intros j Hj. unfold pool2, pool1. now upd_simpl. }
  assert (Hpool2k : offset (pool2 k) = off /\ requirements_index (pool2 k) = buffer_id).
  { unfold pool2, pool1. now upd_simpl. }
  assert (Hch2 : chain pool2 0 l).
  { apply chain_frame with (pool := pool); [apply (placed_chain Hp)|].
    intros j Hj. rewrite Hpool2; [reflexivity|]. intros ->. contradiction. }
  destruct (insert_loop_spec (pool := pool2) (new := k) off ltac:(lia) Hch2 Hnd Hkl
              (fuel := fuel))
    as (pool' & l1 & l2 & Hrun & Hl & Hch & Hle & Hlt & Hsame & Hframe).
  { rewrite (placed_length Hp). exact Hfuel. }
  rewrite Hrun.
  eexists _, (0 :: l1 ++ k :: l2). split; [reflexivity|].
  assert (Hoff' : forall j, j <> k -> offset (pool' j) = offset (pool j)).
  { intros j Hj. rewrite (proj1 (Hsame j)). now rewrite Hpool2. }
  split; [|split].
  - constructor; planner_simpl.
    + reflexivity.
    + exact Hch.
    + rewrite indices_succ by lia.
      transitivity (k :: l); [|rewrite (placed_perm Hp); apply Permutation_cons_append].
      rewrite Hl. symmetry. apply (Permutation_middle (0 :: l1) l2 k).
    + intros j Hj. rewrite (proj2 (Hsame j)).
      destruct (Z.eq_dec j k) as [->|Hjk]; [apply Hpool2k|].
      rewrite Hpool2 by exact Hjk. apply Hids. lia.
    + rewrite Hoff' by lia. exact Hhead.
    + intros j Hj. destruct (Z.eq_dec j k) as [->|Hjk].
      * fold buffer_id. rewrite upd_same. rewrite (proj1 (Hsame k)).
        symmetry. apply Hpool2k.
      * rewrite upd_other by (apply Hinj; lia).
        rewrite Hoff' by exact Hjk. apply (placed_recorded Hp). lia.
  - repeat split.
  - intros Hsize [Hsorted Hbound]. unfold ordered, offsets_of in *. planner_simpl.
    fold pool in Hsorted, Hbound.
    assert (Hk1 : ~ In k l1 /\ ~ In k l2).
    { rewrite Hl in Hkl. split; intros H; apply Hkl; right; apply in_or_app; auto. }
    assert (Hall : forall j, In j l -> 0 <= offset (pool j)).
    { intros j Hj. rewrite Hl in Hsorted, Hj. cbn [map] in Hsorted.
      inversion Hsorted as [|? ? _ Hge]; subst.
      destruct Hj as [<-|Hj]; [lia|].
      rewrite Forall_forall in Hge. rewrite Hhead in Hge. apply Hge.
      apply in_map_iff. eauto. }
    assert (Hin0 : In 0 l) by (rewrite Hl; now left).
    assert (Htotal : 0 <= placed_total p k).
    { specialize (Hbound 0 Hin0). unfold range_end in Hbound.
      rewrite Hhead, Hids in Hbound by lia.
      specialize (Hsize 0 ltac:(lia)). lia. }
    assert (Hoff : 0 <= off <= placed_total p k).
    { unfold off. destruct c as [j|]; [|lia].
      specialize (Hcin j eq_refl).
      pose proof (Hall j Hcin).
      specialize (Hbound j Hcin). unfold range_end in Hbound.
      apply (placed_in _ Hp) in Hcin.
      fold pool. fold pool in Hbound.
      rewrite Hids in * by exact Hcin.
      specialize (Hsize j ltac:(lia)). lia. }
    split.
    + assert (Hmap : forall l0, ~ In k l0 ->
                map (fun j => offset (pool' j)) l0 = map (fun j => offset (pool j)) l0).
      { intros l0 Hl0. apply map_ext_in. intros j Hj. apply Hoff'.
        intros ->. contradiction. }
      rewrite Hl in Hsorted.
      change (0 :: l1 ++ k :: l2) with ((0 :: l1) ++ k :: l2).
      rewrite map_app. cbn [map].
      rewrite Hoff' by lia.
      rewrite (proj1 (Hsame k)), (proj1 Hpool2k).
      rewrite !Hmap by tauto.
      apply StronglySorted_insert
        with (a := offset (pool 0) :: map (fun j => offset (pool j)) l1).
      * cbn [map] in Hsorted. rewrite map_app in Hsorted. exact Hsorted.
      * constructor; [lia|].
        rewrite Forall_map. rewrite Forall_forall in *. intros j Hj.
        specialize (Hle j Hj). rewrite Hpool2 in Hle; [exact Hle|].
        intros ->. now apply (proj1 Hk1).
      * intros y b' Hb. destruct l2 as [|j l2']; [discriminate|].
        cbn [map] in Hb. injection Hb as <- _.
        specialize (Hlt j l2' eq_refl). rewrite Hpool2 in Hlt; [exact Hlt|].
        intros ->. apply (proj2 Hk1). now left.
    + assert (Hsum : placed_total
                       (set_sorted_by_offset
                          (set_next_free_entry
                             (set_buffer_offsets p (upd (buffer_offsets_ p) buffer_id off))
                             (k + 1)) pool') (k + 1)
                     = placed_total p k + size (requirements_ p buffer_id)).
      { unfold placed_total. planner_simpl. rewrite indices_succ by lia.
        rewrite map_app. unfold list_sum_Z. rewrite fold_right_app. cbn [map fold_right].
        fold buffer_id.
        generalize (map (fun i => size (requirements_ p (buffer_ids_sorted_by_size_ p i)))
                      (indices k)).
        intros xs. induction xs as [|x xs IH]; cbn [fold_right]; lia. }
      intros j Hj. rewrite Hsum. unfold range_end. planner_simpl.
      rewrite (proj1 (Hsame j)), (proj2 (Hsame j)).
      destruct (Z.eq_dec j k) as [->|Hjk].
      * rewrite (proj1 Hpool2k), (proj2 Hpool2k). lia.
      * rewrite Hpool2 by exact Hjk.
        assert (Hjl : In j l).
        { rewrite Hl. change (0 :: l1 ++ k :: l2) with ((0 :: l1) ++ k :: l2) in Hj.
          apply in_app_or in Hj.
          change (0 :: l1 ++ l2) with ((0 :: l1) ++ l2). apply in_or_app.
          destruct Hj as [Hj|[Hj|Hj]]; [now left | congruence | now right]. }
        specialize (Hbound j Hjl). unfold range_end in Hbound.
        specialize (Hsize k ltac:(lia)). fold buffer_id in Hsize. lia.
Qed.



Lemma for_rangeM_invariant {S : Type} (P : Z -> S -> Prop) (body : Z -> S -> option S) :
  forall n i s,
    P i s ->
    (forall j t, i <= j < i + Z.of_nat n -> P j t ->
       exists t', body j t = Some t' /\ P (j + 1) t') ->
    exists s', for_rangeM n i body s = Some s' /\ P (i + Z.of_nat n) s'.
Proof.
  induction n as [|n IH]; intros i s Hs Hstep.
  - exists s. simpl. now rewrite Z.add_0_r.
  - cbn [for_rangeM].
    destruct (Hstep i s ltac:(lia) Hs) as (t' & Ht' & HP). rewrite Ht'.
    replace (i + Z.of_nat (Datatypes.S n)) with ((i + 1) + Z.of_nat n) by lia.
    apply IH; [exact HP|]. intros j t Hj. apply Hstep. lia.
Qed.

Lemma NoDup_map_injective {A B : Type} (f : A -> B) (l : list A) :
  NoDup (map f l) ->
  forall a b, In a l -> In b l -> f a = f b -> a = b.
Proof.
  induction l as [|x l IH]; simpl; intros Hnd a b Ha Hb Heq; [contradiction|].
  inversion Hnd as [|? ? Hx Hnd']; subst.
  destruct Ha as [->|Ha], Hb as [->|Hb]; auto.
  - exfalso. apply Hx. rewrite Heq. now apply in_map.
  - exfalso. apply Hx. rewrite <- Heq. now apply in_map.
Qed.

Lemma fill_sorted_by_size_spec p n :
  0 <= n ->
  let q := for_loop 0 n fill_sorted_by_size p in
  requirements_ q = requirements_ p
  /\ buffer_count_ q = buffer_count_ p
  /\ buffers_sorted_by_offset_ q = buffers_sorted_by_offset_ p
  /\ next_free_entry_ q = next_free_entry_ p
  /\ buffer_offsets_ q = buffer_offsets_ p
  /\ need_to_calculate_offsets_ q = need_to_calculate_offsets_ p
  /\ forall j, 0 <= j < n ->
       buffer_sizes_sorted_by_size_ q j = size (requirements_ p j)
       /\ buffer_ids_sorted_by_size_ q j = j.
Proof.
  intros Hn q. unfold q, for_loop.
  pose proof (@for_range_invariant _
    (fun i q =>
       requirements_ q = requirements_ p
       /\ buffer_count_ q = buffer_count_ p
       /\ buffers_sorted_by_offset_ q = buffers_sorted_by_offset_ p
       /\ next_free_entry_ q = next_free_entry_ p
       /\ buffer_offsets_ q = buffer_offsets_ p
       /\ need_to_calculate_offsets_ q = need_to_calculate_offsets_ p
       /\ forall j, 0 <= j < i ->
            buffer_sizes_sorted_by_size_ q j = size (requirements_ p j)
            /\ buffer_ids_sorted_by_size_ q j = j)
    fill_sorted_by_size (Z.to_nat (n - 0)) 0 p) as H.
  replace (0 + Z.of_nat (Z.to_nat (n - 0))) with n in H by lia.
  apply H; clear H.
  - repeat split; lia.
  - intros j t Hj (H1 & H2 & H3 & H4 & H5 & H6 & H7).
    unfold fill_sorted_by_size. planner_simpl.
    repeat (split; [assumption|]).
    intros i Hi. destruct (Z.eq_dec i j) as [->|Hij].
    + rewrite !upd_same. now rewrite H1.
    + rewrite !upd_other by exact Hij. apply H7. lia.
Qed.

(** ** A complete layout pass *)

Lemma ids_in_range ids n :
  Permutation (map ids (indices n)) (indices n) ->
  forall j, 0 <= j < n -> 0 <= ids j < n.
Proof.
  intros Hperm j Hj. apply in_indices.
  eapply Permutation_in; [exact Hperm|]. apply in_map. now apply in_indices.
Qed.

Lemma ids_injective ids n :
  Permutation (map ids (indices n)) (indices n) ->
  forall a b, 0 <= a < n -> 0 <= b < n -> ids a = ids b -> a = b.
Proof.
  intros Hperm a b Ha Hb. apply NoDup_map_injective with (l := indices n).
  - eapply Permutation_NoDup; [symmetry; exact Hperm | apply NoDup_indices].
  - now apply in_indices.
  - now apply in_indices.
Qed.

Lemma CalculateOffsetsIfNeeded_dirty fuel p :
  need_to_calculate_offsets_ p = true ->
  0 < buffer_count_ p ->
  (Z.to_nat (buffer_count_ p) <= fuel)%nat ->
  exists p' l,
    CalculateOffsetsIfNeeded fuel p = Some p'
    /\ laid_out p' l
    /\ requirements_ p' = requirements_ p
    /\ buffer_count_ p' = buffer_count_ p
    /\ need_to_calculate_offsets_ p' = false.
Proof.
  intros Hneed Hcount Hfuel. unfold CalculateOffsetsIfNeeded.
  rewrite Hneed. cbn [negb orb].
  destruct (buffer_count_ p =? 0) eqn:E; cmp_to_prop; [lia|]. clear E.
  set (n := buffer_count_ p) in *.
  set (p0 := set_need_to_calculate_offsets p false).
  change (buffer_count_ p0) with n.
  destruct (fill_sorted_by_size_spec p0 (n := n) ltac:(lia))
    as (F1 & F2 & F3 & F4 & F5 & F6 & F7).
  change (requirements_ p0) with (requirements_ p) in F1, F7.
  set (p1 := for_loop 0 n fill_sorted_by_size p0) in *.
  rewrite F2. change (buffer_count_ p0) with n.
  pose proof (ReverseSortInPlace_ids_perm (buffer_sizes_sorted_by_size_ p1)
                (buffer_ids_sorted_by_size_ p1) (n := n) ltac:(lia)) as Hperm.
  destruct (ReverseSortInPlace_head (buffer_sizes_sorted_by_size_ p1)
              (buffer_ids_sorted_by_size_ p1) (n := n) Hcount)
    as (j0 & Hj0 & _ & Hid0 & Hmax).
  destruct (ReverseSortInPlace (buffer_sizes_sorted_by_size_ p1)
              (buffer_ids_sorted_by_size_ p1) n) as [sizes ids] eqn:Hsort.
  cbn [snd] in Hperm, Hid0.
  assert (Hperm' : Permutation (map ids (indices n)) (indices n)).
  { rewrite Hperm. apply Permutation_refl'.
    transitivity (map (fun j => j) (indices n)); [|apply map_id].
    apply map_ext_in. intros j Hj. apply in_indices in Hj. apply (F7 j Hj). }
  planner_simpl.
  set (pool := buffers_sorted_by_offset_ p1).
  set (pool1 := upd pool 0 (set_entry_offset (pool 0) 0)).
  set (pool2 := upd pool1 0 (set_entry_requirements_index (pool1 0) (ids 0))).
  set (pool3 := upd pool2 0 (set_entry_next (pool2 0) (-1))).
  set (p3 := set_next_free_entry _ 1).
  assert (Hreq3 : requirements_ p3 = requirements_ p) by (unfold p3; planner_simpl; exact F1).
  assert (Hcell0 : offset (pool3 0) = 0 /\ requirements_index (pool3 0) = ids 0
                   /\ next_entry_index (pool3 0) = -1).
  { unfold pool3, pool2, pool1. now upd_simpl. }
  assert (Hplaced : placed p3 1 [0]).
  { constructor; unfold p3; planner_simpl.
    - reflexivity.
    - apply chain_last. apply Hcell0.
    - reflexivity.
    - intros j Hj. replace j with 0 by lia. apply Hcell0.
    - apply Hcell0.
    - intros j Hj. lia. }
  pose proof (@for_rangeM_invariant _
    (fun k q =>
       same_input p3 q
       /\ exists l, placed q k l
          /\ ((forall i, 0 <= i < n -> 0 <= size (requirements_ p i)) ->
              ordered q k l))
    (place_buffer fuel) (Z.to_nat (n - 1)) 1 p3) as Hloop.
  replace (1 + Z.of_nat (Z.to_nat (n - 1))) with n in Hloop by lia.
  unfold for_loopM. change (buffer_count_ p3) with (buffer_count_ p1).
  rewrite F2. change (buffer_count_ p0) with n.
  destruct Hloop as (p' & Hrun & Hsame & l & Hpl & Hsorted).
  - split; [apply same_input_refl|]. exists [0]. split; [exact Hplaced|].
    intros _. split.
    + unfold offsets_of. cbn [map]. repeat constructor.
    + intros j [<-|[]]. unfold range_end, placed_total, p3. planner_simpl.
      rewrite (proj1 Hcell0), (proj1 (proj2 Hcell0)).
      change (indices 1) with [0]. cbn [map list_sum_Z fold_right].
      lia.
  - intros k q Hk (Hsame & l & Hpl & Hsorted).
    destruct Hsame as (S1 & S2 & S3 & S4 & S5).
    assert (Hids : buffer_ids_sorted_by_size_ q = ids) by (rewrite S4; reflexivity).
    destruct (place_buffer_spec (fuel := fuel) Hpl) as (q' & l' & Hq' & Hpl' & Hsame' & Hsorted').
    + lia.
    + lia.
    + intros j Hj Heq. rewrite Hids in Heq.
      apply (@ids_injective ids n Hperm') in Heq; lia.
    + exists q'. split; [exact Hq'|]. split.
      * eapply same_input_trans; [|exact Hsame']. repeat split; assumption.
      * exists l'. split; [exact Hpl'|]. intros Hsz. apply Hsorted'; [|auto].
        intros j Hj. rewrite S1, Hreq3, Hids. apply Hsz.
        apply (@ids_in_range ids n Hperm'). lia.
  - destruct Hsame as (S1 & S2 & S3 & S4 & S5).
    assert (Hcnt : buffer_count_ p' = n).
    { rewrite S2. unfold p3. planner_simpl. rewrite F2. reflexivity. }
    assert (Hids : buffer_ids_sorted_by_size_ p' = ids) by (rewrite S4; reflexivity).
    exists p', l. split; [exact Hrun|].
    split; [|split; [congruence|split; [exact Hcnt|]]].
    + constructor; rewrite ?Hcnt, ?Hids.
      * exact Hpl.
      * exact Hperm'.
      * intros i Hi. rewrite S1, Hreq3.
        rewrite Hid0, (proj2 (F7 j0 Hj0)).
        rewrite <- (proj1 (F7 i Hi)), <- (proj1 (F7 j0 Hj0)). now apply Hmax.
      * intros Hsz. apply Hsorted. intros i Hi. rewrite <- Hreq3, <- S1. now apply Hsz.
    + rewrite S5. unfold p3. planner_simpl. exact F6.
Qed.

(** ** A larger step budget changes no result *)

Lemma NextValidEntry_loop_mono p first' last' :
  forall fuel fuel' c r,
    (fuel <= fuel')%nat ->
    NextValidEntry_loop fuel p c first' last' = Some r ->
    NextValidEntry_loop fuel' p c first' last' = Some r.
Proof.
  induction fuel as [|fuel IH]; intros fuel' c r Hle H; [discriminate|].
  destruct fuel' as [|fuel']; [lia|]. cbn [NextValidEntry_loop] in *.
  destruct (DoesEntryOverlapInTime p c first' last'); [exact H|].
  destruct (next_entry_index (buffers_sorted_by_offset_ p c) =? -1); [exact H|].
  apply IH; [lia | exact H].
Qed.

Lemma NextValidEntry_mono p first' last' fuel fuel' start r :
  (fuel <= fuel')%nat ->
  NextValidEntry fuel p start first' last' = Some r ->
  NextValidEntry fuel' p start first' last' = Some r.
Proof.
  intros Hle. unfold NextValidEntry. destruct start as [c|]; [|auto].
  destruct (next_entry_index (buffers_sorted_by_offset_ p c) =? -1); [auto|].
  now apply NextValidEntry_loop_mono.
Qed.

Lemma gap_loop_mono p wanted_size first' last' nfuel nfuel' :
  (nfuel <= nfuel')%nat ->
  forall fuel fuel' c r,
    (fuel <= fuel')%nat ->
    gap_loop fuel nfuel p c wanted_size first' last' = Some r ->
    gap_loop fuel' nfuel' p c wanted_size first' last' = Some r.
Proof.
  intros Hn. induction fuel as [|fuel IH]; intros fuel' c r Hle H; [discriminate|].
  destruct fuel' as [|fuel']; [lia|]. cbn [gap_loop] in *.
  destruct (NextValidEntry nfuel p c first' last') as [next_entry|] eqn:E;
    [|discriminate].
  rewrite (NextValidEntry_mono _ _ _ _ Hn E).
  destruct next_entry as [next_entry|]; [|exact H].
  destruct c as [c|]; [|discriminate].
  match goal with |- context [if ?b then _ else _] => destruct b end; [exact H|].
  apply IH; [lia | exact H].
Qed.

Lemma insert_loop_mono new off :
  forall fuel fuel' pool cur r,
    (fuel <= fuel')%nat ->
    insert_loop fuel pool cur new off = Some r ->
    insert_loop fuel' pool cur new off = Some r.
Proof.
  induction fuel as [|fuel IH]; intros fuel' pool cur r Hle H; [discriminate|].
  destruct fuel' as [|fuel']; [lia|]. cbn [insert_loop] in *.
  destruct (next_entry_index (pool cur) =? -1); [exact H|].
  destruct (offset (pool (next_entry_index (pool cur))) >? off); [exact H|].
  apply IH; [lia | exact H].
Qed.

Lemma place_buffer_mono fuel fuel' i p r :
  (fuel <= fuel')%nat ->
  place_buffer fuel i p = Some r ->
  place_buffer fuel' i p = Some r.
Proof.
  intros Hle. unfold place_buffer.
  set (w := requirements_ p (buffer_ids_sorted_by_size_ p i)).
  intros H.
  assert (H0 : forall c0,
    (if DoesEntryOverlapInTime p 0 (first_time_used w) (last_time_used w)
     then Some (Some 0)
     else NextValidEntry fuel p (Some 0) (first_time_used w) (last_time_used w))
    = Some c0 ->
    (if DoesEntryOverlapInTime p 0 (first_time_used w) (last_time_used w)
     then Some (Some 0)
     else NextValidEntry fuel' p (Some 0) (first_time_used w) (last_time_used w))
    = Some c0).
  { intros c0. destruct (DoesEntryOverlapInTime p 0 _ _); [auto|].
    now apply NextValidEntry_mono. }
  destruct (if DoesEntryOverlapInTime p 0 (first_time_used w) (last_time_used w)
            then Some (Some 0)
            else NextValidEntry fuel p (Some 0) (first_time_used w) (last_time_used w))
    as [c0|] eqn:E0; [|discriminate].
  rewrite (H0 c0 eq_refl).
  destruct (gap_loop fuel fuel p c0 (size w) (first_time_used w) (last_time_used w))
    as [c|] eqn:E1; [|discriminate].
  rewrite (gap_loop_mono _ _ _ _ Hle _ Hle E1).
  match type of H with
  | match ?e with _ => _ end = _ => destruct e as [pool'|] eqn:E2; [|discriminate]
  end.
  now rewrite (insert_loop_mono _ _ _ _ Hle E2).
Qed.

Lemma for_rangeM_mono {S : Type} (body body' : Z -> S -> option S) :
  (forall j s r, body j s = Some r -> body' j s = Some r) ->
  forall n i s r,
    for_rangeM n i body s = Some r -> for_rangeM n i body' s = Some r.
Proof.
  intros Hb. induction n as [|n IH]; intros i s r H; [exact H|].
  cbn [for_rangeM] in *.
  destruct (body i s) as [s'|] eqn:E; [|discriminate].
  rewrite (Hb _ _ _ E). now apply IH.
Qed.

Lemma CalculateOffsetsIfNeeded_mono fuel fuel' p r :
  (fuel <= fuel')%nat ->
  CalculateOffsetsIfNeeded fuel p = Some r ->
  CalculateOffsetsIfNeeded fuel' p = Some r.
Proof.
  intros Hle. unfold CalculateOffsetsIfNeeded.
  destruct (negb (need_to_calculate_offsets_ p) || (buffer_count_ p =? 0)); [auto|].
  destruct (ReverseSortInPlace _ _ _) as [sizes ids].
  unfold for_loopM. apply for_rangeM_mono.
  intros j s r'. now apply place_buffer_mono.
Qed.

(** ** The invariant of the planner *)

Lemma planner_ok_new storage : planner_ok (GreedyMemoryPlanner_new storage).
Proof.
  split; cbn; [unfold kMaxBufferCount; lia | discriminate].
Qed.

Lemma planner_ok_AddBuffer p er size' first' last' :
  planner_ok p -> planner_ok (snd (fst (AddBuffer p er size' first' last'))).
Proof.
  intros [Hc Hl]. unfold AddBuffer.
  destruct (buffer_count_ p >=? kMaxBufferCount) eqn:E; cmp_to_prop; cbn [fst snd].
  - now split.
  - split; planner_simpl; [lia | discriminate].
Qed.

Lemma CalculateOffsetsIfNeeded_clean fuel p :
  need_to_calculate_offsets_ p = false \/ buffer_count_ p = 0 ->
  CalculateOffsetsIfNeeded fuel p = Some p.
Proof.
  intros H. unfold CalculateOffsetsIfNeeded.
  destruct H as [-> | ->]; [reflexivity|]. cbn [Z.eqb]. now rewrite orb_true_r.
Qed.

(** A layout-forcing read of a planner within capacity returns, and leaves
    a planner that is up to date. *)
Lemma CalculateOffsetsIfNeeded_spec fuel p :
  planner_ok p ->
  (Z.to_nat (buffer_count_ p) <= fuel)%nat ->
  exists p',
    CalculateOffsetsIfNeeded fuel p = Some p'
    /\ planner_ok p'
    /\ requirements_ p' = requirements_ p
    /\ buffer_count_ p' = buffer_count_ p
    /\ (buffer_count_ p = 0 -> p' = p)
    /\ (0 < buffer_count_ p ->
        need_to_calculate_offsets_ p' = false /\ exists l, laid_out p' l).
Proof.
  intros Hok Hfuel. pose proof Hok as [Hc Hl].
  destruct (need_to_calculate_offsets_ p) eqn:Hneed.
  - destruct (Z.eq_dec (buffer_count_ p) 0) as [H0|H0].
    + exists p. rewrite CalculateOffsetsIfNeeded_clean by auto.
      split; [reflexivity|]. split; [exact Hok|]. split; [reflexivity|].
      split; [reflexivity|]. split; [reflexivity|]. intros Hpos. lia.
    + destruct (CalculateOffsetsIfNeeded_dirty p Hneed ltac:(lia) Hfuel)
        as (p' & l & Hrun & Hlaid & Hreq & Hcnt & Hclean).
      exists p'. split; [exact Hrun|]. split; [|split; [exact Hreq|split; [exact Hcnt|]]].
      * split; [lia|]. intros _. split; [lia | eauto].
      * split; [lia|]. intros _. eauto.
  - exists p. rewrite CalculateOffsetsIfNeeded_clean by auto.
    destruct (Hl eq_refl) as [Hpos Hlaid].
    split; [reflexivity|]. split; [exact Hok|]. split; [reflexivity|].
    split; [reflexivity|]. split; [reflexivity|]. intros _. split; [exact Hneed | exact Hlaid].
Qed.

Lemma CalculateOffsetsIfNeeded_ok fuel p p' :
  planner_ok p -> CalculateOffsetsIfNeeded fuel p = Some p' -> planner_ok p'.
Proof.
  intros Hok Hrun.
  destruct (CalculateOffsetsIfNeeded_spec (fuel := Nat.max fuel (Z.to_nat (buffer_count_ p))) Hok)
    as (q & Hq & Hokq & _); [lia|].
  apply CalculateOffsetsIfNeeded_mono
    with (fuel' := Nat.max fuel (Z.to_nat (buffer_count_ p))) in Hrun; [|lia].
  congruence.
Qed.

Lemma GetMaximumMemorySize_state fuel p p' m :
  GetMaximumMemorySize fuel p = Some (p', m) ->
  CalculateOffsetsIfNeeded fuel p = Some p'.
Proof.
  unfold GetMaximumMemorySize.
  destruct (CalculateOffsetsIfNeeded fuel p) as [q|]; [|discriminate].
  destruct (buffer_count_ q =? 0); [now intros [= -> _]|].
  destruct (max_size_loop fuel q 0 0); [now intros [= -> _] | discriminate].
Qed.

Lemma PrintMemoryPlan_state fuel p er p' er' :
  PrintMemoryPlan fuel p er = Some (p', er') ->
  CalculateOffsetsIfNeeded fuel p = Some p'.
Proof.
  unfold PrintMemoryPlan.
  destruct (CalculateOffsetsIfNeeded fuel p) as [q|]; [|discriminate].
  destruct (for_loop 0 (buffer_count_ q) _ _) as [max_size max_time].
  now intros [= -> _].
Qed.

Lemma reachable_ok p : reachable p -> planner_ok p.
Proof.
  induction 1 as [storage | p er s f l _ IH | p fuel p' m _ IH Hrun
                  | p fuel er p' er' _ IH Hrun].
  - apply planner_ok_new.
  - now apply planner_ok_AddBuffer.
  - apply GetMaximumMemorySize_state in Hrun.
    eapply CalculateOffsetsIfNeeded_ok; eauto.
  - apply PrintMemoryPlan_state in Hrun.
    eapply CalculateOffsetsIfNeeded_ok; eauto.
Qed.

(** ** Walking the list *)

Lemma max_size_loop_spec p :
  forall l c fuel m,
    chain (buffers_sorted_by_offset_ p) c l ->
    (List.length l <= fuel)%nat ->
    max_size_loop fuel p c m
    = Some (fold_left Z.max
              (map (fun j => range_end p (buffers_sorted_by_offset_ p j)) l) m).
Proof.
  intros l c fuel m Hc. revert fuel m.
  induction Hc as [i Hi | i l Hi Hc IH]; intros fuel m Hfuel;
    (destruct fuel as [|fuel]; [simpl in Hfuel; lia|]); cbn [max_size_loop map fold_left].
  - rewrite Hi, Z.eqb_refl. f_equal. unfold range_end.
    destruct (_ >? m) eqn:E; cmp_to_prop; lia.
  - destruct (next_entry_index (buffers_sorted_by_offset_ p i) =? -1) eqn:E;
      cmp_to_prop; [contradiction|].
    rewrite IH by (simpl in Hfuel; lia). f_equal. f_equal. unfold range_end.
    destruct (_ >? m) eqn:E'; cmp_to_prop; lia.
Qed.

Lemma placement_walk_spec pool :
  forall l c fuel,
    chain pool c l ->
    (List.length l <= fuel)%nat ->
    placement_walk fuel pool c = Some (map pool l).
Proof.
  intros l c fuel Hc. revert fuel.
  induction Hc as [i Hi | i l Hi Hc IH]; intros fuel Hfuel;
    (destruct fuel as [|fuel]; [simpl in Hfuel; lia|]); cbn [placement_walk map].
  - rewrite Hi, Z.eqb_refl. reflexivity.
  - destruct (next_entry_index (pool i) =? -1) eqn:E; cmp_to_prop; [contradiction|].
    rewrite IH by (simpl in Hfuel; lia). reflexivity.
Qed.

Lemma fold_left_max_ge l : forall m, m <= fold_left Z.max l m.
Proof.
  induction l as [|x l IH]; intros m; simpl; [lia|].
  specialize (IH (Z.max m x)). lia.
Qed.

Lemma fold_left_max_upper l :
  forall m, Forall (fun x => x <= fold_left Z.max l m) l.
Proof.
  induction l as [|x l IH]; intros m; simpl; constructor.
  - pose proof (fold_left_max_ge l (Z.max m x)). lia.
  - apply IH.
Qed.

Lemma fold_left_max_attained l :
  forall m, fold_left Z.max l m = m \/ In (fold_left Z.max l m) l.
Proof.
  induction l as [|x l IH]; intros m; simpl; [now left|].
  destruct (IH (Z.max m x)) as [H|H]; [|now right; right].
  rewrite H. destruct (Z.max_spec m x) as [[_ ->]|[_ ->]]; auto.
Qed.

Lemma laid_out_entries p l :
  laid_out p l ->
  Permutation (map requirements_index (map (buffers_sorted_by_offset_ p) l))
              (indices (buffer_count_ p)).
Proof.
  intros H. pose proof (laid_placed H) as Hp.
  rewrite map_map.
  rewrite map_ext_in with (g := buffer_ids_sorted_by_size_ p).
  - rewrite (placed_perm Hp). apply (laid_ids H).
  - intros j Hj. apply (placed_ids Hp). now apply (placed_in _ Hp).
Qed.

(** [GetMaximumMemorySize] on a planner that satisfies the invariant. *)
Lemma GetMaximumMemorySize_spec fuel p :
  planner_ok p ->
  (Z.to_nat (buffer_count_ p) <= fuel)%nat ->
  exists p',
    CalculateOffsetsIfNeeded fuel p = Some p'
    /\ CalculateOffsetsIfNeeded fuel p' = Some p'
    /\ requirements_ p' = requirements_ p
    /\ buffer_count_ p' = buffer_count_ p
    /\ (buffer_count_ p = 0 -> GetMaximumMemorySize fuel p = Some (p', 0))
    /\ (0 < buffer_count_ p ->
        exists l,
          laid_out p' l
          /\ placement_list fuel p' = Some (map (buffers_sorted_by_offset_ p') l)
          /\ GetMaximumMemorySize fuel p
             = Some (p', fold_left Z.max
                           (map (range_end p')
                              (map (buffers_sorted_by_offset_ p') l)) 0)).
Proof.
  intros Hok Hfuel.
  destruct (CalculateOffsetsIfNeeded_spec Hok Hfuel)
    as (p' & Hrun & Hok' & Hreq & Hcnt & Hzero & Hpos).
  exists p'. split; [exact Hrun|].
  split; [|split; [exact Hreq|split; [exact Hcnt|split]]].
  - apply CalculateOffsetsIfNeeded_clean.
    destruct (Z.eq_dec (buffer_count_ p) 0) as [H0|H0]; [right; lia|].
    left. apply Hpos. destruct Hok as [? _]. lia.
  - intros H0. unfold GetMaximumMemorySize. rewrite Hrun, Hcnt, H0. reflexivity.
  - intros Hn. destruct (Hpos Hn) as (Hclean & l & Hlaid).
    pose proof (laid_placed Hlaid) as Hp.
    assert (Hlen : (List.length l <= fuel)%nat).
    { rewrite (placed_length Hp), Hcnt. exact Hfuel. }
    exists l. split; [exact Hlaid|]. split.
    + unfold placement_list. apply placement_walk_spec; [apply (placed_chain Hp)|exact Hlen].
    + unfold GetMaximumMemorySize. rewrite Hrun, Hcnt.
      destruct (buffer_count_ p =? 0) eqn:E; cmp_to_prop; [lia|].
      rewrite (max_size_loop_spec p' 0 (placed_chain Hp) Hlen).
      now rewrite map_map.
Qed.

Lemma reachable_AddBuffers p batch :
  reachable p -> reachable (AddBuffers p batch).
Proof.
  revert p. induction batch as [|r batch IH]; intros p Hp; simpl; [exact Hp|].
  apply IH. now apply reachable_AddBuffer.
Qed.

Lemma AddBuffers_count_mono batch :
  forall p, buffer_count_ p <= buffer_count_ (AddBuffers p batch).
Proof.
  induction batch as [|r batch IH]; intros p; simpl; [lia|].
  etransitivity; [|apply IH]. unfold AddBuffer.
  destruct (buffer_count_ p >=? kMaxBufferCount); cbn [fst snd]; planner_simpl; lia.
Qed.

(** The records of a batch that a planner accepts are the records it holds. *)
Lemma AddBuffers_requirements (P : BufferRequirements -> Prop) batch :
  Forall P batch ->
  forall p,
    0 <= buffer_count_ p ->
    (forall i, 0 <= i < buffer_count_ p -> P (requirements_ p i)) ->
    forall i, 0 <= i < buffer_count_ (AddBuffers p batch) ->
      P (requirements_ (AddBuffers p batch) i).
Proof.
  induction 1 as [|r batch Hr Hbatch IH]; intros p Hc Hp; simpl; [exact Hp|].
  unfold AddBuffer.
  destruct (buffer_count_ p >=? kMaxBufferCount) eqn:E; cmp_to_prop; cbn [fst snd].
  - now apply IH.
  - apply IH; planner_simpl; [lia|]. intros i Hi.
    destruct (Z.eq_dec i (buffer_count_ p)) as [->|Hne].
    + rewrite upd_same. now destruct r.
    + rewrite upd_other by exact Hne. apply Hp. lia.
Qed.

Lemma AddBuffers_nonempty storage batch :
  batch <> [] ->
  0 < buffer_count_ (AddBuffers (GreedyMemoryPlanner_new storage) batch).
Proof.
  destruct batch as [|r batch]; [congruence|]. intros _. simpl.
  eapply Z.lt_le_trans; [|apply AddBuffers_count_mono].
  reflexivity.
Qed.

(** ** The range of [int]

    The sums and differences of the layout pass and of
    [GetMaximumMemorySize] are taken in [Z].  Every such value is an offset of
    a list node, the end of the byte range of a list node, or the difference
    of two of these, and the offset and the buffer of a node never change
    once the node is in the list.  So when the sizes are not negative and
    add up to at most [INT_MAX], none of these values leaves the range of a
    32-bit [int], and the source computes what the model computes. *)

Lemma list_sum_Z_perm l l' : Permutation l l' -> list_sum_Z l = list_sum_Z l'.
Proof.
  unfold list_sum_Z. induction 1; cbn [fold_right]; lia.
Qed.

Lemma placed_total_all p l :
  laid_out p l -> placed_total p (buffer_count_ p) = total_size p.
Proof.
  intros H. unfold placed_total, total_size.
  rewrite <- (map_map (buffer_ids_sorted_by_size_ p) (fun i => size (requirements_ p i))).
  apply list_sum_Z_perm, Permutation_map, (laid_ids H).
Qed.

Lemma placement_fits_int fuel p :
  reachable p ->
  0 < buffer_count_ p ->
  (forall i, 0 <= i < buffer_count_ p -> 0 <= size (requirements_ p i)) ->
  total_size p <= INT_MAX ->
  (Z.to_nat (buffer_count_ p) <= fuel)%nat ->
  exists p' m entries,
    GetMaximumMemorySize fuel p = Some (p', m)
    /\ placement_list fuel p' = Some entries
    /\ Forall (fun e => 0 <= offset e /\ offset e <= range_end p e <= INT_MAX) entries
    /\ 0 <= m <= INT_MAX.
Proof.
  intros Hreach Hn Hsize Htotal Hfuel.
  destruct (GetMaximumMemorySize_spec (reachable_ok Hreach) Hfuel)
    as (p' & _ & _ & Hreq & Hcnt & _ & Hpos).
  destruct (Hpos Hn) as (l & Hlaid & Hlist & Hmax).
  pose proof (laid_placed Hlaid) as Hp.
  assert (Hsize' : forall i, 0 <= i < buffer_count_ p' -> 0 <= size (requirements_ p' i)).
  { intros i Hi. rewrite Hreq. apply Hsize. lia. }
  destruct (laid_ordered Hlaid Hsize') as [Hsorted Hbound].
  rewrite (placed_total_all Hlaid) in Hbound.
  assert (Htot : total_size p' = total_size p).
  { unfold total_size. now rewrite Hreq, Hcnt. }
  assert (Hentries : Forall (fun e => 0 <= offset e /\ offset e <= range_end p e <= INT_MAX)
                       (map (buffers_sorted_by_offset_ p') l)).
  { rewrite Forall_map, Forall_forall. intros j Hj.
    specialize (Hbound j Hj).
    assert (H0 : 0 <= offset (buffers_sorted_by_offset_ p' j)).
    { destruct (chain_head (placed_chain Hp)) as (l' & ->).
      unfold offsets_of in Hsorted. cbn [map] in Hsorted.
      inversion Hsorted as [|? ? _ Hge]; subst.
      rewrite (placed_head Hp) in Hge.
      destruct Hj as [<-|Hj]; [rewrite (placed_head Hp); lia|].
      rewrite Forall_forall in Hge. apply Hge. apply in_map_iff. eauto. }
    unfold range_end in *. rewrite Hreq in Hbound.
    apply (placed_in _ Hp) in Hj.
    pose proof (Hsize' _ (@ids_in_range _ _ (laid_ids Hlaid) j Hj)) as Hs.
    rewrite <- (placed_ids Hp) in Hs by exact Hj. rewrite Hreq in Hs. lia. }
  eexists p', _, _. split; [exact Hmax|]. split; [exact Hlist|].
  split; [exact Hentries|]. split; [apply fold_left_max_ge|].
  destruct (fold_left_max_attained
              (map (range_end p') (map (buffers_sorted_by_offset_ p') l)) 0) as [->|Hin].
  - unfold INT_MAX. lia.
  - apply in_map_iff in Hin as (e & <- & Hin).
    rewrite Forall_forall in Hentries. specialize (Hentries e Hin).
    unfold range_end in *. rewrite Hreq. lia.
Qed.

(** * The claims *)

(** C4.  [GetMaximumMemorySize] returns, on every planner a client can
    reach whose buffers have sizes that are not negative and add up to at
    most [INT_MAX]: 0 when no buffer has been added; otherwise, after
    bringing the layout up to date, the maximum of [offset + size] over the
    nodes of the placement list, which holds every added buffer exactly
    once.  The bound on the sizes is what keeps the sums of the source
    inside the range of [int]: every offset, every [offset + size] and the
    result lie between 0 and [INT_MAX]. *)
Theorem GetMaximumMemorySize_is_high_water_mark fuel p :
  reachable p ->
  (forall i, 0 <= i < buffer_count_ p -> 0 <= size (requirements_ p i)) ->
  total_size p <= INT_MAX ->
  (Z.to_nat (buffer_count_ p) <= fuel)%nat ->
  exists p' m,
    GetMaximumMemorySize fuel p = Some (p', m)
    /\ 0 <= m <= INT_MAX
    /\ (buffer_count_ p = 0 -> m = 0)
    /\ (0 < buffer_count_ p ->
        exists entries,
          need_to_calculate_offsets_ p' = false
          /\ placement_list fuel p' = Some entries
          /\ Permutation (map requirements_index entries) (indices (buffer_count_ p))
          /\ Forall (fun e =>
                       0 <= offset e
                       /\ offset e + size (requirements_ p (requirements_index e))
                          <= INT_MAX) entries
          /\ Forall (fun e => offset e + size (requirements_ p (requirements_index e)) <= m)
                entries
          /\ Exists (fun e => offset e + size (requirements_ p (requirements_index e)) = m)
                entries).
Proof.
  intros Hreach Hsize Htotal Hfuel.
  pose proof (reachable_ok Hreach) as Hok.
  destruct (GetMaximumMemorySize_spec Hok Hfuel)
    as (p' & Hrun & _ & Hreq & Hcnt & Hzero & Hpos).
  destruct (Z.eq_dec (buffer_count_ p) 0) as [H0|H0].
  - exists p', 0. split; [now apply Hzero|]. split; [unfold INT_MAX; lia|].
    split; [reflexivity | lia].
  - assert (Hn : 0 < buffer_count_ p) by (destruct Hok; lia).
    destruct (Hpos Hn) as (l & Hlaid & Hlist & Hmax).
    destruct (placement_fits_int Hreach Hn Hsize Htotal Hfuel)
      as (q & m' & entries' & Hq & Hlq & Hfit & Hm').
    rewrite Hmax in Hq. injection Hq as Hpq Hmm. subst q m'.
    rewrite Hlist in Hlq. injection Hlq as Hentries'. subst entries'.
    eexists p', _. split; [exact Hmax|]. split; [exact Hm'|].
    split; [lia|]. intros _.
    exists (map (buffers_sorted_by_offset_ p') l).
    pose proof (laid_placed Hlaid) as Hp.
    set (entries := map (buffers_sorted_by_offset_ p') l) in *.
    fold (range_end p). rewrite <- Hreq.
    split; [|split; [exact Hlist|split; [|split; [|split]]]].
    + destruct (CalculateOffsetsIfNeeded_spec Hok Hfuel) as (q & Hq & _ & _ & _ & _ & Hc).
      assert (q = p') by congruence. subst q. now apply Hc.
    + rewrite <- Hcnt. now apply laid_out_entries.
    + eapply Forall_impl; [|exact Hfit]. intros e [He0 He1].
      unfold range_end in *. rewrite Hreq. lia.
    + pose proof (fold_left_max_upper (map (range_end p') entries) 0) as Hup.
      rewrite Forall_map in Hup. exact Hup.
    + destruct (fold_left_max_attained (map (range_end p') entries) 0) as [Hm|Hm].
      * rewrite Hm. apply Exists_exists.
        destruct (chain_head (placed_chain Hp)) as (l' & ->).
        exists (buffers_sorted_by_offset_ p' 0). split; [now left|].
        pose proof (fold_left_max_upper (map (range_end p') entries) 0) as Hup.
        rewrite Hm in Hup. unfold entries in Hup. cbn [map] in Hup.
        inversion Hup as [|? ? Hhead _]; subst. fold (range_end p').
        assert (0 <= range_end p' (buffers_sorted_by_offset_ p' 0));
          [|unfold range_end in *; lia].
        unfold range_end. rewrite (placed_head Hp), (placed_ids Hp) by lia.
        rewrite Hreq. cbn [Z.add]. apply Hsize.
        rewrite <- Hcnt. apply (@ids_in_range _ _ (laid_ids Hlaid)). lia.
      * apply in_map_iff in Hm as (e & He & Hin).
        apply Exists_exists. exists e. split; [exact Hin|]. exact He.
Qed.

(** C9.  Once a buffer has been added, [GetMaximumMemorySize] returns at
    least the size of every added buffer, hence at least the largest size. *)
Theorem GetMaximumMemorySize_at_least_largest_size fuel p :
  reachable p ->
  0 < buffer_count_ p ->
  (Z.to_nat (buffer_count_ p) <= fuel)%nat ->
  exists p' m,
    GetMaximumMemorySize fuel p = Some (p', m)
    /\ forall i, 0 <= i < buffer_count_ p -> size (requirements_ p i) <= m.
Proof.
  intros Hreach Hn Hfuel.
  destruct (GetMaximumMemorySize_spec (reachable_ok Hreach) Hfuel)
    as (p' & _ & _ & Hreq & Hcnt & _ & Hpos).
  destruct (Hpos Hn) as (l & Hlaid & _ & Hmax).
  eexists p', _. split; [exact Hmax|]. intros i Hi.
  pose proof (laid_placed Hlaid) as Hp.
  destruct (chain_head (placed_chain Hp)) as (l' & ->).
  cbn [map].
  pose proof (fold_left_max_upper
                (range_end p' (buffers_sorted_by_offset_ p' 0)
                 :: map (range_end p') (map (buffers_sorted_by_offset_ p') l')) 0) as Hup.
  inversion Hup as [|? ? Hhead _]; subst.
  etransitivity; [|exact Hhead].
  unfold range_end. rewrite (placed_head Hp), (placed_ids Hp) by lia.
  cbn [Z.add]. rewrite <- Hreq. apply (laid_largest Hlaid). lia.
Qed.

(** C8.  On every planner a client can reach, two calls of
    [GetMaximumMemorySize] in succession return the same value, the second
    call leaves the whole planner as the first one left it, and on any
    planner whose plan is current a layout-forcing read changes nothing,
    so no recorded offset changes. *)
Theorem GetMaximumMemorySize_idempotent fuel p :
  reachable p ->
  (Z.to_nat (buffer_count_ p) <= fuel)%nat ->
  (exists p' m,
     GetMaximumMemorySize fuel p = Some (p', m)
     /\ GetMaximumMemorySize fuel p' = Some (p', m))
  /\ (forall q budget,
        need_to_calculate_offsets_ q = false ->
        CalculateOffsetsIfNeeded budget q = Some q
        /\ (forall q' m, GetMaximumMemorySize budget q = Some (q', m) -> q' = q)
        /\ (forall er q' er', PrintMemoryPlan budget q er = Some (q', er') -> q' = q)).
Proof.
  intros Hreach Hfuel. split.
  - destruct (GetMaximumMemorySize_spec (reachable_ok Hreach) Hfuel)
      as (p' & Hrun & Hagain & _ & Hcnt & Hzero & Hpos).
    assert (Hm : exists m, GetMaximumMemorySize fuel p = Some (p', m)).
    { destruct (Z.eq_dec (buffer_count_ p) 0) as [H0|H0]; [eauto|].
      destruct (reachable_ok Hreach) as [Hc _].
      destruct (Hpos ltac:(lia)) as (l & _ & _ & Hmax). eauto. }
    destruct Hm as (m & Hm). exists p', m. split; [exact Hm|].
    unfold GetMaximumMemorySize in *. rewrite Hrun in Hm. rewrite Hagain. exact Hm.
  - intros q budget Hclean.
    pose proof (CalculateOffsetsIfNeeded_clean budget q (or_introl Hclean)) as Hrun.
    split; [exact Hrun|]. split.
    + intros q' m Hm. apply GetMaximumMemorySize_state in Hm. congruence.
    + intros er q' er' Hr. apply PrintMemoryPlan_state in Hr. congruence.
Qed.

(** C7, as amended.  For every non-empty batch of buffers with [size > 0]
    and [first <= last] added to a fresh planner, the sizes of the accepted
    buffers adding up to at most [INT_MAX], a layout pass returns, the walk
    of the placement list from its head meets one node per accepted buffer,
    and the offsets met never decrease (equal offsets may follow one
    another).  The bound on the sizes keeps the sums of the source inside
    the range of [int]: every offset and every [offset + size] lies between
    0 and [INT_MAX]. *)
Theorem placement_list_offsets_nondecreasing storage batch fuel :
  batch <> [] ->
  Forall (fun r => 0 < size r /\ first_time_used r <= last_time_used r) batch ->
  total_size (AddBuffers (GreedyMemoryPlanner_new storage) batch) <= INT_MAX ->
  (Z.to_nat (buffer_count_ (AddBuffers (GreedyMemoryPlanner_new storage) batch))
   <= fuel)%nat ->
  exists p' entries,
    CalculateOffsetsIfNeeded fuel (AddBuffers (GreedyMemoryPlanner_new storage) batch)
    = Some p'
    /\ placement_list fuel p' = Some entries
    /\ List.length entries = Z.to_nat (buffer_count_ p')
    /\ Forall (fun e =>
                 0 <= offset e
                 /\ offset e + size (requirements_ p' (requirements_index e)) <= INT_MAX)
         entries
    /\ Sorted Z.le (map offset entries).
Proof.
  intros Hne Hwf Htotal Hfuel.
  set (p := AddBuffers (GreedyMemoryPlanner_new storage) batch) in *.
  assert (Hreach : reachable p) by (apply reachable_AddBuffers, reachable_new).
  assert (Hn : 0 < buffer_count_ p) by now apply AddBuffers_nonempty.
  assert (Hsize : forall i, 0 <= i < buffer_count_ p -> 0 <= size (requirements_ p i)).
  { intros i Hi.
    pose proof (AddBuffers_requirements
                  (P := fun r => 0 < size r /\ first_time_used r <= last_time_used r)
                  Hwf (GreedyMemoryPlanner_new storage)) as H.
    cbn [GreedyMemoryPlanner_new buffer_count_ set_need_to_calculate_offsets
         set_buffer_count] in H.
    specialize (H ltac:(lia) ltac:(intros; lia) i Hi). fold p in H. lia. }
  destruct (GetMaximumMemorySize_spec (reachable_ok Hreach) Hfuel)
    as (p' & Hrun & _ & Hreq & Hcnt & _ & Hpos).
  destruct (Hpos Hn) as (l & Hlaid & Hlist & Hmax).
  destruct (placement_fits_int Hreach Hn Hsize Htotal Hfuel)
    as (q & m' & entries' & Hq & Hlq & Hfit & _).
  rewrite Hmax in Hq. injection Hq as Hpq _. subst q.
  rewrite Hlist in Hlq. injection Hlq as Hentries'. subst entries'.
  exists p', (map (buffers_sorted_by_offset_ p') l).
  split; [exact Hrun|]. split; [exact Hlist|]. split; [|split].
  - rewrite length_map. apply (placed_length (laid_placed Hlaid)).
  - eapply Forall_impl; [|exact Hfit]. intros e [He0 He1].
    unfold range_end in *. rewrite Hreq. lia.
  - apply StronglySorted_Sorted. rewrite map_map.
    refine (proj1 (laid_ordered Hlaid _)).
    intros i Hi. rewrite Hreq. apply Hsize. lia.
Qed.

(** C5.  On every planner a client can reach, [AddBuffer] fails exactly when
    [buffer_count_] equals the capacity 1024: it then returns [false],
    reports the capacity limit and returns the planner as it was; below the
    capacity it returns [true], reports nothing, stores the record at index
    [buffer_count_], increments the count and sets the dirty flag, leaving
    the other records and the planned offsets alone. *)
Theorem AddBuffer_fails_exactly_at_capacity p er size' first' last' :
  reachable p ->
  0 <= buffer_count_ p <= kMaxBufferCount
  /\ (fst (fst (AddBuffer p er size' first' last')) = false
      <-> buffer_count_ p = kMaxBufferCount)
  /\ (buffer_count_ p = kMaxBufferCount ->
      AddBuffer p er size' first' last'
      = (false, p, er ++ [mkReport "Too many buffers (max is %d)" [ArgInt 1024]]))
  /\ (buffer_count_ p < kMaxBufferCount ->
      exists p',
        AddBuffer p er size' first' last' = (true, p', er)
        /\ requirements_ p' (buffer_count_ p)
           = mkBufferRequirements size' first' last'
        /\ (forall i, i <> buffer_count_ p -> requirements_ p' i = requirements_ p i)
        /\ buffer_count_ p' = buffer_count_ p + 1
        /\ need_to_calculate_offsets_ p' = true
        /\ buffer_offsets_ p' = buffer_offsets_ p
        /\ buffers_sorted_by_offset_ p' = buffers_sorted_by_offset_ p).
Proof.
  intros Hreach. destruct (reachable_ok Hreach) as [Hc _].
  split; [exact Hc|]. unfold AddBuffer.
  destruct (buffer_count_ p >=? kMaxBufferCount) eqn:E; cmp_to_prop; cbn [fst snd].
  - split; [split; [lia | reflexivity]|]. split; [reflexivity | lia].
  - split; [split; [discriminate | lia]|]. split; [lia|]. intros _.
    eexists. split; [reflexivity|]. planner_simpl.
    split; [apply upd_same|]. split; [intros i Hi; now apply upd_other|].
    repeat split.
Qed.

(** C6.  [GetOffsetForBuffer] fails exactly when the index is outside
    [0, buffer_count_): it then returns [false], reports the index and the
    count, and leaves the output location as it was; for an index inside the
    range it returns [true], reports nothing and writes
    [buffer_offsets_[buffer_index]] to the output location. *)
Theorem GetOffsetForBuffer_fails_exactly_out_of_range p er buffer_index out :
  (fst (fst (GetOffsetForBuffer p er buffer_index out)) = false
   <-> ~ 0 <= buffer_index < buffer_count_ p)
  /\ (~ 0 <= buffer_index < buffer_count_ p ->
      GetOffsetForBuffer p er buffer_index out
      = (false, out,
         er ++ [mkReport "buffer index %d is outside range 0 to %d"
                  [ArgInt buffer_index; ArgInt (buffer_count_ p)]]))
  /\ (0 <= buffer_index < buffer_count_ p ->
      GetOffsetForBuffer p er buffer_index out
      = (true, buffer_offsets_ p buffer_index, er)).
Proof.
  unfold GetOffsetForBuffer.
  destruct (buffer_index <? 0) eqn:E1;
    destruct (buffer_index >=? buffer_count_ p) eqn:E2;
    cmp_to_prop; cbn [orb fst snd];
    (split; [split; try discriminate; try reflexivity; lia|]);
    (split; [try reflexivity; lia|]); try reflexivity; lia.
Qed.

(** C10.  With no buffer added, [PrintMemoryPlan] reports exactly one
    message, the line of 80 ['.'] characters of time step 0, and leaves the
    planner as it was. *)
Theorem PrintMemoryPlan_with_no_buffers fuel p er :
  buffer_count_ p = 0 ->
  PrintMemoryPlan fuel p er = Some (p, er ++ [mkReport "%s" [ArgStr eighty_dots]])
  /\ String.length eighty_dots = 80%nat
  /\ forall i, (i < 80)%nat -> String.get i eighty_dots = Some "."%char.
Proof.
  intros H0. split; [|split].
  - unfold PrintMemoryPlan.
    rewrite CalculateOffsetsIfNeeded_clean by auto. rewrite H0. reflexivity.
  - reflexivity.
  - intros i Hi. do 80 (destruct i as [|i]; [reflexivity|]). lia.
Qed.

(** ** Where the code departs from the claims *)

(** C7, as stated, fails: two buffers that are never live together are both
    placed at offset 0, so the walk of the placement list meets offset 0
    twice. *)
Lemma placement_list_repeats_an_offset :
  let batch := [mkBufferRequirements 50 0 1; mkBufferRequirements 80 2 3] in
  Forall (fun r => 0 < size r /\ first_time_used r <= last_time_used r) batch
  /\ exists p' entries,
       CalculateOffsetsIfNeeded 2 (AddBuffers (GreedyMemoryPlanner_new zero_storage) batch)
       = Some p'
       /\ placement_list 2 p' = Some entries
       /\ map offset entries = [0; 0]
       /\ ~ Sorted Z.lt (map offset entries)
       /\ ~ NoDup (map offset entries).
Proof.
  cbv zeta. split.
  - repeat (constructor; cbn [size first_time_used last_time_used]; try lia).
  - eexists _, _. split; [vm_compute; reflexivity|].
    split; [vm_compute; reflexivity|]. cbn [map offset].
    split; [reflexivity|]. split.
    + intros H. inversion H as [|? ? _ Hhd]; subst.
      inversion Hhd as [|? ? Hlt]; subst. lia.
    + intros H. inversion H as [|? ? Hin _]; subst. apply Hin. now left.
Qed.

(** C1 fails on the code.  Whatever the storage held, after adding
    [overlap_batch] and a layout pass buffer 1 (100 bytes, steps 0..1) has
    offset 0 and buffer 3 (5 bytes, steps 1..2) has offset 10: both are live
    at step 1, and bytes 10..14 belong to both. *)
Theorem layout_overlaps_live_buffers storage :
  Forall (fun r => 0 < size r /\ first_time_used r <= last_time_used r) overlap_batch
  /\ exists p' m,
       GetMaximumMemorySize 4
         (AddBuffers (GreedyMemoryPlanner_new storage) overlap_batch) = Some (p', m)
       /\ GetOffsetForBuffer p' [] 1 (-1) = (true, 0, [])
       /\ GetOffsetForBuffer p' [] 3 (-1) = (true, 10, [])
       /\ placement_list 4 p'
          = Some [mkListEntry 0 0 1; mkListEntry 0 1 2; mkListEntry 0 2 3;
                  mkListEntry 10 3 (-1)]
       /\ overlap_in_time (requirements_ p' 1) (requirements_ p' 3) = true
       /\ ranges_disjoint 0 (size (requirements_ p' 1)) 10 (size (requirements_ p' 3))
          = false.
Proof.
  split;
    [repeat (constructor; cbn [size first_time_used last_time_used]; try lia)|].
  eexists _, _. split; [vm_compute; reflexivity|].
  repeat split.
Qed.

(** The diagram of [PrintMemoryPlan] marks a column that two live buffers
    share with ['!']: on this layout the line of time step 1 starts with it. *)
Lemma diagram_marks_the_overlap :
  exists p' er,
    PrintMemoryPlan 4 (AddBuffers (GreedyMemoryPlanner_new zero_storage) overlap_batch) []
    = Some (p', er)
    /\ nth_error er 1
       = Some (mkReport "%s"
                 [ArgStr ("!1111111" ++ "........................................................................")]).
Proof.
  eexists _, _. split; [vm_compute; reflexivity|]. reflexivity.
Qed.

(** C2 fails on the code.  After the single [AddBuffer(100, 0, 5)] on a
    fresh planner, [GetOffsetForBuffer(0)] succeeds but yields what the
    storage held in [buffer_offsets_[0]], before a layout pass and after one:
    the layout pass puts the buffer at offset 0 of the placement list and
    never stores that offset in [buffer_offsets_].  In storage that held 7
    the answer is 7.  [GetMaximumMemorySize] does return 100. *)
Theorem single_buffer_offset_is_not_recorded storage out :
  let p := AddBuffers (GreedyMemoryPlanner_new storage) [mkBufferRequirements 100 0 5] in
  GetOffsetForBuffer p [] 0 out = (true, buffer_offsets_ storage 0, [])
  /\ (exists p',
        GetMaximumMemorySize 1 p = Some (p', 100)
        /\ placement_list 1 p' = Some [mkListEntry 0 0 (-1)]
        /\ GetOffsetForBuffer p' [] 0 out = (true, buffer_offsets_ storage 0, []))
  /\ GetOffsetForBuffer
       (AddBuffers (GreedyMemoryPlanner_new used_storage) [mkBufferRequirements 100 0 5])
       [] 0 out = (true, 7, []).
Proof.
  cbv zeta. split; [reflexivity|]. split; [|reflexivity].
  eexists. split; [vm_compute; reflexivity|]. split; reflexivity.
Qed.

(** What a layout pass does record: the head of the placement list is at
    offset 0, and for every other node the offset of the node is the content
    of [buffer_offsets_] at the buffer of the node.  Only the buffer of the
    head, the first of the size order, is left out. *)
Lemma layout_records_all_but_the_head fuel p :
  reachable p ->
  0 < buffer_count_ p ->
  (Z.to_nat (buffer_count_ p) <= fuel)%nat ->
  exists p' m head rest,
    GetMaximumMemorySize fuel p = Some (p', m)
    /\ placement_list fuel p' = Some (head :: rest)
    /\ offset head = 0
    /\ Forall (fun e => buffer_offsets_ p' (requirements_index e) = offset e) rest.
Proof.
  intros Hreach Hn Hfuel.
  destruct (GetMaximumMemorySize_spec (reachable_ok Hreach) Hfuel)
    as (p' & _ & _ & Hreq & Hcnt & _ & Hpos).
  destruct (Hpos Hn) as (l & Hlaid & Hlist & Hmax).
  pose proof (laid_placed Hlaid) as Hp.
  destruct (chain_head (placed_chain Hp)) as (l' & ->).
  cbn [map] in Hlist.
  eexists p', _, _, _. split; [exact Hmax|]. split; [exact Hlist|].
  split; [apply (placed_head Hp)|].
  assert (Hnd : NoDup (0 :: l')).
  { eapply Permutation_NoDup; [symmetry; apply (placed_perm Hp) | apply NoDup_indices]. }
  inversion Hnd as [|? ? Hnot _]; subst.
  rewrite Forall_map, Forall_forall. intros j Hj.
  assert (Hrange : 0 <= j < buffer_count_ p') by (apply (placed_in _ Hp); now right).
  assert (j <> 0) by (intros ->; contradiction).
  rewrite (placed_ids Hp) by exact Hrange. apply (placed_recorded Hp). lia.
Qed.

(** C3 fails on the code.  [GetOffsetForBuffer] never runs the layout.  With
    two buffers added and no layout yet, the planner is dirty and
    [GetOffsetForBuffer(1)] yields what the storage held, where a layout
    gives 100.  After a layout and a third, larger buffer, the planner is
    dirty again and [GetOffsetForBuffer(1)] yields the stale 100, where a
    fresh layout gives 300. *)
Theorem GetOffsetForBuffer_reads_without_layout storage out :
  let p := AddBuffers (GreedyMemoryPlanner_new storage)
             [mkBufferRequirements 100 0 9; mkBufferRequirements 40 0 9] in
  need_to_calculate_offsets_ p = true
  /\ GetOffsetForBuffer p [] 1 out = (true, buffer_offsets_ storage 1, [])
  /\ exists p' m,
       GetMaximumMemorySize 2 p = Some (p', m)
       /\ GetOffsetForBuffer p' [] 1 out = (true, 100, [])
       /\ let q := AddBuffers p' [mkBufferRequirements 200 0 9] in
          need_to_calculate_offsets_ q = true
          /\ GetOffsetForBuffer q [] 1 out = (true, 100, [])
          /\ exists q' m',
               GetMaximumMemorySize 3 q = Some (q', m')
               /\ GetOffsetForBuffer q' [] 1 out = (true, 300, []).
Proof.
  cbv zeta. split; [reflexivity|]. split; [reflexivity|].
  eexists _, _. split; [vm_compute; reflexivity|].
  split; [reflexivity|]. split; [reflexivity|]. split; [reflexivity|].
  eexists _, _. split; [vm_compute; reflexivity|]. reflexivity.
Qed.

(** ** The theorems at concrete planners *)

Lemma reachable_two_buffers : reachable two_buffers.
Proof. apply reachable_AddBuffers, reachable_new. Qed.

Lemma two_buffers_sizes :
  forall i, 0 <= i < buffer_count_ two_buffers ->
    0 <= size (requirements_ two_buffers i).
Proof.
  intros i Hi. change (buffer_count_ two_buffers) with 2 in Hi.
  assert (H : i = 0 \/ i = 1) by lia.
  destruct H as [-> | ->]; vm_compute; discriminate.
Qed.

Lemma GetMaximumMemorySize_is_high_water_mark_witness :
  reachable two_buffers
  /\ (forall i, 0 <= i < buffer_count_ two_buffers ->
        0 <= size (requirements_ two_buffers i))
  /\ total_size two_buffers <= INT_MAX
  /\ (Z.to_nat (buffer_count_ two_buffers) <= 2)%nat
  /\ exists p' m,
       GetMaximumMemorySize 2 two_buffers = Some (p', m)
       /\ 0 <= m <= INT_MAX
       /\ (buffer_count_ two_buffers = 0 -> m = 0)
       /\ (0 < buffer_count_ two_buffers ->
           exists entries,
             need_to_calculate_offsets_ p' = false
             /\ placement_list 2 p' = Some entries
             /\ Permutation (map requirements_index entries)
                  (indices (buffer_count_ two_buffers))
             /\ Forall (fun e =>
                          0 <= offset e
                          /\ offset e
                             + size (requirements_ two_buffers (requirements_index e))
                             <= INT_MAX) entries
             /\ Forall (fun e => offset e
                                 + size (requirements_ two_buffers (requirements_index e))
                                 <= m) entries
             /\ Exists (fun e => offset e
                                 + size (requirements_ two_buffers (requirements_index e))
                                 = m) entries).
Proof.
  assert (Htotal : total_size two_buffers <= INT_MAX) by (vm_compute; discriminate).
  assert (Hfuel : (Z.to_nat (buffer_count_ two_buffers) <= 2)%nat) by (vm_compute; lia).
  split; [exact reachable_two_buffers|]. split; [exact two_buffers_sizes|].
  split; [exact Htotal|]. split; [exact Hfuel|].
  exact (GetMaximumMemorySize_is_high_water_mark
           reachable_two_buffers two_buffers_sizes Htotal Hfuel).
Defined.

Lemma GetMaximumMemorySize_at_least_largest_size_witness :
  reachable two_buffers
  /\ 0 < buffer_count_ two_buffers
  /\ (Z.to_nat (buffer_count_ two_buffers) <= 2)%nat
  /\ exists p' m,
       GetMaximumMemorySize 2 two_buffers = Some (p', m)
       /\ forall i, 0 <= i < buffer_count_ two_buffers ->
            size (requirements_ two_buffers i) <= m.
Proof.
  assert (Hn : 0 < buffer_count_ two_buffers) by reflexivity.
  assert (Hfuel : (Z.to_nat (buffer_count_ two_buffers) <= 2)%nat) by (vm_compute; lia).
  split; [exact reachable_two_buffers|]. split; [exact Hn|]. split; [exact Hfuel|].
  exact (GetMaximumMemorySize_at_least_largest_size reachable_two_buffers Hn Hfuel).
Defined.

Lemma GetMaximumMemorySize_idempotent_witness :
  reachable two_buffers
  /\ (Z.to_nat (buffer_count_ two_buffers) <= 2)%nat
  /\ exists p' m,
       GetMaximumMemorySize 2 two_buffers = Some (p', m)
       /\ GetMaximumMemorySize 2 p' = Some (p', m).
Proof.
  assert (Hfuel : (Z.to_nat (buffer_count_ two_buffers) <= 2)%nat) by (vm_compute; lia).
  split; [exact reachable_two_buffers|]. split; [exact Hfuel|].
  exact (proj1 (GetMaximumMemorySize_idempotent reachable_two_buffers Hfuel)).
Defined.

Lemma placement_list_offsets_nondecreasing_witness :
  let batch := [mkBufferRequirements 50 0 1; mkBufferRequirements 80 2 3] in
  batch <> []
  /\ Forall (fun r => 0 < size r /\ first_time_used r <= last_time_used r) batch
  /\ total_size (AddBuffers (GreedyMemoryPlanner_new zero_storage) batch) <= INT_MAX
  /\ exists p' entries,
       CalculateOffsetsIfNeeded 2 (AddBuffers (GreedyMemoryPlanner_new zero_storage) batch)
       = Some p'
       /\ placement_list 2 p' = Some entries
       /\ List.length entries = Z.to_nat (buffer_count_ p')
       /\ Forall (fun e =>
                    0 <= offset e
                    /\ offset e + size (requirements_ p' (requirements_index e))
                       <= INT_MAX) entries
       /\ Sorted Z.le (map offset entries).
Proof.
  cbv zeta.
  assert (Hne : [mkBufferRequirements 50 0 1; mkBufferRequirements 80 2 3] <> [])
    by discriminate.
  assert (Hwf : Forall (fun r => 0 < size r /\ first_time_used r <= last_time_used r)
                  [mkBufferRequirements 50 0 1; mkBufferRequirements 80 2 3]).
  { repeat (constructor; cbn [size first_time_used last_time_used]; try lia). }
  assert (Htotal : total_size
                     (AddBuffers (GreedyMemoryPlanner_new zero_storage)
                        [mkBufferRequirements 50 0 1; mkBufferRequirements 80 2 3])
                   <= INT_MAX) by (vm_compute; discriminate).
  split; [exact Hne|]. split; [exact Hwf|]. split; [exact Htotal|].
  apply (placement_list_offsets_nondecreasing zero_storage Hne Hwf Htotal).
  vm_compute. lia.
Defined.

Lemma AddBuffer_fails_exactly_at_capacity_witness :
  reachable (GreedyMemoryPlanner_new zero_storage)
  /\ exists p',
       AddBuffer (GreedyMemoryPlanner_new zero_storage) [] 100 0 5 = (true, p', [])
       /\ buffer_count_ p' = 1.
Proof.
  split; [apply reachable_new|].
  destruct (AddBuffer_fails_exactly_at_capacity [] 100 0 5
              (reachable_new zero_storage)) as (_ & _ & _ & Hbelow).
  destruct (Hbelow ltac:(reflexivity)) as (p' & Hadd & _ & _ & Hcnt & _).
  exists p'. split; [exact Hadd | exact Hcnt].
Defined.

Lemma PrintMemoryPlan_with_no_buffers_witness :
  buffer_count_ (GreedyMemoryPlanner_new zero_storage) = 0
  /\ PrintMemoryPlan 0 (GreedyMemoryPlanner_new zero_storage) []
     = Some (GreedyMemoryPlanner_new zero_storage, [mkReport "%s" [ArgStr eighty_dots]]).
Proof.
  split; [reflexivity|].
  exact (proj1 (@PrintMemoryPlan_with_no_buffers 0
                  (GreedyMemoryPlanner_new zero_storage) [] eq_refl)).
Defined.

(** * Further properties of the code *)

(** ** Well-formed lists *)

Lemma chain_functional pool :
  forall i l l', chain pool i l -> chain pool i l' -> l = l'.
Proof.
  intros i l l' H. revert l'.
  induction H as [i Hi | i l Hi Hc IH]; intros l' H';
    inversion H' as [? Hi' | ? l0 Hi' Hc']; subst; try congruence.
  f_equal. now apply IH.
Qed.

Lemma chain_suffix pool :
  forall i l j, chain pool i l -> In j l ->
    exists before after, l = before ++ j :: after /\ chain pool j (j :: after).
Proof.
  intros i l j H. induction H as [i Hi | i l Hi Hc IH]; intros Hin.
  - destruct Hin as [<-|[]]. exists [], []. split; [reflexivity | now apply chain_last].
  - destruct Hin as [<-|Hin].
    + exists [], l. split; [reflexivity | now apply chain_step].
    + destruct (IH Hin) as (before & after & -> & Hch).
      exists (i :: before), after. split; [reflexivity | exact Hch].
Qed.

(** A list that ends cannot pass through a cell twice. *)
Lemma chain_NoDup pool i l : chain pool i l -> NoDup l.
Proof.
  induction 1 as [i Hi | i l Hi Hc IH].
  - constructor; [intros [] | constructor].
  - constructor; [|exact IH]. intros Hin.
    destruct (@chain_suffix _ _ _ _ Hc Hin) as (before & after & Hl & Hch).
    assert (Heq : i :: after = i :: l).
    { eapply chain_functional; [exact Hch | now apply chain_step]. }
    injection Heq as Heq. rewrite Heq in Hl.
    apply (f_equal (@List.length Z)) in Hl. rewrite length_app in Hl. simpl in Hl. lia.
Qed.

(** ** [NextValidEntry] *)

Lemma NextValidEntry_loop_first p first' last' :
  forall l c fuel,
    chain (buffers_sorted_by_offset_ p) c l ->
    (List.length l <= fuel)%nat ->
    (NextValidEntry_loop fuel p c first' last' = Some None
     /\ Forall (fun j => DoesEntryOverlapInTime p j first' last' = false) l)
    \/ (exists skipped j after,
          NextValidEntry_loop fuel p c first' last' = Some (Some j)
          /\ l = skipped ++ j :: after
          /\ Forall (fun i => DoesEntryOverlapInTime p i first' last' = false) skipped
          /\ DoesEntryOverlapInTime p j first' last' = true
          /\ chain (buffers_sorted_by_offset_ p) j (j :: after)).
Proof.
  intros l c fuel Hc. revert fuel.
  induction Hc as [i Hi | i l Hi Hc IH]; intros fuel Hfuel;
    (destruct fuel as [|fuel]; [simpl in Hfuel; lia|]); cbn [NextValidEntry_loop];
    destruct (DoesEntryOverlapInTime p i first' last') eqn:Hov.
  - right. exists [], i, []. repeat split; auto. now apply chain_last.
  - left. rewrite Hi, Z.eqb_refl. split; [reflexivity|]. now repeat constructor.
  - right. destruct (chain_head Hc) as (l' & Hl'). exists [], i, l.
    repeat split; auto. now apply chain_step.
  - destruct (next_entry_index (buffers_sorted_by_offset_ p i) =? -1) eqn:E;
      cmp_to_prop; [contradiction|].
    destruct (IH fuel) as [[Hr Hnone] | (skipped & j & after & Hr & Hl & Hsk & Hj & Hch)];
      [simpl in Hfuel; lia | |].
    + left. split; [exact Hr|]. now constructor.
    + right. exists (i :: skipped), j, after. rewrite Hl.
      repeat split; auto.
Qed.

(** X1.  On a well-formed list [NextValidEntry] returns the first node after
    [start] whose buffer is live in the given time range, skipping the nodes
    that are not; it returns null exactly when no node after [start] is, and
    it never returns [start] itself. *)
Theorem NextValidEntry_first_live_successor p first' last' start rest fuel :
  chain (buffers_sorted_by_offset_ p) start (start :: rest) ->
  (List.length rest <= fuel)%nat ->
  (NextValidEntry fuel p (Some start) first' last' = Some None
   /\ Forall (fun j => DoesEntryOverlapInTime p j first' last' = false) rest)
  \/ (exists skipped j after,
        NextValidEntry fuel p (Some start) first' last' = Some (Some j)
        /\ rest = skipped ++ j :: after
        /\ Forall (fun i => DoesEntryOverlapInTime p i first' last' = false) skipped
        /\ DoesEntryOverlapInTime p j first' last' = true
        /\ j <> start).
Proof.
  intros Hc Hfuel. pose proof (chain_NoDup Hc) as Hnd. unfold NextValidEntry.
  inversion Hc as [i Hi | i l Hi Hc']; subst.
  - left. rewrite Hi, Z.eqb_refl. split; [reflexivity | constructor].
  - destruct (next_entry_index (buffers_sorted_by_offset_ p start) =? -1) eqn:E;
      cmp_to_prop; [contradiction|].
    destruct (NextValidEntry_loop_first p first' last' Hc' (fuel := fuel) Hfuel)
      as [[Hr Hnone] | (skipped & j & after & Hr & Hl & Hsk & Hj & _)].
    + left. now split.
    + right. exists skipped, j, after. repeat split; auto.
      intros ->. apply NoDup_cons_iff in Hnd as [Hnot _].
      apply Hnot. rewrite Hl. apply in_or_app. right. now left.
Qed.

(** ** The placement loop computes [place] *)

Lemma fst_node_of e : fst (node_of e) = offset e.
Proof. reflexivity. Qed.

Lemma snd_node_of e : snd (node_of e) = requirements_index e.
Proof. reflexivity. Qed.

Lemma gap_after_skip reqs w first' last' c skipped rest :
  Forall (fun n => live_in reqs first' last' n = false) skipped ->
  gap_after reqs w first' last' c (skipped ++ rest)
  = gap_after reqs w first' last' c rest.
Proof.
  induction 1 as [|n skipped Hn _ IH]; simpl; [reflexivity|]. now rewrite Hn.
Qed.

Lemma chosen_offset_skip reqs w first' last' skipped rest :
  Forall (fun n => live_in reqs first' last' n = false) skipped ->
  chosen_offset reqs w first' last' (skipped ++ rest)
  = chosen_offset reqs w first' last' rest.
Proof.
  induction 1 as [|n skipped Hn _ IH]; simpl; [reflexivity|]. now rewrite Hn.
Qed.

Lemma insert_by_offset_split off id a b :
  Forall (fun n => fst n <= off) a ->
  (forall y b', b = y :: b' -> off < fst y) ->
  insert_by_offset (off, id) (a ++ b) = a ++ (off, id) :: b.
Proof.
  intros Ha Hb. induction Ha as [|n a Hn _ IH]; cbn [app insert_by_offset fst].
  - destruct b as [|y b']; [reflexivity|]. specialize (Hb y b' eq_refl).
    cbn [insert_by_offset fst].
    destruct (fst y >? off) eqn:E; cmp_to_prop; [reflexivity | lia].
  - destruct (fst n >? off) eqn:E; cmp_to_prop; [lia|]. now rewrite IH.
Qed.

Lemma not_live_nodes p first' last' l :
  Forall (fun j => DoesEntryOverlapInTime p j first' last' = false) l ->
  Forall (fun n => live_in (requirements_ p) first' last' n = false) (nodes p l).
Proof.
  intros H. unfold nodes. rewrite Forall_map. exact H.
Qed.

Lemma NextValidEntry_first p first' last' start rest fuel :
  chain (buffers_sorted_by_offset_ p) start (start :: rest) ->
  (List.length rest <= fuel)%nat ->
  (NextValidEntry fuel p (Some start) first' last' = Some None
   /\ Forall (fun j => DoesEntryOverlapInTime p j first' last' = false) rest)
  \/ (exists skipped j after,
        NextValidEntry fuel p (Some start) first' last' = Some (Some j)
        /\ rest = skipped ++ j :: after
        /\ Forall (fun i => DoesEntryOverlapInTime p i first' last' = false) skipped
        /\ DoesEntryOverlapInTime p j first' last' = true
        /\ chain (buffers_sorted_by_offset_ p) j (j :: after)).
Proof.
  intros Hc Hfuel. unfold NextValidEntry.
  inversion Hc as [i Hi | i l Hi Hc']; subst.
  - left. rewrite Hi, Z.eqb_refl. split; [reflexivity | constructor].
  - destruct (next_entry_index (buffers_sorted_by_offset_ p start) =? -1) eqn:E;
      cmp_to_prop; [contradiction|].
    exact (NextValidEntry_loop_first p first' last' Hc' (fuel := fuel) Hfuel).
Qed.

Lemma gap_loop_exact p w first' last' nfuel :
  forall n rest c fuel,
    (List.length rest <= n)%nat ->
    chain (buffers_sorted_by_offset_ p) c (c :: rest) ->
    (List.length rest < fuel)%nat ->
    (List.length rest <= nfuel)%nat ->
    exists j,
      gap_loop fuel nfuel p (Some c) w first' last' = Some (Some j)
      /\ In j (c :: rest)
      /\ node_of (buffers_sorted_by_offset_ p j)
         = gap_after (requirements_ p) w first' last'
             (node_of (buffers_sorted_by_offset_ p c)) (nodes p rest).
Proof.
  induction n as [|n IH]; intros rest c fuel Hn Hc Hfuel Hnfuel;
    (destruct fuel as [|fuel]; [lia|]); cbn [gap_loop];
    destruct (NextValidEntry_first p first' last' Hc Hnfuel)
      as [[Hr Hnone] | (skipped & j & after & Hr & Hl & Hsk & Hj & Hch)];
    rewrite Hr.
  - exists c. split; [reflexivity|]. split; [now left|].
    rewrite <- (app_nil_r (nodes p rest)).
    rewrite gap_after_skip by now apply not_live_nodes. reflexivity.
  - subst rest. rewrite length_app in Hn. simpl in Hn. lia.
  - exists c. split; [reflexivity|]. split; [now left|].
    rewrite <- (app_nil_r (nodes p rest)).
    rewrite gap_after_skip by now apply not_live_nodes. reflexivity.
  - subst rest. rewrite length_app in Hn, Hfuel, Hnfuel. simpl in Hn, Hfuel, Hnfuel.
    unfold nodes. rewrite map_app. fold (nodes p skipped).
    rewrite gap_after_skip by now apply not_live_nodes.
    cbn [map gap_after].
    change (live_in (requirements_ p) first' last' (node_of (buffers_sorted_by_offset_ p j)))
      with (DoesEntryOverlapInTime p j first' last').
    rewrite Hj. unfold node_end. rewrite !fst_node_of, !snd_node_of.
    match goal with |- context [if ?b then _ else _] => destruct b end.
    + exists c. split; [reflexivity|]. split; [now left | reflexivity].
    + destruct (IH after j fuel) as (j' & Hj' & Hin & Hnode); try lia; [exact Hch|].
      exists j'. split; [exact Hj'|]. split; [|exact Hnode].
      right. apply in_or_app. right. exact Hin.
Qed.

Lemma candidate_exact fuel p k l w first' last' :
  placed p k l -> 1 <= k -> (Z.to_nat k <= fuel)%nat ->
  exists c0 c,
    (if DoesEntryOverlapInTime p 0 first' last' then Some (Some 0)
     else NextValidEntry fuel p (Some 0) first' last') = Some c0
    /\ gap_loop fuel fuel p c0 w first' last' = Some c
    /\ match c with
       | Some j =>
         offset (buffers_sorted_by_offset_ p j)
         + size (requirements_ p (requirements_index (buffers_sorted_by_offset_ p j)))
       | None => 0
       end
       = chosen_offset (requirements_ p) w first' last' (nodes p l).
Proof.
  intros Hp Hk Hfuel.
  pose proof (placed_length Hp) as Hlen.
  pose proof (placed_chain Hp) as Hc.
  destruct (chain_head Hc) as (rest & ->). simpl in Hlen.
  assert (Hgap : forall c after,
            chain (buffers_sorted_by_offset_ p) c (c :: after) ->
            (List.length after <= List.length rest)%nat ->
            exists j,
              gap_loop fuel fuel p (Some c) w first' last' = Some (Some j)
              /\ offset (buffers_sorted_by_offset_ p j)
                 + size (requirements_ p
                           (requirements_index (buffers_sorted_by_offset_ p j)))
                 = node_end (requirements_ p)
                     (gap_after (requirements_ p) w first' last'
                        (node_of (buffers_sorted_by_offset_ p c)) (nodes p after))).
  { intros c after Hch Hle.
    destruct (gap_loop_exact p w first' last' (nfuel := fuel) (n := List.length after)
                (fuel := fuel) (le_n _) Hch) as (j & Hj & _ & Hnode); try lia.
    exists j. split; [exact Hj|]. rewrite <- Hnode. reflexivity. }
  cbn [nodes map chosen_offset].
  change (live_in (requirements_ p) first' last' (node_of (buffers_sorted_by_offset_ p 0)))
    with (DoesEntryOverlapInTime p 0 first' last').
  destruct (DoesEntryOverlapInTime p 0 first' last').
  - destruct (Hgap 0 rest Hc (le_n _)) as (j & Hj & Hoff).
    exists (Some 0), (Some j). auto.
  - destruct (NextValidEntry_first p first' last' Hc (fuel := fuel))
      as [[Hr Hnone] | (skipped & j & after & Hr & Hl & Hsk & Hj & Hch)]; [lia | |].
    + exists None, None. split; [exact Hr|]. split.
      * destruct fuel as [|fuel']; [lia | reflexivity].
      * fold (nodes p rest). rewrite <- (app_nil_r (nodes p rest)).
        rewrite chosen_offset_skip by now apply not_live_nodes. reflexivity.
    + subst rest. destruct (Hgap j after Hch) as (j' & Hj' & Hoff).
      { rewrite length_app. simpl. lia. }
      exists (Some j), (Some j'). split; [exact Hr|]. split; [exact Hj'|].
      rewrite Hoff. rewrite map_app. fold (nodes p skipped).
      rewrite chosen_offset_skip by now apply not_live_nodes.
      cbn [map chosen_offset].
      change (live_in (requirements_ p) first' last'
                (node_of (buffers_sorted_by_offset_ p j)))
        with (DoesEntryOverlapInTime p j first' last').
      rewrite Hj. reflexivity.
Qed.

Lemma place_buffer_refines fuel p k l :
  placed p k l -> 1 <= k -> (Z.to_nat k <= fuel)%nat ->
  (forall j, 0 <= j < k ->
     buffer_ids_sorted_by_size_ p j <> buffer_ids_sorted_by_size_ p k) ->
  exists p' l',
    place_buffer fuel k p = Some p'
    /\ placed p' (k + 1) l'
    /\ same_input p p'
    /\ nodes p' l'
       = place (requirements_ p) (nodes p l) (buffer_ids_sorted_by_size_ p k)
    /\ forall x, x <> buffer_ids_sorted_by_size_ p k ->
         buffer_offsets_ p' x = buffer_offsets_ p x.
Proof.
  intros Hp Hk Hfuel Hinj.
  destruct (place_buffer_spec Hp Hk Hfuel Hinj) as (p' & l' & Hrun & Hpl & Hsame & _).
  exists p', l'. split; [exact Hrun|]. split; [exact Hpl|]. split; [exact Hsame|].
  unfold place_buffer in Hrun.
  set (buffer_id := buffer_ids_sorted_by_size_ p k) in *.
  set (w := requirements_ p buffer_id) in *.
  destruct (candidate_exact (size w) (first_time_used w) (last_time_used w) Hp Hk Hfuel)
    as (c0 & c & Hc0 & Hc & Hoff).
  rewrite Hc0, Hc in Hrun. planner_simpl. rewrite Hoff in Hrun.
  set (off := chosen_offset (requirements_ p) (size w) (first_time_used w)
                (last_time_used w) (nodes p l)) in *.
  rewrite (placed_next_free Hp) in Hrun.
  set (pool := buffers_sorted_by_offset_ p) in *.
  set (pool1 := upd pool k (set_entry_offset (pool k) off)) in *.
  set (pool2 := upd pool1 k (set_entry_requirements_index (pool1 k) buffer_id)) in *.
  assert (Hkl : ~ In k l) by (rewrite (placed_in _ Hp); lia).
  pose proof (chain_NoDup (placed_chain Hp)) as Hnd.
  assert (Hpool2 : forall j, j <> k -> pool2 j = pool j).
  { intros j Hj. unfold pool2, pool1. now upd_simpl. }
  assert (Hpool2k : node_of (pool2 k) = (off, buffer_id)).
  { unfold pool2, pool1, node_of. now upd_simpl. }
  assert (Hch2 : chain pool2 0 l).
  { apply chain_frame with (pool := pool); [apply (placed_chain Hp)|].
    intros j Hj. rewrite Hpool2; [reflexivity|]. intros ->. contradiction. }
  destruct (insert_loop_spec (pool := pool2) (new := k) off ltac:(lia) Hch2 Hnd Hkl
              (fuel := fuel))
    as (pool' & l1 & l2 & Hins & Hl & Hch & Hle & Hlt & Hsamep & Hframe).
  { rewrite (placed_length Hp). exact Hfuel. }
  rewrite Hins in Hrun. injection Hrun as <-.
  planner_simpl.
  assert (Hl' : l' = 0 :: l1 ++ k :: l2).
  { eapply chain_functional; [apply (placed_chain Hpl) | exact Hch]. }
  assert (Hk1 : ~ In k l1 /\ ~ In k l2).
  { rewrite Hl in Hkl. split; intros H; apply Hkl; right; apply in_or_app; auto. }
  assert (Hnode : forall j, node_of (pool' j) = node_of (pool2 j)).
  { intros j. unfold node_of. now rewrite (proj1 (Hsamep j)), (proj2 (Hsamep j)). }
  assert (Hmap : forall l0, ~ In k l0 ->
            map (fun j => node_of (pool' j)) l0 = map (fun j => node_of (pool j)) l0).
  { intros l0 Hl0. apply map_ext_in. intros j Hj. rewrite Hnode, Hpool2; [reflexivity|].
    intros ->. contradiction. }
  split.
  - rewrite Hl'. unfold place. fold buffer_id. fold w. fold off.
    rewrite Hl. unfold nodes. planner_simpl. fold pool.
    cbn [map]. rewrite !map_app. cbn [map].
    rewrite Hnode, (Hpool2 0) by lia. f_equal.
    rewrite Hnode, Hpool2k, !Hmap by tauto.
    symmetry. apply insert_by_offset_split.
    + rewrite Forall_map, Forall_forall in *. intros j Hj.
      specialize (Hle j Hj). rewrite Hpool2 in Hle; [exact Hle|].
      intros ->. now apply (proj1 Hk1).
    + intros y b' Hb. destruct l2 as [|j l2']; [discriminate|].
      cbn [map] in Hb. injection Hb as <- _.
      specialize (Hlt j l2' eq_refl). rewrite Hpool2 in Hlt; [exact Hlt|].
      intros ->. apply (proj2 Hk1). now left.
  - intros x Hx. now apply upd_other.
Qed.

(** ** A layout pass computes [greedy_plan] *)

Lemma indices_cons n : 0 < n -> indices n = 0 :: tl (indices n).
Proof.
  intros Hn. unfold indices. destruct (Z.to_nat n) as [|k] eqn:E; [lia | reflexivity].
Qed.

Lemma tl_indices_succ k : 1 <= k -> tl (indices (k + 1)) = tl (indices k) ++ [k].
Proof.
  intros Hk. rewrite indices_succ by lia.
  rewrite (indices_cons (n := k)) at 1 by lia. reflexivity.
Qed.

Lemma ReverseSortInPlace_ids_list values ids n :
  0 <= n ->
  map (snd (ReverseSortInPlace values ids n)) (indices n)
  = map snd (extract_passes (Z.to_nat n)
               (map (fun i => (values i, ids i)) (indices n))).
Proof.
  intros Hn.
  set (sorted := extract_passes (Z.to_nat n)
                   (map (fun i => (values i, ids i)) (indices n))).
  pose proof (@sorted_length values ids n Hn) as Hlen. fold sorted in Hlen.
  rewrite <- Hlen at 2.
  rewrite <- (map_nth_indices snd sorted (fun i => (ids i, ids i))).
  rewrite Hlen.
  apply map_ext_in. intros j Hj. apply in_indices in Hj.
  unfold ReverseSortInPlace. cbn [snd]. fold sorted.
  replace ((0 <=? j) && (j <? n))%bool with true; [reflexivity|].
  symmetry. apply andb_true_iff. split; [apply Z.leb_le | apply Z.ltb_lt]; lia.
Qed.

Lemma CalculateOffsetsIfNeeded_exact fuel p :
  need_to_calculate_offsets_ p = true ->
  0 < buffer_count_ p ->
  (Z.to_nat (buffer_count_ p) <= fuel)%nat ->
  exists p' l,
    CalculateOffsetsIfNeeded fuel p = Some p'
    /\ placed p' (buffer_count_ p) l
    /\ nodes p' l
       = greedy_plan (requirements_ p) (size_order (requirements_ p) (buffer_count_ p))
    /\ requirements_ p' = requirements_ p
    /\ buffer_count_ p' = buffer_count_ p
    /\ need_to_calculate_offsets_ p' = false
    /\ map (buffer_ids_sorted_by_size_ p') (indices (buffer_count_ p))
       = size_order (requirements_ p) (buffer_count_ p)
    /\ forall x,
         ~ In x (tl (size_order (requirements_ p) (buffer_count_ p))) ->
         buffer_offsets_ p' x = buffer_offsets_ p x.
Proof.
  intros Hneed Hcount Hfuel. unfold CalculateOffsetsIfNeeded.
  rewrite Hneed. cbn [negb orb].
  destruct (buffer_count_ p =? 0) eqn:E; cmp_to_prop; [lia|]. clear E.
  set (n := buffer_count_ p) in *.
  set (reqs := requirements_ p) in *.
  set (p0 := set_need_to_calculate_offsets p false).
  change (buffer_count_ p0) with n.
  destruct (fill_sorted_by_size_spec p0 (n := n) ltac:(lia))
    as (F1 & F2 & F3 & F4 & F5 & F6 & F7).
  change (requirements_ p0) with reqs in F1, F7.
  change (buffer_offsets_ p0) with (buffer_offsets_ p) in F5.
  set (p1 := for_loop 0 n fill_sorted_by_size p0) in *.
  rewrite F2. change (buffer_count_ p0) with n.
  pose proof (ReverseSortInPlace_ids_perm (buffer_sizes_sorted_by_size_ p1)
                (buffer_ids_sorted_by_size_ p1) (n := n) ltac:(lia)) as Hperm.
  pose proof (ReverseSortInPlace_ids_list (buffer_sizes_sorted_by_size_ p1)
                (buffer_ids_sorted_by_size_ p1) (n := n) ltac:(lia)) as Hlist.
  destruct (ReverseSortInPlace (buffer_sizes_sorted_by_size_ p1)
              (buffer_ids_sorted_by_size_ p1) n) as [sizes ids] eqn:Hsort.
  cbn [snd] in Hperm, Hlist.
  assert (Hperm' : Permutation (map ids (indices n)) (indices n)).
  { rewrite Hperm. apply Permutation_refl'.
    transitivity (map (fun j => j) (indices n)); [|apply map_id].
    apply map_ext_in. intros j Hj. apply in_indices in Hj. apply (F7 j Hj). }
  assert (Horder : map ids (indices n) = size_order reqs n).
  { rewrite Hlist. unfold size_order. do 2 f_equal.
    apply map_ext_in. intros j Hj. apply in_indices in Hj.
    now rewrite (proj1 (F7 j Hj)), (proj2 (F7 j Hj)). }
  planner_simpl.
  set (pool := buffers_sorted_by_offset_ p1).
  set (pool1 := upd pool 0 (set_entry_offset (pool 0) 0)).
  set (pool2 := upd pool1 0 (set_entry_requirements_index (pool1 0) (ids 0))).
  set (pool3 := upd pool2 0 (set_entry_next (pool2 0) (-1))).
  set (p3 := set_next_free_entry _ 1).
  assert (Hreq3 : requirements_ p3 = reqs) by (unfold p3; planner_simpl; exact F1).
  assert (Hcell0 : offset (pool3 0) = 0 /\ requirements_index (pool3 0) = ids 0
                   /\ next_entry_index (pool3 0) = -1).
  { unfold pool3, pool2, pool1. now upd_simpl. }
  assert (Hplaced : placed p3 1 [0]).
  { constructor; unfold p3; planner_simpl.
    - reflexivity.
    - apply chain_last. apply Hcell0.
    - reflexivity.
    - intros j Hj. replace j with 0 by lia. apply Hcell0.
    - apply Hcell0.
    - intros j Hj. lia. }
  pose proof (@for_rangeM_invariant _
    (fun k q =>
       same_input p3 q
       /\ (forall x, ~ In x (map ids (tl (indices k))) ->
             buffer_offsets_ q x = buffer_offsets_ p x)
       /\ exists l, placed q k l
          /\ nodes q l = fold_left (place reqs) (map ids (tl (indices k))) [(0, ids 0)])
    (place_buffer fuel) (Z.to_nat (n - 1)) 1 p3) as Hloop.
  replace (1 + Z.of_nat (Z.to_nat (n - 1))) with n in Hloop by lia.
  unfold for_loopM. change (buffer_count_ p3) with (buffer_count_ p1).
  rewrite F2. change (buffer_count_ p0) with n.
  destruct Hloop as (p' & Hrun & Hsame & Hframe & l & Hpl & Hnodes).
  - split; [apply same_input_refl|]. split.
    + intros x _. unfold p3. planner_simpl. now rewrite F5.
    + exists [0]. split; [exact Hplaced|].
      unfold nodes, node_of, p3. planner_simpl. cbn [map].
      now rewrite (proj1 Hcell0), (proj1 (proj2 Hcell0)).
  - intros k q Hk (Hsame & Hframe & l & Hpl & Hnodes).
    destruct Hsame as (S1 & S2 & S3 & S4 & S5).
    assert (Hids : buffer_ids_sorted_by_size_ q = ids) by (rewrite S4; reflexivity).
    destruct (place_buffer_refines (fuel := fuel) Hpl)
      as (q' & l' & Hq' & Hpl' & Hsame' & Hnodes' & Hframe').
    + lia.
    + lia.
    + intros j Hj Heq. rewrite Hids in Heq.
      apply (@ids_injective ids n Hperm') in Heq; lia.
    + exists q'. split; [exact Hq'|]. split; [|split].
      * eapply same_input_trans; [|exact Hsame']. repeat split; assumption.
      * intros x Hx. rewrite tl_indices_succ, map_app in Hx by lia.
        rewrite Hframe'.
        { apply Hframe. intros H. apply Hx. apply in_or_app. now left. }
        rewrite Hids. intros ->. apply Hx. apply in_or_app. right. now left.
      * exists l'. split; [exact Hpl'|].
        rewrite Hnodes', Hnodes, S1, Hreq3, Hids.
        rewrite tl_indices_succ, map_app, fold_left_app by lia. reflexivity.
  - destruct Hsame as (S1 & S2 & S3 & S4 & S5).
    assert (Hcnt : buffer_count_ p' = n).
    { rewrite S2. unfold p3. planner_simpl. rewrite F2. reflexivity. }
    assert (Hids : buffer_ids_sorted_by_size_ p' = ids) by (rewrite S4; reflexivity).
    assert (Hord : size_order reqs n = ids 0 :: map ids (tl (indices n))).
    { rewrite <- Horder. rewrite (indices_cons (n := n)) at 1 by lia. reflexivity. }
    exists p', l. split; [exact Hrun|]. rewrite Hcnt in *.
    split; [exact Hpl|]. split.
    { rewrite Hnodes, Hord. reflexivity. }
    split; [congruence|]. split; [reflexivity|]. split.
    { rewrite S5. unfold p3. planner_simpl. exact F6. }
    split; [now rewrite Hids|].
    intros x Hx. apply Hframe. rewrite Hord in Hx. exact Hx.
Qed.

Lemma CalculateOffsetsIfNeeded_keeps_exact fuel p p' :
  planner_ok p -> planner_exact p ->
  CalculateOffsetsIfNeeded fuel p = Some p' ->
  planner_exact p'.
Proof.
  intros [Hc _] Hex Hrun.
  destruct (need_to_calculate_offsets_ p) eqn:Hneed.
  - destruct (Z.eq_dec (buffer_count_ p) 0) as [H0|H0].
    + rewrite CalculateOffsetsIfNeeded_clean in Hrun by auto.
      injection Hrun as <-. exact Hex.
    + apply CalculateOffsetsIfNeeded_mono
        with (fuel' := Nat.max fuel (Z.to_nat (buffer_count_ p))) in Hrun; [|lia].
      destruct (CalculateOffsetsIfNeeded_exact
                  (fuel := Nat.max fuel (Z.to_nat (buffer_count_ p))) p Hneed)
        as (q & l & Hq & Hpl & Hnodes & Hreq & Hcnt & _); try lia.
      assert (q = p') by congruence. subst q.
      intros _. exists l. rewrite Hreq, Hcnt. auto.
  - rewrite CalculateOffsetsIfNeeded_clean in Hrun by auto.
    injection Hrun as <-. exact Hex.
Qed.

Lemma reachable_exact p : reachable p -> planner_exact p.
Proof.
  induction 1 as [storage | p er s f l Hreach IH | p fuel p' m Hreach IH Hrun
                  | p fuel er p' er' Hreach IH Hrun].
  - intros H. discriminate H.
  - unfold AddBuffer.
    destruct (buffer_count_ p >=? kMaxBufferCount); cbn [fst snd]; [exact IH|].
    intros H. discriminate H.
  - apply GetMaximumMemorySize_state in Hrun.
    eapply CalculateOffsetsIfNeeded_keeps_exact; eauto using reachable_ok.
  - apply PrintMemoryPlan_state in Hrun.
    eapply CalculateOffsetsIfNeeded_keeps_exact; eauto using reachable_ok.
Qed.

(** [GetMaximumMemorySize] in terms of [greedy_plan]. *)
Lemma GetMaximumMemorySize_exact fuel p :
  reachable p ->
  0 < buffer_count_ p ->
  (Z.to_nat (buffer_count_ p) <= fuel)%nat ->
  exists p' l,
    GetMaximumMemorySize fuel p
    = Some (p', fold_left Z.max
                  (map (node_end (requirements_ p))
                     (greedy_plan (requirements_ p)
                        (size_order (requirements_ p) (buffer_count_ p)))) 0)
    /\ placement_list fuel p' = Some (map (buffers_sorted_by_offset_ p') l)
    /\ nodes p' l
       = greedy_plan (requirements_ p) (size_order (requirements_ p) (buffer_count_ p))
    /\ laid_out p' l
    /\ requirements_ p' = requirements_ p
    /\ buffer_count_ p' = buffer_count_ p.
Proof.
  intros Hreach Hn Hfuel.
  destruct (GetMaximumMemorySize_spec (reachable_ok Hreach) Hfuel)
    as (p' & Hrun & _ & Hreq & Hcnt & _ & Hpos).
  destruct (Hpos Hn) as (l & Hlaid & Hlist & Hmax).
  assert (Hex : planner_exact p').
  { eapply CalculateOffsetsIfNeeded_keeps_exact;
      eauto using reachable_ok, reachable_exact. }
  destruct (CalculateOffsetsIfNeeded_spec (reachable_ok Hreach) Hfuel)
    as (q & Hq & _ & _ & _ & _ & Hclean).
  assert (q = p') by congruence. subst q.
  destruct (Hex (proj1 (Hclean Hn))) as (l' & Hpl' & Hnodes).
  assert (l' = l).
  { eapply chain_functional; [apply (placed_chain Hpl') |
                              apply (placed_chain (laid_placed Hlaid))]. }
  subst l'. rewrite Hreq, Hcnt in Hnodes.
  exists p', l. split; [|auto].
  rewrite Hmax. do 3 f_equal. rewrite <- Hnodes. unfold nodes.
  rewrite !map_map. apply map_ext. intros j. unfold range_end, node_end.
  now rewrite fst_node_of, snd_node_of, Hreq.
Qed.

(** ** Properties of [greedy_plan] *)

Lemma size_order_perm reqs n : Permutation (size_order reqs n) (indices n).
Proof.
  unfold size_order.
  rewrite <- extract_passes_perm by now rewrite length_map, length_indices.
  rewrite map_map. cbn [snd]. now rewrite map_id.
Qed.

Lemma size_order_ext r1 r2 n :
  (forall i, 0 <= i < n -> r1 i = r2 i) -> size_order r1 n = size_order r2 n.
Proof.
  intros H. unfold size_order. do 2 f_equal. apply map_ext_in.
  intros i Hi. apply in_indices in Hi. now rewrite H.
Qed.

Lemma in_insert_by_offset new L n :
  In n (insert_by_offset new L) <-> n = new \/ In n L.
Proof.
  induction L as [|x L IH]; cbn [insert_by_offset].
  - simpl. intuition.
  - destruct (fst x >? fst new); simpl; rewrite ?IH; intuition.
Qed.

Lemma in_place reqs L id n :
  In n (place reqs L id) -> snd n = id \/ In n L.
Proof.
  unfold place. destruct L as [|h L]; [intros []|].
  intros [<-|H]; [right; now left|].
  apply in_insert_by_offset in H as [->|H]; [now left | right; now right].
Qed.

Lemma live_in_ext r1 r2 first' last' n :
  r1 (snd n) = r2 (snd n) -> live_in r1 first' last' n = live_in r2 first' last' n.
Proof. intros H. unfold live_in. now rewrite H. Qed.

Lemma gap_after_ext r1 r2 w first' last' :
  forall rest c,
    r1 (snd c) = r2 (snd c) ->
    (forall n, In n rest -> r1 (snd n) = r2 (snd n)) ->
    gap_after r1 w first' last' c rest = gap_after r2 w first' last' c rest.
Proof.
  induction rest as [|n rest IH]; intros c Hc Hrest; cbn [gap_after]; [reflexivity|].
  assert (Hn : r1 (snd n) = r2 (snd n)) by (apply Hrest; now left).
  rewrite (live_in_ext r1 r2 first' last' n Hn). unfold node_end. rewrite Hc.
  destruct (live_in r2 first' last' n).
  - destruct (_ >=? w); [reflexivity|]. apply IH; [exact Hn|].
    intros m Hm. apply Hrest. now right.
  - apply IH; [exact Hc|]. intros m Hm. apply Hrest. now right.
Qed.

Lemma chosen_offset_ext r1 r2 w first' last' :
  forall L,
    (forall n, In n L -> r1 (snd n) = r2 (snd n)) ->
    chosen_offset r1 w first' last' L = chosen_offset r2 w first' last' L.
Proof.
  induction L as [|n L IH]; intros HL; cbn [chosen_offset]; [reflexivity|].
  assert (Hn : r1 (snd n) = r2 (snd n)) by (apply HL; now left).
  assert (HL' : forall m, In m L -> r1 (snd m) = r2 (snd m))
    by (intros m Hm; apply HL; now right).
  rewrite (live_in_ext r1 r2 first' last' n Hn).
  destruct (live_in r2 first' last' n); [|now apply IH].
  rewrite (gap_after_ext r1 r2 w first' last' L n Hn HL').
  unfold node_end. f_equal. f_equal.
  set (g := gap_after r2 w first' last' n L).
  assert (Hg : In g (n :: L)).
  { unfold g. clear. revert n. induction L as [|m L IH]; intros n; cbn [gap_after].
    - now left.
    - destruct (live_in r2 first' last' m).
      + destruct (_ >=? w); [now left|]. right. apply IH.
      + destruct (IH n) as [<-|H]; [now left | right; now right]. }
  destruct Hg as [<-|Hg]; auto.
Qed.

Lemma place_ext r1 r2 L id :
  r1 id = r2 id ->
  (forall n, In n L -> r1 (snd n) = r2 (snd n)) ->
  place r1 L id = place r2 L id.
Proof.
  intros Hid HL. unfold place. rewrite Hid.
  now rewrite (chosen_offset_ext r1 r2 _ _ _ L HL).
Qed.

Lemma fold_place_ext r1 r2 :
  forall others L,
    (forall n, In n L -> r1 (snd n) = r2 (snd n)) ->
    (forall id, In id others -> r1 id = r2 id) ->
    fold_left (place r1) others L = fold_left (place r2) others L.
Proof.
  induction others as [|id others IH]; intros L HL Hothers; cbn [fold_left];
    [reflexivity|].
  rewrite (place_ext r1 r2 L id) by (auto; apply Hothers; now left).
  apply IH.
  - intros n Hn. apply in_place in Hn as [<-|Hn]; [|now apply HL].
    apply Hothers. now left.
  - intros x Hx. apply Hothers. now right.
Qed.

Lemma greedy_plan_ext r1 r2 order :
  (forall id, In id order -> r1 id = r2 id) ->
  greedy_plan r1 order = greedy_plan r2 order.
Proof.
  intros H. destruct order as [|a others]; [reflexivity|]. cbn [greedy_plan].
  apply fold_place_ext.
  - intros n [<-|[]]. cbn [snd]. apply H. now left.
  - intros id Hid. apply H. now right.
Qed.

Lemma live_in_overlap reqs x a b :
  live_in reqs (first_time_used (reqs b)) (last_time_used (reqs b)) (x, a)
  = overlap_in_time (reqs a) (reqs b).
Proof.
  unfold live_in, overlap_in_time. cbn [snd].
  destruct (first_time_used (reqs a) >? last_time_used (reqs b)) eqn:E1;
    destruct (first_time_used (reqs b) >? last_time_used (reqs a)) eqn:E2;
    destruct (first_time_used (reqs a) <=? last_time_used (reqs b)) eqn:E3;
    destruct (first_time_used (reqs b) <=? last_time_used (reqs a)) eqn:E4;
    cmp_to_prop; try reflexivity; lia.
Qed.

Lemma chosen_offset_none reqs w first' last' L :
  Forall (fun n => live_in reqs first' last' n = false) L ->
  chosen_offset reqs w first' last' L = 0.
Proof.
  intros H. rewrite <- (app_nil_r L). now rewrite chosen_offset_skip.
Qed.

Lemma insert_by_offset_end off id a :
  Forall (fun n => fst n <= off) a ->
  insert_by_offset (off, id) a = a ++ [(off, id)].
Proof.
  intros H. rewrite <- (app_nil_r a) at 1.
  apply insert_by_offset_split; [exact H | discriminate].
Qed.

(** Buffers that are never live together all go to offset 0. *)
Lemma fold_place_never_live_together reqs :
  forall others done,
    done <> [] ->
    NoDup (done ++ others) ->
    (forall a b, In a (done ++ others) -> In b (done ++ others) -> a <> b ->
       overlap_in_time (reqs a) (reqs b) = false) ->
    fold_left (place reqs) others (map (fun id => (0, id)) done)
    = map (fun id => (0, id)) (done ++ others).
Proof.
  induction others as [|id others IH]; intros done Hne Hnd Hnever; cbn [fold_left].
  - now rewrite app_nil_r.
  - replace (done ++ id :: others) with ((done ++ [id]) ++ others) in *
      by (now rewrite <- app_assoc).
    rewrite <- IH; [|now destruct done | exact Hnd | exact Hnever]. f_equal.
    assert (Hquiet : Forall (fun n => live_in reqs (first_time_used (reqs id))
                                        (last_time_used (reqs id)) n = false)
                       (map (fun a => (0, a)) done)).
    { rewrite Forall_map, Forall_forall. intros a Ha. rewrite live_in_overlap.
      apply Hnever.
      - apply in_or_app. left. apply in_or_app. now left.
      - apply in_or_app. left. apply in_or_app. right. now left.
      - intros ->. apply NoDup_app_remove_r in Hnd.
        apply NoDup_remove_2 in Hnd. rewrite app_nil_r in Hnd. contradiction. }
    unfold place. rewrite chosen_offset_none by exact Hquiet.
    destruct done as [|d done]; [congruence|]. cbn [map app]. f_equal.
    rewrite map_app. cbn [map].
    apply insert_by_offset_end.
    rewrite Forall_map, Forall_forall. intros a _. cbn [fst]. lia.
Qed.

Lemma greedy_plan_never_live_together reqs order :
  NoDup order ->
  (forall a b, In a order -> In b order -> a <> b ->
     overlap_in_time (reqs a) (reqs b) = false) ->
  greedy_plan reqs order = map (fun id => (0, id)) order.
Proof.
  intros Hnd Hnever. destruct order as [|a others]; [reflexivity|].
  cbn [greedy_plan].
  apply (@fold_place_never_live_together reqs others [a]); [discriminate | |]; assumption.
Qed.

(** Buffers that are all live together are laid end to end. *)
Lemma stack_from_app reqs :
  forall ids start id,
    stack_from reqs start (ids ++ [id])
    = stack_from reqs start ids
      ++ [(start + list_sum_Z (map (fun a => size (reqs a)) ids), id)].
Proof.
  induction ids as [|a ids IH]; intros start id; cbn [app stack_from map list_sum_Z fold_right].
  - now rewrite Z.add_0_r.
  - rewrite IH. unfold list_sum_Z. now rewrite Z.add_assoc.
Qed.

Lemma stack_from_below reqs :
  forall ids start,
    (forall a, In a ids -> 0 <= size (reqs a)) ->
    Forall (fun n => fst n <= start + list_sum_Z (map (fun a => size (reqs a)) ids))
      (stack_from reqs start ids).
Proof.
  induction ids as [|a ids IH]; intros start Hsize;
    cbn [stack_from map list_sum_Z fold_right]; constructor.
  - cbn [fst].
    assert (Hsum : forall l, (forall x, In x l -> 0 <= size (reqs x)) ->
              0 <= fold_right Z.add 0 (map (fun x => size (reqs x)) l)).
    { induction l as [|x l IHl]; intros H; cbn [map fold_right]; [lia|].
      specialize (H x (or_introl eq_refl)) as Hx.
      specialize (IHl (fun y Hy => H y (or_intror Hy))). lia. }
    specialize (Hsum (a :: ids) Hsize). cbn [map fold_right] in Hsum. lia.
  - specialize (IH (start + size (reqs a)) (fun x Hx => Hsize x (or_intror Hx))).
    eapply Forall_impl; [|exact IH]. unfold list_sum_Z. intros n Hn. cbn beta in Hn. lia.
Qed.

Lemma gap_after_stack reqs w first' last' :
  0 < w ->
  forall ids c,
    (forall a x, In a ids -> live_in reqs first' last' (x, a) = true) ->
    node_end reqs
      (gap_after reqs w first' last' c (stack_from reqs (node_end reqs c) ids))
    = node_end reqs c + list_sum_Z (map (fun a => size (reqs a)) ids).
Proof.
  intros Hw. induction ids as [|a ids IH]; intros c Hlive;
    cbn [stack_from gap_after map list_sum_Z fold_right]; [lia|].
  rewrite Hlive by now left. cbn [fst].
  destruct (node_end reqs c - node_end reqs c >=? w) eqn:E; cmp_to_prop; [lia|].
  specialize (IH (node_end reqs c, a) (fun b x Hb => Hlive b x (or_intror Hb))).
  change (node_end reqs (node_end reqs c, a))
    with (node_end reqs c + size (reqs a)) in IH.
  rewrite IH. unfold list_sum_Z. lia.
Qed.

Lemma fold_place_all_live_together reqs :
  forall others done,
    done <> [] ->
    NoDup (done ++ others) ->
    (forall a b, In a (done ++ others) -> In b (done ++ others) -> a <> b ->
       overlap_in_time (reqs a) (reqs b) = true) ->
    (forall a, In a (done ++ others) -> 0 < size (reqs a)) ->
    fold_left (place reqs) others (stack_from reqs 0 done)
    = stack_from reqs 0 (done ++ others).
Proof.
  induction others as [|id others IH]; intros done Hne Hnd Hall Hsize; cbn [fold_left].
  - now rewrite app_nil_r.
  - replace (done ++ id :: others) with ((done ++ [id]) ++ others) in *
      by (now rewrite <- app_assoc).
    rewrite <- IH; [|now destruct done | exact Hnd | exact Hall | exact Hsize]. f_equal.
    assert (Hlive : forall a x, In a done ->
              live_in reqs (first_time_used (reqs id)) (last_time_used (reqs id)) (x, a)
              = true).
    { intros a x Ha. rewrite live_in_overlap. apply Hall.
      - apply in_or_app. left. apply in_or_app. now left.
      - apply in_or_app. left. apply in_or_app. right. now left.
      - intros ->. apply NoDup_app_remove_r in Hnd.
        apply NoDup_remove_2 in Hnd. rewrite app_nil_r in Hnd. contradiction. }
    assert (Hpos : forall a, In a done -> 0 <= size (reqs a)).
    { intros a Ha. apply Z.lt_le_incl, Hsize.
      apply in_or_app. left. apply in_or_app. now left. }
    rewrite stack_from_app.
    destruct done as [|d done]; [congruence|].
    unfold place. cbn [stack_from chosen_offset].
    rewrite Hlive by now left.
    change (0 + size (reqs d)) with (node_end reqs (0, d)).
    rewrite gap_after_stack;
      [|apply Hsize; apply in_or_app; left; apply in_or_app; right; now left
       |intros a x Ha; apply Hlive; now right].
    cbn [app map list_sum_Z fold_right]. f_equal.
    unfold node_end. cbn [fst snd].
    replace (0 + (size (reqs d)
                  + fold_right Z.add 0 (map (fun a => size (reqs a)) done)))
      with (0 + size (reqs d) + list_sum_Z (map (fun a => size (reqs a)) done))
      by (unfold list_sum_Z; lia).
    apply insert_by_offset_end.
    apply stack_from_below. intros a Ha. apply Hpos. now right.
Qed.

Lemma greedy_plan_all_live_together reqs order :
  NoDup order ->
  (forall a b, In a order -> In b order -> a <> b ->
     overlap_in_time (reqs a) (reqs b) = true) ->
  (forall a, In a order -> 0 < size (reqs a)) ->
  greedy_plan reqs order = stack_from reqs 0 order.
Proof.
  intros Hnd Hall Hsize. destruct order as [|a others]; [reflexivity|].
  cbn [greedy_plan].
  apply (@fold_place_all_live_together reqs others [a]); [discriminate | | |]; assumption.
Qed.

Lemma plan_node_ids p p' l :
  laid_out p' l ->
  requirements_ p' = requirements_ p ->
  buffer_count_ p' = buffer_count_ p ->
  forall n, In n (nodes p' l) -> 0 <= snd n < buffer_count_ p.
Proof.
  intros Hlaid Hreq Hcnt n Hn. pose proof (laid_placed Hlaid) as Hp.
  unfold nodes in Hn. apply in_map_iff in Hn as (j & <- & Hj).
  apply (placed_in _ Hp) in Hj. rewrite snd_node_of, (placed_ids Hp) by exact Hj.
  rewrite <- Hcnt. apply (@ids_in_range _ _ (laid_ids Hlaid)). exact Hj.
Qed.

Lemma end_to_end_stack p :
  forall entries start ids,
    map node_of entries = stack_from (requirements_ p) start ids ->
    end_to_end p start entries.
Proof.
  induction entries as [|e entries IH]; intros start ids H; cbn [end_to_end]; [exact I|].
  destruct ids as [|id ids]; [discriminate|]. cbn [map stack_from] in H.
  unfold node_of at 1 in H. injection H as Hoff Hid Hrest.
  split; [exact Hoff|]. apply (IH _ ids). rewrite Hrest.
  unfold range_end. now rewrite Hoff, Hid.
Qed.

Lemma fold_max_stack reqs :
  forall ids start a,
    ids <> [] ->
    a <= start ->
    (forall x, In x ids -> 0 <= size (reqs x)) ->
    fold_left Z.max (map (node_end reqs) (stack_from reqs start ids)) a
    = start + list_sum_Z (map (fun x => size (reqs x)) ids).
Proof.
  induction ids as [|x ids IH]; intros start a Hne Ha Hsize; [congruence|].
  cbn [stack_from map fold_left list_sum_Z fold_right].
  pose proof (Hsize x (or_introl eq_refl)) as Hx.
  unfold node_end at 2. cbn [fst snd].
  destruct ids as [|y ids].
  - cbn [stack_from map fold_left fold_right]. lia.
  - rewrite IH; [unfold list_sum_Z; lia | discriminate | lia |].
    intros z Hz. apply Hsize. now right.
Qed.

(** ** What a layout depends on, and two families of layouts *)

(** X2.  The placement list and the high-water mark depend only on the
    records of the added buffers: two planners a client can reach that hold
    the same records get the same offsets for the same buffers in the same
    list order and return the same [GetMaximumMemorySize], whatever their
    storage held and whatever was laid out before. *)
Theorem layout_depends_only_on_the_records fuel p q :
  reachable p ->
  reachable q ->
  buffer_count_ q = buffer_count_ p ->
  (forall i, 0 <= i < buffer_count_ p -> requirements_ q i = requirements_ p i) ->
  0 < buffer_count_ p ->
  (Z.to_nat (buffer_count_ p) <= fuel)%nat ->
  exists p' q' m entries_p entries_q,
    GetMaximumMemorySize fuel p = Some (p', m)
    /\ GetMaximumMemorySize fuel q = Some (q', m)
    /\ placement_list fuel p' = Some entries_p
    /\ placement_list fuel q' = Some entries_q
    /\ map (fun e => (offset e, requirements_index e)) entries_p
       = map (fun e => (offset e, requirements_index e)) entries_q.
Proof.
  intros Hp Hq Hcnt Hreq Hn Hfuel.
  destruct (GetMaximumMemorySize_exact Hp Hn Hfuel)
    as (p' & lp & Hmp & Hlp & Hnp & Hlaidp & Hreqp & Hcntp).
  destruct (GetMaximumMemorySize_exact (fuel := fuel) Hq)
    as (q' & lq & Hmq & Hlq & Hnq & Hlaidq & Hreqq & Hcntq); [lia | lia |].
  rewrite Hcnt in Hmq, Hnq.
  assert (Horder : size_order (requirements_ q) (buffer_count_ p)
                   = size_order (requirements_ p) (buffer_count_ p)).
  { apply size_order_ext. intros i Hi. now apply Hreq. }
  assert (Hplan : greedy_plan (requirements_ q)
                    (size_order (requirements_ q) (buffer_count_ p))
                  = greedy_plan (requirements_ p)
                      (size_order (requirements_ p) (buffer_count_ p))).
  { rewrite Horder. apply greedy_plan_ext. intros id Hid. apply Hreq.
    apply in_indices. eapply Permutation_in; [apply size_order_perm | exact Hid]. }
  rewrite Hplan in Hmq, Hnq.
  assert (Hends : map (node_end (requirements_ q))
                    (greedy_plan (requirements_ p)
                       (size_order (requirements_ p) (buffer_count_ p)))
                  = map (node_end (requirements_ p))
                      (greedy_plan (requirements_ p)
                         (size_order (requirements_ p) (buffer_count_ p)))).
  { apply map_ext_in. intros n Hin. rewrite <- Hnp in Hin.
    apply (@plan_node_ids p p' lp Hlaidp Hreqp Hcntp) in Hin.
    unfold node_end. now rewrite Hreq. }
  rewrite Hends in Hmq.
  eexists p', q', _, _, _. split; [exact Hmp|]. split; [exact Hmq|].
  split; [exact Hlp|]. split; [exact Hlq|].
  rewrite !map_map. change (nodes p' lp = nodes q' lq). congruence.
Qed.

(** X3.  When no two added buffers are ever live at the same time (and no
    size is negative), a layout puts every buffer at offset 0, and
    [GetMaximumMemorySize] is the size of a largest buffer. *)
Theorem buffers_never_live_together_share_offset_zero fuel p :
  reachable p ->
  0 < buffer_count_ p ->
  (forall i, 0 <= i < buffer_count_ p -> 0 <= size (requirements_ p i)) ->
  (forall i j, 0 <= i < buffer_count_ p -> 0 <= j < buffer_count_ p -> i <> j ->
     overlap_in_time (requirements_ p i) (requirements_ p j) = false) ->
  (Z.to_nat (buffer_count_ p) <= fuel)%nat ->
  exists p' m entries,
    GetMaximumMemorySize fuel p = Some (p', m)
    /\ placement_list fuel p' = Some entries
    /\ Permutation (map requirements_index entries) (indices (buffer_count_ p))
    /\ Forall (fun e => offset e = 0) entries
    /\ (forall i, 0 <= i < buffer_count_ p -> size (requirements_ p i) <= m)
    /\ (exists i, 0 <= i < buffer_count_ p /\ m = size (requirements_ p i)).
Proof.
  intros Hreach Hn Hsize Hnever Hfuel.
  destruct (GetMaximumMemorySize_exact Hreach Hn Hfuel)
    as (p' & l & Hm & Hlist & Hnodes & Hlaid & Hreq & Hcnt).
  set (reqs := requirements_ p) in *. set (n := buffer_count_ p) in *.
  pose proof (size_order_perm reqs n) as Hperm.
  assert (Hin : forall a, In a (size_order reqs n) <-> 0 <= a < n).
  { intros a. rewrite <- in_indices. split; apply Permutation_in;
      [exact Hperm | symmetry; exact Hperm]. }
  assert (Hplan : greedy_plan reqs (size_order reqs n)
                  = map (fun id => (0, id)) (size_order reqs n)).
  { apply greedy_plan_never_live_together.
    - eapply Permutation_NoDup; [symmetry; exact Hperm | apply NoDup_indices].
    - intros a b Ha Hb Hab. apply Hnever; [now apply Hin | now apply Hin | exact Hab]. }
  rewrite Hplan in Hm, Hnodes.
  rewrite map_map in Hm. unfold node_end in Hm. cbn [fst snd] in Hm.
  eexists p', _, _. split; [exact Hm|]. split; [exact Hlist|].
  split; [rewrite <- Hcnt; now apply laid_out_entries|].
  split; [|split].
  - rewrite Forall_map, Forall_forall. intros j Hj.
    assert (Hnode : In (node_of (buffers_sorted_by_offset_ p' j)) (nodes p' l)).
    { unfold nodes. apply in_map_iff. eauto. }
    rewrite Hnodes in Hnode. apply in_map_iff in Hnode as (a & Ha & _).
    rewrite <- fst_node_of, <- Ha. reflexivity.
  - intros i Hi.
    pose proof (fold_left_max_upper
                  (map (fun x => 0 + size (reqs x)) (size_order reqs n)) 0) as Hup.
    rewrite Forall_map, Forall_forall in Hup.
    specialize (Hup i (proj2 (Hin i) Hi)). cbn beta in Hup. lia.
  - destruct (fold_left_max_attained
                (map (fun x => 0 + size (reqs x)) (size_order reqs n)) 0) as [H0|Hat].
    + exists 0. split; [lia|]. rewrite H0.
      pose proof (fold_left_max_upper
                    (map (fun x => 0 + size (reqs x)) (size_order reqs n)) 0) as Hup.
      rewrite H0, Forall_map, Forall_forall in Hup.
      specialize (Hup 0 (proj2 (Hin 0) ltac:(lia))). cbn beta in Hup.
      specialize (Hsize 0 ltac:(lia)). fold reqs in Hsize. lia.
    + apply in_map_iff in Hat as (a & Ha & Hina).
      exists a. split; [now apply Hin | lia].
Qed.

(** X4.  When every two added buffers are live at the same time (every size
    is positive, and the sizes add up to at most [INT_MAX], so that no sum
    of the source leaves the range of [int]), a layout lays the buffers end
    to end from offset 0: each node of the placement list starts where the
    node before it ends, and [GetMaximumMemorySize] is the sum of the
    sizes. *)
Theorem buffers_all_live_together_are_laid_end_to_end fuel p :
  reachable p ->
  0 < buffer_count_ p ->
  (forall i, 0 <= i < buffer_count_ p -> 0 < size (requirements_ p i)) ->
  total_size p <= INT_MAX ->
  (forall i j, 0 <= i < buffer_count_ p -> 0 <= j < buffer_count_ p -> i <> j ->
     overlap_in_time (requirements_ p i) (requirements_ p j) = true) ->
  (Z.to_nat (buffer_count_ p) <= fuel)%nat ->
  exists p' m entries,
    GetMaximumMemorySize fuel p = Some (p', m)
    /\ placement_list fuel p' = Some entries
    /\ Permutation (map requirements_index entries) (indices (buffer_count_ p))
    /\ Forall (fun e => 0 <= offset e /\ range_end p e <= INT_MAX) entries
    /\ end_to_end p 0 entries
    /\ m = total_size p.
Proof.
  intros Hreach Hn Hsize Htotal Hall Hfuel.
  destruct (GetMaximumMemorySize_exact Hreach Hn Hfuel)
    as (p' & l & Hm & Hlist & Hnodes & Hlaid & Hreq & Hcnt).
  destruct (@placement_fits_int fuel p Hreach Hn
              (fun i Hi => Z.lt_le_incl _ _ (Hsize i Hi)) Htotal Hfuel)
    as (q & m' & entries' & Hq & Hlq & Hfit & _).
  rewrite Hm in Hq. injection Hq as Hpq _. subst q.
  rewrite Hlist in Hlq. injection Hlq as Hentries'. subst entries'.
  set (reqs := requirements_ p) in *. set (n := buffer_count_ p) in *.
  pose proof (size_order_perm reqs n) as Hperm.
  assert (Hin : forall a, In a (size_order reqs n) <-> 0 <= a < n).
  { intros a. rewrite <- in_indices. split; apply Permutation_in;
      [exact Hperm | symmetry; exact Hperm]. }
  assert (Hplan : greedy_plan reqs (size_order reqs n)
                  = stack_from reqs 0 (size_order reqs n)).
  { apply greedy_plan_all_live_together.
    - eapply Permutation_NoDup; [symmetry; exact Hperm | apply NoDup_indices].
    - intros a b Ha Hb Hab. apply Hall; [now apply Hin | now apply Hin | exact Hab].
    - intros a Ha. apply Hsize. now apply Hin. }
  rewrite Hplan in Hm, Hnodes.
  rewrite fold_max_stack in Hm.
  - eexists p', _, _. split; [exact Hm|]. split; [exact Hlist|].
    split; [rewrite <- Hcnt; now apply laid_out_entries|]. split; [|split].
    + eapply Forall_impl; [|exact Hfit]. intros e [He0 He1]. lia.
    + apply end_to_end_stack with (ids := size_order reqs n).
      rewrite map_map. exact Hnodes.
    + unfold total_size. fold reqs. fold n. cbn [Z.add].
      rewrite <- (map_map (fun x => x) (fun x => size (reqs x)) (indices n)) at 1.
      apply list_sum_Z_perm, Permutation_map. rewrite map_id. exact Hperm.
  - intros Heq. apply (f_equal (@List.length Z)) in Heq.
    rewrite (Permutation_length Hperm), length_indices in Heq. simpl in Heq. lia.
  - lia.
  - intros x Hx. apply Z.lt_le_incl, Hsize. now apply Hin.
Qed.

(** ** Adding buffers and reading *)

Lemma AddBuffers_keeps_lower_records batch :
  forall p i,
    0 <= i < buffer_count_ p ->
    requirements_ (AddBuffers p batch) i = requirements_ p i.
Proof.
  induction batch as [|r batch IH]; intros p i Hi; cbn [AddBuffers]; [reflexivity|].
  unfold AddBuffer.
  destruct (buffer_count_ p >=? kMaxBufferCount); cbn [fst snd]; [now apply IH|].
  rewrite IH by (planner_simpl; lia). planner_simpl. apply upd_other. lia.
Qed.

Lemma AddBuffers_from batch :
  forall p,
    0 <= buffer_count_ p <= kMaxBufferCount ->
    buffer_count_ (AddBuffers p batch)
    = Z.min (buffer_count_ p + Z.of_nat (List.length batch)) kMaxBufferCount
    /\ forall i r,
         nth_error batch i = Some r ->
         buffer_count_ p + Z.of_nat i < kMaxBufferCount ->
         requirements_ (AddBuffers p batch) (buffer_count_ p + Z.of_nat i) = r.
Proof.
  induction batch as [|r0 batch IH]; intros p Hc; cbn [AddBuffers].
  - split; [simpl; lia|]. intros [|i] r H; discriminate H.
  - unfold AddBuffer.
    destruct (buffer_count_ p >=? kMaxBufferCount) eqn:E; cmp_to_prop; cbn [fst snd].
    + destruct (IH p Hc) as [Hcount _]. split.
      * rewrite Hcount. cbn [List.length]. lia.
      * intros i r _ Hi. lia.
    + set (q := set_need_to_calculate_offsets _ true).
      assert (Hq : buffer_count_ q = buffer_count_ p + 1) by reflexivity.
      destruct (IH q ltac:(lia)) as [Hcount Hrec]. split.
      * rewrite Hcount, Hq. cbn [List.length]. lia.
      * intros [|i] r Hnth Hi; cbn [nth_error] in Hnth.
        { injection Hnth as <-. rewrite Z.add_0_r.
          rewrite AddBuffers_keeps_lower_records by lia.
          unfold q. planner_simpl. rewrite upd_same. now destruct r0. }
        replace (buffer_count_ p + Z.of_nat (Datatypes.S i))
          with (buffer_count_ q + Z.of_nat i) by lia.
        apply Hrec; [exact Hnth | lia].
Qed.

(** X5.  Adding a batch to a fresh planner: [GetBufferCount] is the length of
    the batch, capped at the capacity 1024, and the record at index [i] is
    the [i]-th buffer of the batch for every [i] below the capacity; the
    buffers beyond the capacity are dropped. *)
Theorem AddBuffers_count_and_records storage batch :
  GetBufferCount (AddBuffers (GreedyMemoryPlanner_new storage) batch)
  = Z.min (Z.of_nat (List.length batch)) 1024
  /\ forall i r,
       nth_error batch i = Some r ->
       Z.of_nat i < 1024 ->
       requirements_ (AddBuffers (GreedyMemoryPlanner_new storage) batch) (Z.of_nat i)
       = r.
Proof.
  destruct (@AddBuffers_from batch (GreedyMemoryPlanner_new storage)) as [Hc Hr].
  - cbn. unfold kMaxBufferCount. lia.
  - split; [exact Hc|]. intros i r Hnth Hi. exact (Hr i r Hnth Hi).
Qed.

Lemma for_rangeM_preserves {S : Type} (R : S -> S -> Prop) (body : Z -> S -> option S) :
  (forall s, R s s) ->
  (forall a b c, R a b -> R b c -> R a c) ->
  (forall j s s', body j s = Some s' -> R s s') ->
  forall n i s s', for_rangeM n i body s = Some s' -> R s s'.
Proof.
  intros Hrefl Htrans Hbody. induction n as [|n IH]; intros i s s' H; cbn [for_rangeM] in H.
  - injection H as <-. apply Hrefl.
  - destruct (body i s) as [t|] eqn:E; [|discriminate].
    eapply Htrans; [eapply Hbody; exact E | eapply IH; exact H].
Qed.

Lemma place_buffer_same_input fuel i p p' :
  place_buffer fuel i p = Some p' -> same_input p p'.
Proof.
  unfold place_buffer.
  destruct (if DoesEntryOverlapInTime p 0 _ _ then _ else _) as [c0|]; [|discriminate].
  destruct (gap_loop fuel fuel p c0 _ _ _) as [c|]; [|discriminate].
  destruct (insert_loop fuel _ 0 _ _) as [pool'|]; [|discriminate].
  intros [= <-]. repeat split.
Qed.

Lemma CalculateOffsetsIfNeeded_keeps_records fuel p p' :
  CalculateOffsetsIfNeeded fuel p = Some p' ->
  requirements_ p' = requirements_ p /\ buffer_count_ p' = buffer_count_ p.
Proof.
  unfold CalculateOffsetsIfNeeded.
  destruct (negb (need_to_calculate_offsets_ p) || (buffer_count_ p =? 0));
    [now intros [= <-]|].
  set (p0 := set_need_to_calculate_offsets p false).
  assert (H1 : requirements_ (for_loop 0 (buffer_count_ p0) fill_sorted_by_size p0)
               = requirements_ p
               /\ buffer_count_ (for_loop 0 (buffer_count_ p0) fill_sorted_by_size p0)
                  = buffer_count_ p).
  { unfold for_loop.
    apply (for_range_invariant
             (fun _ q => requirements_ q = requirements_ p
                         /\ buffer_count_ q = buffer_count_ p)).
    - now split.
    - intros j t _ [Ha Hb]. unfold fill_sorted_by_size. planner_simpl. now split. }
  set (p1 := for_loop 0 (buffer_count_ p0) fill_sorted_by_size p0) in *.
  destruct (ReverseSortInPlace _ _ _) as [sizes ids].
  intros Hrun. unfold for_loopM in Hrun.
  apply (for_rangeM_preserves same_input) in Hrun.
  - destruct Hrun as (S1 & S2 & _). planner_simpl. destruct H1. split; congruence.
  - apply same_input_refl.
  - apply same_input_trans.
  - intros j s s'. apply place_buffer_same_input.
Qed.

(** X6.  The reads never touch what the client added: on any planner
    whatever, [GetMaximumMemorySize] and [PrintMemoryPlan] leave every record
    and [GetBufferCount] as they were. *)
Theorem reads_keep_the_records fuel p :
  (forall p' m,
     GetMaximumMemorySize fuel p = Some (p', m) ->
     requirements_ p' = requirements_ p /\ GetBufferCount p' = GetBufferCount p)
  /\ (forall er p' er',
        PrintMemoryPlan fuel p er = Some (p', er') ->
        requirements_ p' = requirements_ p /\ GetBufferCount p' = GetBufferCount p).
Proof.
  split.
  - intros p' m H. apply GetMaximumMemorySize_state in H.
    now apply CalculateOffsetsIfNeeded_keeps_records in H.
  - intros er p' er' H. apply PrintMemoryPlan_state in H.
    now apply CalculateOffsetsIfNeeded_keeps_records in H.
Qed.

(** The layout stays within the sum of the sizes: for sizes that are not
    negative every node of the placement list starts at or above 0 and ends
    at or below the sum of all sizes, and so does the high-water mark. *)
Lemma layout_within_total_size fuel p :
  reachable p ->
  0 < buffer_count_ p ->
  (forall i, 0 <= i < buffer_count_ p -> 0 <= size (requirements_ p i)) ->
  (Z.to_nat (buffer_count_ p) <= fuel)%nat ->
  exists p' l,
    CalculateOffsetsIfNeeded fuel p = Some p'
    /\ laid_out p' l
    /\ requirements_ p' = requirements_ p
    /\ buffer_count_ p' = buffer_count_ p
    /\ placement_list fuel p' = Some (map (buffers_sorted_by_offset_ p') l)
    /\ Forall (fun e =>
                 0 <= offset e
                 /\ offset e + size (requirements_ p (requirements_index e))
                    <= total_size p) (map (buffers_sorted_by_offset_ p') l)
    /\ exists m,
         GetMaximumMemorySize fuel p = Some (p', m) /\ 0 <= m <= total_size p.
Proof.
  intros Hreach Hn Hsize Hfuel.
  destruct (GetMaximumMemorySize_spec (reachable_ok Hreach) Hfuel)
    as (p' & Hrun & _ & Hreq & Hcnt & _ & Hpos).
  destruct (Hpos Hn) as (l & Hlaid & Hlist & Hmax).
  pose proof (laid_placed Hlaid) as Hp.
  assert (Hsize' : forall i, 0 <= i < buffer_count_ p' -> 0 <= size (requirements_ p' i)).
  { intros i Hi. rewrite Hreq. apply Hsize. lia. }
  destruct (laid_ordered Hlaid Hsize') as [Hsorted Hbound].
  rewrite (placed_total_all Hlaid) in Hbound.
  assert (Htot : total_size p' = total_size p).
  { unfold total_size. now rewrite Hreq, Hcnt. }
  rewrite Htot in Hbound.
  assert (Hentries : Forall (fun e => 0 <= offset e /\ range_end p e <= total_size p)
                       (map (buffers_sorted_by_offset_ p') l)).
  { rewrite Forall_map, Forall_forall. intros j Hj.
    specialize (Hbound j Hj). split.
    - destruct (chain_head (placed_chain Hp)) as (l' & ->).
      unfold offsets_of in Hsorted. cbn [map] in Hsorted.
      inversion Hsorted as [|? ? _ Hge]; subst.
      rewrite (placed_head Hp) in Hge.
      destruct Hj as [<-|Hj]; [rewrite (placed_head Hp); lia|].
      rewrite Forall_forall in Hge. apply Hge. apply in_map_iff. eauto.
    - unfold range_end in *. now rewrite <- Hreq. }
  exists p', l. split; [exact Hrun|]. split; [exact Hlaid|].
  split; [exact Hreq|]. split; [exact Hcnt|]. split; [exact Hlist|].
  split; [exact Hentries|].
  eexists. split; [exact Hmax|]. split; [apply fold_left_max_ge|].
  destruct (fold_left_max_attained
              (map (range_end p') (map (buffers_sorted_by_offset_ p') l)) 0) as [->|Hin].
  - destruct (chain_head (placed_chain Hp)) as (l' & ->).
    cbn [map] in Hentries. inversion Hentries as [|? ? [H0 H1] _]; subst.
    unfold range_end in H1. rewrite (placed_head Hp) in H1.
    pose proof (Hsize' _ (@ids_in_range _ _ (laid_ids Hlaid) 0 ltac:(lia))) as Hs.
    rewrite <- (placed_ids Hp), Hreq in Hs by lia. lia.
  - apply in_map_iff in Hin as (e & <- & Hin).
    rewrite Forall_forall in Hentries. destruct (Hentries e Hin) as [_ He].
    unfold range_end in *. now rewrite Hreq.
Qed.

(** X7.  For sizes that are not negative and add up to at most [INT_MAX] no
    buffer is placed below offset 0 or ends beyond the sum of all sizes, so
    [GetMaximumMemorySize] never exceeds that sum: at worst the buffers lie
    end to end.  With the sum inside the range of [int], so is every offset
    and every [offset + size] the source computes. *)
Theorem GetMaximumMemorySize_at_most_total_size fuel p :
  reachable p ->
  0 < buffer_count_ p ->
  (forall i, 0 <= i < buffer_count_ p -> 0 <= size (requirements_ p i)) ->
  total_size p <= INT_MAX ->
  (Z.to_nat (buffer_count_ p) <= fuel)%nat ->
  exists p' m entries,
    GetMaximumMemorySize fuel p = Some (p', m)
    /\ placement_list fuel p' = Some entries
    /\ Permutation (map requirements_index entries) (indices (buffer_count_ p))
    /\ Forall (fun e =>
                 0 <= offset e
                 /\ offset e + size (requirements_ p (requirements_index e))
                    <= total_size p
                 /\ offset e + size (requirements_ p (requirements_index e))
                    <= INT_MAX) entries
    /\ 0 <= m <= total_size p
    /\ m <= INT_MAX.
Proof.
  intros Hreach Hn Hsize Htotal Hfuel.
  destruct (layout_within_total_size Hreach Hn Hsize Hfuel)
    as (p' & l & _ & Hlaid & _ & Hcnt & Hlist & Hentries & m & Hm & Hbound).
  exists p', m, (map (buffers_sorted_by_offset_ p') l).
  split; [exact Hm|]. split; [exact Hlist|].
  split; [rewrite <- Hcnt; now apply laid_out_entries|].
  split; [|split; [exact Hbound | lia]].
  eapply Forall_impl; [|exact Hentries]. intros e [He0 He1].
  split; [exact He0|]. split; [exact He1 | lia].
Qed.

(** ** The ordered insertion *)

(** X8.  The ordered insertion of the placement loop, on a well-formed list
    and a cell [new] outside it: the new node goes behind the head, after
    every node it passes (all with an offset not above the new one, so after
    its ties) and before the first node with a larger offset; the nodes
    already in the list keep their order, and no cell changes its offset or
    its buffer. *)
Theorem ordered_insertion_keeps_the_list fuel pool head rest new off :
  chain pool head (head :: rest) ->
  ~ In new (head :: rest) ->
  new <> -1 ->
  (List.length rest < fuel)%nat ->
  exists pool' before after,
    insert_loop fuel pool head new off = Some pool'
    /\ rest = before ++ after
    /\ chain pool' head (head :: before ++ new :: after)
    /\ Forall (fun j => offset (pool j) <= off) before
    /\ (forall j after', after = j :: after' -> off < offset (pool j))
    /\ (forall j, offset (pool' j) = offset (pool j)
                  /\ requirements_index (pool' j) = requirements_index (pool j)).
Proof.
  intros Hc Hnew Hnull Hfuel.
  destruct (insert_loop_spec (pool := pool) (new := new) off Hnull Hc
              (chain_NoDup Hc) Hnew (fuel := fuel))
    as (pool' & l1 & l2 & Hrun & Hl & Hch & Hle & Hlt & Hsame & _).
  { simpl. lia. }
  injection Hl as Hl.
  exists pool', l1, l2. repeat split; auto; apply Hsame.
Qed.

(** ** [PrintMemoryPlan] *)

Lemma for_range_reports (g : Z -> string) (body : Z -> ErrorReporter -> ErrorReporter) :
  (forall t er, body t er = report er "%s" [ArgStr (g t)]) ->
  forall n i er,
    for_range n i body er
    = er ++ map (fun k => mkReport "%s" [ArgStr (g (i + Z.of_nat k))]) (seq 0 n).
Proof.
  intros Hbody. induction n as [|n IH]; intros i er; cbn [for_range].
  - cbn [seq map]. now rewrite app_nil_r.
  - rewrite IH, Hbody. unfold report. rewrite <- app_assoc. cbn [app seq map].
    rewrite Z.add_0_r. do 2 f_equal.
    rewrite <- seq_shift, map_map. apply map_ext. intros k.
    replace (i + 1 + Z.of_nat k) with (i + Z.of_nat (Datatypes.S k)) by lia. reflexivity.
Qed.

Lemma c_string_length line :
  forall n i extra,
    (forall c, i <= c < i + Z.of_nat n -> line c <> zero) ->
    line (i + Z.of_nat n) = zero ->
    String.length (c_string (n + Datatypes.S extra) line i) = n.
Proof.
  induction n as [|n IH]; intros i extra Hcells Hend; cbn [Nat.add c_string].
  - rewrite Z.add_0_r in Hend. rewrite Hend. reflexivity.
  - destruct (Ascii.eqb (line i) zero) eqn:E.
    + apply Ascii.eqb_eq in E. exfalso. apply (Hcells i); [lia | exact E].
    + cbn [String.length]. f_equal. apply IH.
      * intros c Hc. apply Hcells. lia.
      * rewrite <- Hend. f_equal. lia.
Qed.

Lemma c_string_ext line line' :
  forall n i,
    (forall c, i <= c < i + Z.of_nat n -> line c = line' c) ->
    c_string n line i = c_string n line' i.
Proof.
  induction n as [|n IH]; intros i H; cbn [c_string]; [reflexivity|].
  rewrite (H i) by lia. destruct (Ascii.eqb (line' i) zero); [reflexivity|].
  f_equal. apply IH. intros c Hc. apply H. lia.
Qed.

Lemma digit_not_zero i : 0 <= i -> ascii_of_N (Z.to_N (48 + Z.rem i 10)) <> zero.
Proof.
  intros Hi. pose proof (Z.rem_bound_pos i 10 Hi ltac:(lia)) as Hr.
  assert (H : Z.rem i 10 = 0 \/ Z.rem i 10 = 1 \/ Z.rem i 10 = 2 \/ Z.rem i 10 = 3
              \/ Z.rem i 10 = 4 \/ Z.rem i 10 = 5 \/ Z.rem i 10 = 6
              \/ Z.rem i 10 = 7 \/ Z.rem i 10 = 8 \/ Z.rem i 10 = 9) by lia.
  repeat (destruct H as [H|H]; [rewrite H; discriminate|]).
  rewrite H. discriminate.
Qed.

Lemma PrintMemoryPlan_lines_of fuel p er p' er' :
  PrintMemoryPlan fuel p er = Some (p', er') ->
  exists max_size max_time,
    for_loop 0 (buffer_count_ p')
      (fun i '(max_size, max_time) =>
         let requirements := requirements_ p' i in
         let offset' := buffer_offsets_ p' i in
         let last_time_used' := last_time_used requirements in
         let size' := offset' + size requirements in
         (if size' >? max_size then size' else max_size,
          if last_time_used' >? max_time then last_time_used' else max_time))
      (80, 0) = (max_size, max_time)
    /\ er' = er ++ map (fun k => mkReport "%s"
                                   [ArgStr (c_string 81 (plan_line p' max_size (Z.of_nat k)) 0)])
                     (seq 0 (Z.to_nat (max_time + 1))).
Proof.
  intros H. pose proof (PrintMemoryPlan_state _ _ _ H) as Hrun.
  unfold PrintMemoryPlan in H. rewrite Hrun in H.
  destruct (for_loop 0 (buffer_count_ p') _ (80, 0)) as [max_size max_time] eqn:E.
  exists max_size, max_time. split; [reflexivity|].
  injection H as <-. unfold for_loop. rewrite Z.sub_0_r.
  rewrite (for_range_reports (fun t => c_string 81 (plan_line p' max_size t) 0)).
  - reflexivity.
  - intros t er0. reflexivity.
Qed.

Lemma max_time_spec p :
  forall max_size max_time,
    for_loop 0 (buffer_count_ p)
      (fun i '(max_size, max_time) =>
         let requirements := requirements_ p i in
         let offset' := buffer_offsets_ p i in
         let last_time_used' := last_time_used requirements in
         let size' := offset' + size requirements in
         (if size' >? max_size then size' else max_size,
          if last_time_used' >? max_time then last_time_used' else max_time))
      (80, 0) = (max_size, max_time) ->
    0 <= max_time
    /\ (forall i, 0 <= i < buffer_count_ p ->
          last_time_used (requirements_ p i) <= max_time)
    /\ (max_time = 0
        \/ exists i, 0 <= i < buffer_count_ p
                     /\ max_time = last_time_used (requirements_ p i)).
Proof.
  intros max_size max_time H. unfold for_loop in H.
  match type of H with
  | for_range ?n ?lo ?body ?init = _ =>
    assert (Hinv :
      0 <= snd (for_range n lo body init)
      /\ (forall i, 0 <= i < lo + Z.of_nat n ->
            last_time_used (requirements_ p i) <= snd (for_range n lo body init))
      /\ (snd (for_range n lo body init) = 0
          \/ exists i, 0 <= i < lo + Z.of_nat n
                       /\ snd (for_range n lo body init)
                          = last_time_used (requirements_ p i)))
  end.
  { apply (for_range_invariant
             (fun k (st : Z * Z) =>
                0 <= snd st
                /\ (forall i, 0 <= i < k ->
                      last_time_used (requirements_ p i) <= snd st)
                /\ (snd st = 0
                    \/ exists i, 0 <= i < k
                                 /\ snd st = last_time_used (requirements_ p i)))).
    - cbn [snd]. split; [lia|]. split; [intros; lia | now left].
    - intros j [ms mt] Hj (H0 & Hall & Hat). cbn [snd] in *. cbv zeta.
      destruct (last_time_used (requirements_ p j) >? mt) eqn:E; cmp_to_prop.
      + split; [lia|]. split.
        * intros i Hi. destruct (Z.eq_dec i j) as [->|Hne]; [lia|].
          specialize (Hall i ltac:(lia)). lia.
        * right. exists j. split; [lia | reflexivity].
      + split; [lia|]. split.
        * intros i Hi. destruct (Z.eq_dec i j) as [->|Hne]; [lia|].
          apply Hall. lia.
        * destruct Hat as [Hat|(i & Hi & Hat)]; [now left|].
          right. exists i. split; [lia | exact Hat]. }
  rewrite H in Hinv. cbn [snd] in Hinv.
  destruct Hinv as (H0 & Hall & Hat). split; [exact H0|]. split.
  - intros i Hi. apply Hall. lia.
  - destruct Hat as [Hat|(i & Hi & Hat)]; [now left|].
    right. exists i. split; [lia | exact Hat].
Qed.

Lemma max_size_spec p :
  forall max_size max_time,
    for_loop 0 (buffer_count_ p)
      (fun i '(max_size, max_time) =>
         let requirements := requirements_ p i in
         let offset' := buffer_offsets_ p i in
         let last_time_used' := last_time_used requirements in
         let size' := offset' + size requirements in
         (if size' >? max_size then size' else max_size,
          if last_time_used' >? max_time then last_time_used' else max_time))
      (80, 0) = (max_size, max_time) ->
    80 <= max_size
    /\ (forall i, 0 <= i < buffer_count_ p ->
          buffer_offsets_ p i + size (requirements_ p i) <= max_size).
Proof.
  intros max_size max_time H. unfold for_loop in H.
  match type of H with
  | for_range ?n ?lo ?body ?init = _ =>
    assert (Hinv :
      80 <= fst (for_range n lo body init)
      /\ (forall i, 0 <= i < lo + Z.of_nat n ->
            buffer_offsets_ p i + size (requirements_ p i)
            <= fst (for_range n lo body init)))
  end.
  { apply (for_range_invariant
             (fun k (st : Z * Z) =>
                80 <= fst st
                /\ (forall i, 0 <= i < k ->
                      buffer_offsets_ p i + size (requirements_ p i) <= fst st))).
    - cbn [fst]. split; [lia | intros; lia].
    - intros j [ms mt] Hj (H0 & Hall). cbn [fst] in *. cbv zeta.
      destruct (buffer_offsets_ p j + size (requirements_ p j) >? ms) eqn:E;
        cmp_to_prop.
      + split; [lia|].
        intros i Hi. destruct (Z.eq_dec i j) as [->|Hne]; [lia|].
        specialize (Hall i ltac:(lia)). lia.
      + split; [lia|].
        intros i Hi. destruct (Z.eq_dec i j) as [->|Hne]; [lia|].
        apply Hall. lia. }
  rewrite H in Hinv. cbn [fst] in Hinv.
  destruct Hinv as (H0 & Hall). split; [exact H0|].
  intros i Hi. apply Hall. lia.
Qed.

Lemma plan_line_cells p max_size t :
  (forall c, 0 <= c < 80 -> plan_line p max_size t c <> zero)
  /\ plan_line p max_size t 80 = zero.
Proof.
  unfold plan_line. cbv zeta. split; [|apply upd_same].
  intros c Hc. rewrite upd_other by lia. revert c Hc.
  set (dots := for_loop 0 80 (fun c line => upd line c "."%char) (fun _ => zero)).
  assert (Hdots : forall c, 0 <= c < 80 -> dots c <> zero).
  { unfold dots, for_loop.
    change 80 with (0 + Z.of_nat (Z.to_nat (80 - 0))) at 1.
    apply (for_range_invariant
             (fun k (line : array ascii) => forall c, 0 <= c < k -> line c <> zero)).
    - intros c Hc. lia.
    - intros j line Hj Hline c Hc. destruct (Z.eq_dec c j) as [->|Hne].
      + rewrite upd_same. discriminate.
      + rewrite upd_other by exact Hne. apply Hline. lia. }
  unfold for_loop at 1.
  apply (for_range_invariant
           (fun _ (line : array ascii) => forall c, 0 <= c < 80 -> line c <> zero));
    [exact Hdots|].
  intros i line Hi Hline.
  destruct ((t <? first_time_used (requirements_ p i))
            || (t >? last_time_used (requirements_ p i)))%bool; [exact Hline|].
  unfold for_loop.
  match goal with
  | |- forall c, _ -> for_range ?n ?lo ?body line c <> zero =>
    pose proof (@for_range_invariant _
      (fun _ (line : array ascii) => forall c, 0 <= c < 80 -> line c <> zero)
      body n lo line Hline) as Hinner
  end.
  apply Hinner. intros n line' _ Hline' c Hc.
  destruct (Ascii.eqb (line' n) "."%char);
    (destruct (Z.eq_dec c n) as [->|Hne];
     [rewrite upd_same | rewrite upd_other by exact Hne; now apply Hline']).
  - apply digit_not_zero. lia.
  - discriminate.
Qed.

Lemma plan_line_no_live_buffer p max_size t :
  (forall i, 0 <= i < buffer_count_ p ->
     t < first_time_used (requirements_ p i) \/ last_time_used (requirements_ p i) < t) ->
  c_string 81 (plan_line p max_size t) 0 = eighty_dots.
Proof.
  intros Hquiet. unfold plan_line. cbv zeta.
  set (dots := for_loop 0 80 (fun c line => upd line c "."%char) (fun _ => zero)).
  assert (Hsame : for_loop 0 (buffer_count_ p)
                    (fun i line =>
                       if (t <? first_time_used (requirements_ p i))
                          || (t >? last_time_used (requirements_ p i))
                       then line
                       else
                         for_loop
                           (Z.quot (buffer_offsets_ p i * 80) max_size)
                           (Z.quot ((buffer_offsets_ p i + size (requirements_ p i)) * 80)
                              max_size)
                           (fun n line0 =>
                              if Ascii.eqb (line0 n) "."%char
                              then upd line0 n (ascii_of_N (Z.to_N (48 + Z.rem i 10)))
                              else upd line0 n "!"%char) line) dots
                  = dots).
  { unfold for_loop at 1.
    apply (for_range_invariant (fun _ (line : array ascii) => line = dots));
      [reflexivity|].
    intros i line Hi ->.
    destruct (Hquiet i ltac:(lia)) as [H|H].
    - apply Z.ltb_lt in H. now rewrite H.
    - apply Z.ltb_lt in H. rewrite Z.gtb_ltb, H. now rewrite orb_true_r. }
  rewrite Hsame. reflexivity.
Qed.

Lemma max_size_upper p bound :
  forall max_size max_time,
    for_loop 0 (buffer_count_ p)
      (fun i '(max_size, max_time) =>
         let requirements := requirements_ p i in
         let offset' := buffer_offsets_ p i in
         let last_time_used' := last_time_used requirements in
         let size' := offset' + size requirements in
         (if size' >? max_size then size' else max_size,
          if last_time_used' >? max_time then last_time_used' else max_time))
      (80, 0) = (max_size, max_time) ->
    80 <= bound ->
    (forall i, 0 <= i < buffer_count_ p ->
       buffer_offsets_ p i + size (requirements_ p i) <= bound) ->
    max_size <= bound.
Proof.
  intros max_size max_time H H80 Hall. unfold for_loop in H.
  match type of H with
  | for_range ?n ?lo ?body ?init = _ =>
    assert (Hinv : 0 + Z.of_nat n <= Z.max 0 (buffer_count_ p) ->
                   fst (for_range n lo body init) <= bound)
  end.
  { apply (for_range_invariant
             (fun k (st : Z * Z) => k <= Z.max 0 (buffer_count_ p) -> fst st <= bound)).
    - intros _. cbn [fst]. exact H80.
    - intros j [ms mt] Hj IH Hk. cbn [fst] in *. cbv zeta.
      destruct (buffer_offsets_ p j + size (requirements_ p j) >? ms) eqn:E;
        cmp_to_prop; [apply Hall; lia | apply IH; lia]. }
  rewrite H in Hinv. cbn [fst] in Hinv. apply Hinv. lia.
Qed.

Lemma PrintMemoryPlan_returns fuel p er p' :
  CalculateOffsetsIfNeeded fuel p = Some p' ->
  exists er', PrintMemoryPlan fuel p er = Some (p', er').
Proof.
  intros H. unfold PrintMemoryPlan. rewrite H.
  destruct (for_loop 0 (buffer_count_ p') _ (80, 0)) as [ms mt].
  eexists. reflexivity.
Qed.

(** What [buffer_offsets_] holds after a layout pass: the cell of a buffer is
    the one the pass found (for the largest buffer, which the pass does not
    record, and when no pass was due), or it holds an offset at which the
    buffer lies between 0 and the sum of the sizes. *)
Lemma layout_cells_in_arena fuel p :
  reachable p ->
  (forall i, 0 <= i < buffer_count_ p -> 0 <= size (requirements_ p i)) ->
  (Z.to_nat (buffer_count_ p) <= fuel)%nat ->
  exists p',
    CalculateOffsetsIfNeeded fuel p = Some p'
    /\ requirements_ p' = requirements_ p
    /\ buffer_count_ p' = buffer_count_ p
    /\ forall i, 0 <= i < buffer_count_ p ->
         buffer_offsets_ p' i = buffer_offsets_ p i
         \/ (0 <= buffer_offsets_ p' i
             /\ buffer_offsets_ p' i + size (requirements_ p i) <= total_size p).
Proof.
  intros Hreach Hsize Hfuel.
  destruct (CalculateOffsetsIfNeeded_spec (reachable_ok Hreach) Hfuel)
    as (p' & Hrun & _ & Hreq & Hcnt & _ & _).
  exists p'. split; [exact Hrun|]. split; [exact Hreq|]. split; [exact Hcnt|].
  intros i Hi.
  destruct (need_to_calculate_offsets_ p) eqn:Hneed.
  - assert (Hn : 0 < buffer_count_ p) by lia.
    destruct (@CalculateOffsetsIfNeeded_exact fuel p Hneed Hn Hfuel)
      as (q & l0 & Hq & _ & _ & _ & _ & _ & Hids & Hframe).
    assert (q = p') by congruence. subst q.
    destruct (@layout_within_total_size fuel p Hreach Hn Hsize Hfuel)
      as (q & l & Hq' & Hlaid & _ & _ & _ & Hentries & _).
    assert (q = p') by congruence. subst q.
    pose proof (laid_placed Hlaid) as Hp. rewrite Hcnt in Hp.
    pose proof (size_order_perm (requirements_ p) (buffer_count_ p)) as Hperm.
    assert (Hnd : NoDup (size_order (requirements_ p) (buffer_count_ p))).
    { eapply Permutation_NoDup; [symmetry; exact Hperm | apply NoDup_indices]. }
    assert (Hin : In i (size_order (requirements_ p) (buffer_count_ p))).
    { eapply Permutation_in; [symmetry; exact Hperm | now apply in_indices]. }
    rewrite indices_cons in Hids by exact Hn. cbn [map] in Hids.
    destruct (size_order (requirements_ p) (buffer_count_ p)) as [|h t];
      [destruct Hin|].
    injection Hids as Hh Ht. apply NoDup_cons_iff in Hnd as [Hnh _].
    destruct Hin as [<-|Hin].
    + left. apply Hframe. exact Hnh.
    + right. rewrite <- Ht in Hin. apply in_map_iff in Hin as (j & Hj & Hjin).
      assert (Hjr : 1 <= j < buffer_count_ p).
      { pose proof (NoDup_indices (buffer_count_ p)) as Hni.
        rewrite indices_cons in Hni by exact Hn.
        apply NoDup_cons_iff in Hni as [Hn0 _].
        assert (Hj0 : j <> 0) by (intros ->; contradiction).
        assert (Hjn : In j (indices (buffer_count_ p))).
        { rewrite indices_cons by exact Hn. now right. }
        apply in_indices in Hjn. lia. }
      rewrite <- Hj. rewrite (placed_recorded Hp) by exact Hjr.
      rewrite Forall_map, Forall_forall in Hentries.
      specialize (Hentries j (proj2 (placed_in j Hp) ltac:(lia))).
      rewrite (placed_ids Hp) in Hentries by lia. exact Hentries.
  - rewrite CalculateOffsetsIfNeeded_clean in Hrun by now left.
    injection Hrun as <-. now left.
Qed.

(** The diagram is drawn from cells inside the range of [int]: when the
    cells and sizes the planner holds are such that no product by the line
    width overflows, so are those it holds after the layout pass. *)
Lemma PrintMemoryPlan_cells fuel p :
  reachable p ->
  (forall i, 0 <= i < buffer_count_ p -> 0 <= size (requirements_ p i)) ->
  total_size p * 80 <= INT_MAX ->
  (forall i, 0 <= i < buffer_count_ p ->
     0 <= buffer_offsets_ p i
     /\ (buffer_offsets_ p i + size (requirements_ p i)) * 80 <= INT_MAX) ->
  (Z.to_nat (buffer_count_ p) <= fuel)%nat ->
  exists p',
    CalculateOffsetsIfNeeded fuel p = Some p'
    /\ requirements_ p' = requirements_ p
    /\ buffer_count_ p' = buffer_count_ p
    /\ forall i, 0 <= i < buffer_count_ p ->
         0 <= buffer_offsets_ p' i
         /\ (buffer_offsets_ p' i + size (requirements_ p i)) * 80 <= INT_MAX.
Proof.
  intros Hreach Hsize Htotal Hcells Hfuel.
  destruct (layout_cells_in_arena Hreach Hsize Hfuel)
    as (p' & Hrun & Hreq & Hcnt & Hcell).
  exists p'. split; [exact Hrun|]. split; [exact Hreq|]. split; [exact Hcnt|].
  intros i Hi. destruct (Hcell i Hi) as [-> | [H0 H1]].
  - now apply Hcells.
  - split; [exact H0 | lia].
Qed.

(** X9.  [PrintMemoryPlan] returns and reports one line for each time step
    from 0 to the largest [last_time_used] (a single line when that is not
    positive or no buffer was added) and nothing else; every line has
    exactly 80 characters, and the line of a time step at which no buffer
    is live is all dots.  The preconditions are those under which the
    source stays inside [int] and inside its line of 81 characters: the
    sizes are not negative, 80 times their sum is at most [INT_MAX], the
    cells of [buffer_offsets_] before the call (the largest buffer is drawn
    from the cell it has then) hold offsets that are not negative with 80
    times [offset + size] at most [INT_MAX], and no [last_time_used] is
    [INT_MAX], so that the time step can be incremented past the last
    one. *)
Theorem PrintMemoryPlan_lines fuel p er :
  reachable p ->
  (forall i, 0 <= i < buffer_count_ p -> 0 <= size (requirements_ p i)) ->
  total_size p * 80 <= INT_MAX ->
  (forall i, 0 <= i < buffer_count_ p ->
     0 <= buffer_offsets_ p i
     /\ (buffer_offsets_ p i + size (requirements_ p i)) * 80 <= INT_MAX) ->
  (forall i, 0 <= i < buffer_count_ p ->
     last_time_used (requirements_ p i) < INT_MAX) ->
  (Z.to_nat (buffer_count_ p) <= fuel)%nat ->
  exists p' er' max_time lines,
    PrintMemoryPlan fuel p er = Some (p', er')
    /\ er' = er ++ lines
    /\ (forall i, 0 <= i < buffer_count_ p ->
          0 <= buffer_offsets_ p' i
          /\ (buffer_offsets_ p' i + size (requirements_ p i)) * 80 <= INT_MAX)
    /\ 0 <= max_time < INT_MAX
    /\ (forall i, 0 <= i < buffer_count_ p ->
          last_time_used (requirements_ p i) <= max_time)
    /\ (max_time = 0
        \/ exists i, 0 <= i < buffer_count_ p
                     /\ max_time = last_time_used (requirements_ p i))
    /\ List.length lines = Z.to_nat (max_time + 1)
    /\ forall t r,
         nth_error lines t = Some r ->
         exists s,
           r = mkReport "%s" [ArgStr s]
           /\ String.length s = 80%nat
           /\ ((forall i, 0 <= i < buffer_count_ p ->
                  Z.of_nat t < first_time_used (requirements_ p i)
                  \/ last_time_used (requirements_ p i) < Z.of_nat t) ->
               s = eighty_dots).
Proof.
  intros Hreach Hsize Htotal Hcells Hlast Hfuel.
  destruct (PrintMemoryPlan_cells Hreach Hsize Htotal Hcells Hfuel)
    as (p' & Hrun & Hreq & Hcnt & Hcells').
  destruct (@PrintMemoryPlan_returns fuel p er p' Hrun) as (er' & H).
  destruct (PrintMemoryPlan_lines_of _ _ _ H) as (max_size & max_time & Hloop & Her).
  destruct (max_time_spec p' Hloop) as (H0 & Hall & Hat).
  rewrite Hreq, Hcnt in Hall, Hat.
  exists p', er', max_time. eexists. split; [exact H|]. split; [exact Her|].
  split; [exact Hcells'|]. split.
  { split; [exact H0|]. destruct Hat as [-> | (i & Hi & ->)].
    - unfold INT_MAX. lia.
    - now apply Hlast. }
  split; [exact Hall|]. split; [exact Hat|].
  split; [now rewrite length_map, length_seq|].
  intros t r Hnth. rewrite nth_error_map in Hnth.
  destruct (nth_error (seq 0 (Z.to_nat (max_time + 1))) t) as [k|] eqn:Hk;
    [|discriminate].
  injection Hnth as <-.
  assert (k = t).
  { pose proof (nth_error_Some (seq 0 (Z.to_nat (max_time + 1))) t) as Hlt.
    rewrite Hk in Hlt. assert (Ht : (t < List.length (seq 0 (Z.to_nat (max_time + 1))))%nat)
      by (apply Hlt; discriminate).
    rewrite length_seq in Ht.
    apply nth_error_nth with (d := 0%nat) in Hk. rewrite seq_nth in Hk by exact Ht. lia. }
  subst k. eexists. split; [reflexivity|]. split.
  - destruct (plan_line_cells p' max_size (Z.of_nat t)) as [Hline Hend].
    apply (@c_string_length (plan_line p' max_size (Z.of_nat t)) 80 0 0).
    + intros c Hc. apply Hline. lia.
    + exact Hend.
  - intros Hquiet. apply plan_line_no_live_buffer.
    rewrite Hreq, Hcnt. exact Hquiet.
Qed.

(** X10.  [PrintMemoryPlan] never writes outside its line and its scaling
    never leaves the range of [int].  When the sizes are not negative, 80
    times their sum is at most [INT_MAX], the cells of [buffer_offsets_]
    before the call hold offsets that are not negative with 80 times
    [offset + size] at most [INT_MAX], and no [last_time_used] is
    [INT_MAX]: the call returns, the scale [max_size] lies between 80 and
    [INT_MAX], the last time step is below [INT_MAX], every product by the
    line width is at most [INT_MAX], and the columns marked for a buffer
    run from a [line_start] that is not negative to a [line_end] of at most
    80, so the columns written are among 0..79. *)
Theorem PrintMemoryPlan_columns_inside_the_line fuel p er :
  reachable p ->
  (forall i, 0 <= i < buffer_count_ p -> 0 <= size (requirements_ p i)) ->
  total_size p * 80 <= INT_MAX ->
  (forall i, 0 <= i < buffer_count_ p ->
     0 <= buffer_offsets_ p i
     /\ (buffer_offsets_ p i + size (requirements_ p i)) * 80 <= INT_MAX) ->
  (forall i, 0 <= i < buffer_count_ p ->
     last_time_used (requirements_ p i) < INT_MAX) ->
  (Z.to_nat (buffer_count_ p) <= fuel)%nat ->
  exists p' er' max_size max_time,
    PrintMemoryPlan fuel p er = Some (p', er')
    /\ er' = er ++ map (fun t => mkReport "%s"
                                   [ArgStr (c_string 81 (plan_line p' max_size (Z.of_nat t)) 0)])
                     (seq 0 (Z.to_nat (max_time + 1)))
    /\ 80 <= max_size <= INT_MAX
    /\ 0 <= max_time < INT_MAX
    /\ forall i,
         0 <= i < buffer_count_ p ->
         let line_start := Z.quot (buffer_offsets_ p' i * 80) max_size in
         let line_end :=
           Z.quot ((buffer_offsets_ p' i + size (requirements_ p i)) * 80) max_size in
         0 <= buffer_offsets_ p' i
         /\ buffer_offsets_ p' i + size (requirements_ p i) <= max_size
         /\ (buffer_offsets_ p' i + size (requirements_ p i)) * 80 <= INT_MAX
         /\ 0 <= line_start /\ line_start <= line_end /\ line_end <= 80.
Proof.
  intros Hreach Hsize Htotal Hcells Hlast Hfuel.
  destruct (PrintMemoryPlan_cells Hreach Hsize Htotal Hcells Hfuel)
    as (p' & Hrun & Hreq & Hcnt & Hcells').
  destruct (@PrintMemoryPlan_returns fuel p er p' Hrun) as (er' & H).
  destruct (PrintMemoryPlan_lines_of _ _ _ H) as (max_size & max_time & Hloop & Her).
  destruct (max_size_spec p' Hloop) as (H80 & Hall).
  destruct (max_time_spec p' Hloop) as (H0 & _ & Hat).
  rewrite Hreq, Hcnt in Hall, Hat.
  exists p', er', max_size, max_time. split; [exact H|]. split; [exact Her|].
  split.
  { split; [exact H80|]. apply (max_size_upper p' Hloop); [unfold INT_MAX; lia|].
    rewrite Hreq, Hcnt. intros i Hi. destruct (Hcells' i Hi).
    unfold INT_MAX in *. lia. }
  split.
  { split; [exact H0|]. destruct Hat as [-> | (i & Hi & ->)].
    - unfold INT_MAX. lia.
    - now apply Hlast. }
  intros i Hi. cbv zeta.
  destruct (Hcells' i Hi) as [Hoff Hprod]. specialize (Hall i Hi).
  specialize (Hsize i Hi).
  split; [exact Hoff|]. split; [exact Hall|]. split; [exact Hprod|].
  split; [|split].
  - apply Z.quot_pos; lia.
  - apply Z.quot_le_mono; lia.
  - transitivity (Z.quot (80 * max_size) max_size).
    + apply Z.quot_le_mono; lia.
    + rewrite Z.quot_mul by lia. lia.
Qed.

(** ** The cell of the largest buffer *)

Lemma extract_max_snoc y :
  forall l x,
    fst (extract_max x (l ++ [y])) = y
    \/ fst (extract_max x (l ++ [y])) = fst (extract_max x l).
Proof.
  induction l as [|z l IH]; intros x.
  - cbn [app extract_max]. destruct (fst y >? fst x); cbn [fst]; auto.
  - cbn [app]. change (extract_max x (z :: l ++ [y]))
      with (let (m, r) := extract_max z (l ++ [y]) in
            if fst m >? fst x then (m, x :: r) else (x, z :: l ++ [y])).
    change (extract_max x (z :: l))
      with (let (m, r) := extract_max z l in
            if fst m >? fst x then (m, x :: r) else (x, z :: l)).
    specialize (IH z).
    destruct (extract_max z (l ++ [y])) as [m r] eqn:E.
    destruct (extract_max z l) as [m' r'] eqn:E'.
    cbn [fst] in IH. destruct IH as [-> | ->].
    + destruct (fst y >? fst x) eqn:C; cbn [fst]; [now left|]. right.
      destruct (extract_max_spec _ _ E) as [_ Hmax].
      destruct (extract_max_spec _ _ E') as [Hperm _].
      assert (Hin : In m' (z :: l ++ [y])).
      { change (z :: l ++ [y]) with ((z :: l) ++ [y]). apply in_or_app. left.
        eapply Permutation_in; [symmetry; exact Hperm | now left]. }
      rewrite Forall_forall in Hmax. specialize (Hmax _ Hin). cbn [fst] in Hmax.
      cmp_to_prop.
      destruct (fst m' >? fst x) eqn:C'; cmp_to_prop; [lia | reflexivity].
    + right. destruct (fst m' >? fst x); reflexivity.
Qed.

Lemma size_order_head_succ reqs n :
  0 <= n ->
  hd 0 (size_order reqs (n + 1)) = n
  \/ (0 < n /\ hd 0 (size_order reqs (n + 1)) = hd 0 (size_order reqs n)).
Proof.
  intros Hn. unfold size_order.
  rewrite indices_succ by exact Hn. rewrite map_app. cbn [map].
  replace (Z.to_nat (n + 1)) with (Datatypes.S (Z.to_nat n)) by lia.
  destruct (Z.eq_dec n 0) as [->|Hne].
  - left. reflexivity.
  - assert (Hx : exists x l, map (fun i => (size (reqs i), i)) (indices n) = x :: l).
    { rewrite indices_cons by lia. cbn [map]. eauto. }
    destruct Hx as (x & l & Hx). rewrite Hx.
    replace (Z.to_nat n) with (Datatypes.S (Nat.pred (Z.to_nat n))) by lia.
    cbn [app extract_passes].
    pose proof (extract_max_snoc (size (reqs n), n) l x) as H.
    destruct (extract_max x (l ++ [(size (reqs n), n)])) as [m r].
    destruct (extract_max x l) as [m' r'].
    cbn [fst map hd] in *. destruct H as [-> | ->].
    + left. reflexivity.
    + right. split; [lia | reflexivity].
Qed.

Lemma reachable_from_reachable storage p : reachable_from storage p -> reachable p.
Proof.
  induction 1; eauto using reachable.
Qed.

Lemma CalculateOffsetsIfNeeded_keeps_storage storage fuel p p' :
  planner_ok p ->
  CalculateOffsetsIfNeeded fuel p = Some p' ->
  storage_kept storage p -> storage_kept storage p'.
Proof.
  intros Hok Hrun [Hout Hhead].
  destruct (CalculateOffsetsIfNeeded_keeps_records _ _ Hrun) as [Hreq Hcnt].
  assert (Hframe : forall x,
             ~ In x (tl (size_order (requirements_ p) (buffer_count_ p))) ->
             buffer_offsets_ p' x = buffer_offsets_ p x).
  { destruct (need_to_calculate_offsets_ p) eqn:Hneed.
    - destruct (Z.eq_dec (buffer_count_ p) 0) as [H0|H0].
      + rewrite CalculateOffsetsIfNeeded_clean in Hrun by now right.
        injection Hrun as <-. reflexivity.
      + destruct Hok as [Hrange _].
        destruct (@CalculateOffsetsIfNeeded_exact
                    (Nat.max fuel (Z.to_nat (buffer_count_ p))) p Hneed
                    ltac:(lia) ltac:(lia))
          as (q & l & Hq & _ & _ & _ & _ & _ & _ & Hq').
        apply (@CalculateOffsetsIfNeeded_mono fuel
                 (Nat.max fuel (Z.to_nat (buffer_count_ p)))) in Hrun; [|lia].
        assert (q = p') by congruence. subst q. exact Hq'.
    - rewrite CalculateOffsetsIfNeeded_clean in Hrun by now left.
      injection Hrun as <-. reflexivity. }
  pose proof (size_order_perm (requirements_ p) (buffer_count_ p)) as Hperm.
  split.
  - intros i Hi. rewrite Hcnt in Hi. rewrite Hframe; [now apply Hout|].
    intros Hin.
    assert (Hin' : In i (size_order (requirements_ p) (buffer_count_ p))).
    { destruct (size_order (requirements_ p) (buffer_count_ p)); [exact Hin|].
      now right. }
    apply (Permutation_in _ Hperm), in_indices in Hin'. lia.
  - rewrite Hreq, Hcnt. intros Hn. rewrite Hframe; [now apply Hhead|].
    assert (Hnd : NoDup (size_order (requirements_ p) (buffer_count_ p))).
    { eapply Permutation_NoDup; [symmetry; exact Hperm | apply NoDup_indices]. }
    destruct (size_order (requirements_ p) (buffer_count_ p)) as [|h t];
      [intros []|].
    cbn [hd tl]. apply NoDup_cons_iff in Hnd. tauto.
Qed.

Lemma reachable_from_kept storage p :
  reachable_from storage p -> storage_kept storage p.
Proof.
  induction 1 as [| p er s f l Hreach IH | p fuel p' m Hreach IH Hrun
                  | p fuel er p' er' Hreach IH Hrun].
  - split; [reflexivity|]. cbn. lia.
  - pose proof (reachable_ok (reachable_from_reachable Hreach)) as [Hrange _].
    unfold AddBuffer.
    destruct (buffer_count_ p >=? kMaxBufferCount); cbn [fst snd]; [exact IH|].
    destruct IH as [Hout Hhead]. split; planner_simpl.
    + intros i Hi. apply Hout. lia.
    + intros _.
      destruct (@size_order_head_succ
                  (upd (requirements_ p) (buffer_count_ p)
                     (mkBufferRequirements s f l)) (buffer_count_ p) ltac:(lia))
        as [-> | [Hn ->]].
      * apply Hout. lia.
      * rewrite (@size_order_ext _ (requirements_ p)).
        -- now apply Hhead.
        -- intros i Hi. apply upd_other. lia.
  - apply GetMaximumMemorySize_state in Hrun.
    eapply CalculateOffsetsIfNeeded_keeps_storage;
      eauto using reachable_ok, reachable_from_reachable.
  - apply PrintMemoryPlan_state in Hrun.
    eapply CalculateOffsetsIfNeeded_keeps_storage;
      eauto using reachable_ok, reachable_from_reachable.
Qed.

Lemma fold_place_head reqs others :
  forall h L, exists L', fold_left (place reqs) others (h :: L) = h :: L'.
Proof.
  induction others as [|b others IH]; intros h L; cbn [fold_left].
  - eauto.
  - unfold place at 2. apply IH.
Qed.

(** X11.  In storage whose [buffer_offsets_] cells are all zero, a layout
    pass leaves in [buffer_offsets_] the offset of every buffer, that of the
    largest buffer included: no layout pass since the construction has
    written the cell of the largest buffer, and its offset is 0.  So
    [GetOffsetForBuffer] then returns, for every buffer, the offset of the
    node that holds the buffer in the placement list. *)
Theorem zeroed_storage_holds_every_offset fuel storage p :
  (forall i, buffer_offsets_ storage i = 0) ->
  reachable_from storage p ->
  0 < buffer_count_ p ->
  (Z.to_nat (buffer_count_ p) <= fuel)%nat ->
  exists p' m entries,
    GetMaximumMemorySize fuel p = Some (p', m)
    /\ placement_list fuel p' = Some entries
    /\ Forall (fun e => buffer_offsets_ p' (requirements_index e) = offset e) entries
    /\ forall index er out,
         0 <= index < buffer_count_ p ->
         exists e,
           In e entries
           /\ requirements_index e = index
           /\ GetOffsetForBuffer p' er index out = (true, offset e, er).
Proof.
  intros Hzero Hfrom Hn Hfuel.
  pose proof (reachable_from_reachable Hfrom) as Hreach.
  destruct (GetMaximumMemorySize_exact Hreach Hn Hfuel)
    as (p' & l & Hrun & Hlist & Hnodes & Hlaid & Hreq & Hcnt).
  destruct (layout_records_all_but_the_head Hreach Hn Hfuel)
    as (q & m & head & rest & Hq & Hlist' & Hoff & Hrest).
  assert (q = p') by congruence. subst q.
  assert (Hall : Forall (fun e => buffer_offsets_ p' (requirements_index e) = offset e)
                   (head :: rest)).
  { constructor; [|exact Hrest]. rewrite Hoff.
    assert (Hkept : storage_kept storage p').
    { apply reachable_from_kept. eapply from_GetMaximumMemorySize; eauto. }
    destruct Hkept as [_ Hhead]. rewrite Hcnt, Hreq in Hhead.
    specialize (Hhead Hn). rewrite Hzero in Hhead.
    rewrite Hlist in Hlist'. injection Hlist' as Hl.
    pose proof (size_order_perm (requirements_ p) (buffer_count_ p)) as Hperm.
    destruct (size_order (requirements_ p) (buffer_count_ p)) as [|largest others].
    { apply Permutation_nil in Hperm. rewrite indices_cons in Hperm by lia.
      discriminate. }
    cbn [hd greedy_plan] in *.
    destruct (fold_place_head (requirements_ p) others (0, largest) []) as [L' HL].
    rewrite HL in Hnodes. destruct l as [|j l]; [discriminate|].
    cbn [map] in Hl. injection Hl as Hj _. unfold nodes in Hnodes.
    cbn [map] in Hnodes. unfold node_of at 1 in Hnodes.
    injection Hnodes as _ Hid _. rewrite Hj in Hid. now rewrite Hid. }
  exists p', m, (head :: rest). split; [exact Hq|]. split; [exact Hlist'|].
  split; [exact Hall|].
  intros index er out Hindex.
  pose proof (laid_out_entries Hlaid) as Hperm.
  rewrite Hlist in Hlist'. injection Hlist' as Hl. rewrite Hl, Hcnt in Hperm.
  assert (Hin : In index (map requirements_index (head :: rest))).
  { eapply Permutation_in; [symmetry; exact Hperm | now apply in_indices]. }
  apply in_map_iff in Hin as (e & He & Hin). exists e.
  split; [exact Hin|]. split; [exact He|].
  rewrite Forall_forall in Hall. specialize (Hall e Hin). rewrite He in Hall.
  unfold GetOffsetForBuffer. rewrite Hcnt.
  destruct (index <? 0) eqn:E1; cmp_to_prop; [lia|].
  destruct (index >=? buffer_count_ p) eqn:E2; cmp_to_prop; [lia|].
  cbn [orb]. now rewrite Hall.
Qed.

(** ** Where the gap search can put a buffer *)

Lemma gap_after_in reqs w first' last' :
  forall rest c,
    gap_after reqs w first' last' c rest = c
    \/ (In (gap_after reqs w first' last' c rest) rest
        /\ live_in reqs first' last' (gap_after reqs w first' last' c rest) = true).
Proof.
  induction rest as [|n rest IH]; intros c; cbn [gap_after]; [now left|].
  destruct (live_in reqs first' last' n) eqn:Hlive.
  - destruct (fst n - node_end reqs c >=? w); [now left|].
    right. destruct (IH n) as [-> | [Hin Hl]].
    + split; [now left | exact Hlive].
    + split; [now right | exact Hl].
  - destruct (IH c) as [-> | [Hin Hl]]; [now left|].
    right. split; [now right | exact Hl].
Qed.

Lemma chosen_offset_cases reqs w first' last' :
  forall L,
    (chosen_offset reqs w first' last' L = 0
     /\ Forall (fun n => live_in reqs first' last' n = false) L)
    \/ exists n, In n L /\ live_in reqs first' last' n = true
                 /\ chosen_offset reqs w first' last' L = node_end reqs n.
Proof.
  induction L as [|n L IH]; cbn [chosen_offset]; [left; split; [reflexivity | constructor]|].
  destruct (live_in reqs first' last' n) eqn:Hlive.
  - right. destruct (gap_after_in reqs w first' last' L n) as [-> | [Hin Hl]].
    + exists n. split; [now left|]. split; [exact Hlive | reflexivity].
    + eexists. split; [right; exact Hin|]. split; [exact Hl | reflexivity].
  - destruct IH as [[IH Hnone] | (n' & Hin & Hl & IH)].
    + left. split; [exact IH | now constructor].
    + right. exists n'. split; [now right|]. split; [exact Hl | exact IH].
Qed.

Lemma in_place_iff reqs h L id n :
  In n (place reqs (h :: L) id)
  <-> n = (chosen_offset reqs (size (reqs id)) (first_time_used (reqs id))
             (last_time_used (reqs id)) (h :: L), id)
      \/ In n (h :: L).
Proof.
  unfold place. cbn [In]. rewrite in_insert_by_offset. intuition.
Qed.

Lemma StronglySorted_before {A : Type} (R : A -> A -> Prop) (l1 l2 : list A) b :
  StronglySorted R (l1 ++ b :: l2) -> forall a, In a l1 -> R a b.
Proof.
  induction l1 as [|x l1 IH]; cbn [app]; intros Hs a Ha; [destruct Ha|].
  apply StronglySorted_inv in Hs as [Hs Hx]. destruct Ha as [<-|Ha].
  - rewrite Forall_forall in Hx. apply Hx, in_or_app. right. now left.
  - now apply IH.
Qed.

(** Along the placement loop every node of the list is at offset 0 with no
    node placed before it live together with it, or at the end of a node
    placed before it that is.  [R] is the order in which the buffers are
    placed. *)
Lemma fold_place_offsets reqs (R : Z -> Z -> Prop) :
  (forall a b, R a b -> R b a -> False) ->
  forall others done L,
    StronglySorted R (done ++ others) ->
    L <> [] ->
    (forall n, In n L -> In (snd n) done) ->
    (forall n, In n L ->
       (fst n = 0
        /\ forall n', In n' L -> R (snd n') (snd n) ->
             overlap_in_time (reqs (snd n')) (reqs (snd n)) = false)
       \/ exists n', In n' L /\ R (snd n') (snd n)
                     /\ overlap_in_time (reqs (snd n')) (reqs (snd n)) = true
                     /\ fst n = node_end reqs n') ->
    forall n, In n (fold_left (place reqs) others L) ->
      (fst n = 0
       /\ forall n', In n' (fold_left (place reqs) others L) -> R (snd n') (snd n) ->
            overlap_in_time (reqs (snd n')) (reqs (snd n)) = false)
      \/ exists n', In n' (fold_left (place reqs) others L) /\ R (snd n') (snd n)
                    /\ overlap_in_time (reqs (snd n')) (reqs (snd n)) = true
                    /\ fst n = node_end reqs n'.
Proof.
  intros Hasym.
  induction others as [|b others IH]; intros done L Hs Hne Hdone HQ;
    cbn [fold_left]; [exact HQ|].
  destruct L as [|h L]; [congruence|].
  assert (Hbefore : forall n, In n (h :: L) -> R (snd n) b).
  { intros n Hn. apply (@StronglySorted_before _ R done others b Hs).
    now apply Hdone. }
  apply (IH (done ++ [b])).
  - now rewrite <- app_assoc.
  - unfold place. discriminate.
  - intros n Hn. apply in_place_iff in Hn as [-> | Hn]; apply in_or_app.
    + right. now left.
    + left. now apply Hdone.
  - intros n Hn. apply in_place_iff in Hn as [-> | Hn].
    + cbn [fst snd].
      destruct (chosen_offset_cases reqs (size (reqs b)) (first_time_used (reqs b))
                  (last_time_used (reqs b)) (h :: L))
        as [[H0 Hnone] | (n' & Hin & Hlive & Hoff)].
      * left. split; [exact H0|].
        intros n' Hn' HR. apply in_place_iff in Hn' as [-> | Hn'].
        -- cbn [snd] in HR. destruct (Hasym _ _ HR HR).
        -- rewrite Forall_forall in Hnone. specialize (Hnone n' Hn').
           destruct n' as [x a]. now rewrite live_in_overlap in Hnone.
      * right. exists n'. split; [apply in_place_iff; now right|].
        split; [now apply Hbefore|]. split; [|exact Hoff].
        destruct n' as [x a]. now rewrite live_in_overlap in Hlive.
    + destruct (HQ n Hn) as [[H0 Hnone] | (n' & Hin & HR & Hlive & Hoff)].
      * left. split; [exact H0|].
        intros n' Hn' HR. apply in_place_iff in Hn' as [-> | Hn'].
        -- cbn [snd] in HR. destruct (Hasym _ _ HR (Hbefore n Hn)).
        -- now apply Hnone.
      * right. exists n'. split; [apply in_place_iff; now right|]. auto.
Qed.

Lemma StronglySorted_in_impl {A : Type} (R R' : A -> A -> Prop) (l : list A) :
  (forall x y, In x l -> In y l -> R x y -> R' x y) ->
  StronglySorted R l -> StronglySorted R' l.
Proof.
  induction l as [|x l IH]; intros Himp Hs; [constructor|].
  apply StronglySorted_inv in Hs as [Hs Hx]. constructor.
  - apply IH; [|exact Hs]. intros a b Ha Hb. apply Himp; now right.
  - rewrite Forall_forall in *. intros y Hy.
    apply Himp; [now left | now right | now apply Hx].
Qed.

Lemma StronglySorted_map {A B : Type} (f : A -> B) (R : B -> B -> Prop) (l : list A) :
  StronglySorted (fun x y => R (f x) (f y)) l -> StronglySorted R (map f l).
Proof.
  induction 1 as [|x l Hs IH Hx]; cbn [map]; constructor; [exact IH|].
  now rewrite Forall_map.
Qed.

(** The size order runs from the larger sizes to the smaller ones, buffers
    of the same size in the order they were added. *)
Lemma size_order_descending reqs n :
  StronglySorted (sized_before reqs) (size_order reqs n).
Proof.
  unfold size_order. apply StronglySorted_map.
  set (pairs := map (fun i => (size (reqs i), i)) (indices n)).
  assert (Hlen : List.length pairs = Z.to_nat n)
    by (unfold pairs; now rewrite length_map, length_indices).
  apply (@StronglySorted_in_impl _ sorts_before).
  - intros x y Hx Hy Hxy.
    assert (Hform : forall z, In z (extract_passes (Z.to_nat n) pairs) ->
                              fst z = size (reqs (snd z))).
    { intros z Hz.
      apply (Permutation_in _ (Permutation_sym
                                 (@extract_passes_perm (Z.to_nat n) pairs Hlen))) in Hz.
      unfold pairs in Hz. apply in_map_iff in Hz as (i & <- & _). reflexivity. }
    pose proof (Hform x Hx) as Fx. pose proof (Hform y Hy) as Fy.
    unfold sorts_before in Hxy. unfold sized_before. lia.
  - apply extract_passes_stable_descending; [exact Hlen|].
    unfold pairs. clear Hlen pairs.
    pose proof (StronglySorted_indices n) as Hs.
    induction Hs as [|i l Hs IH Hi]; cbn [map]; constructor; [exact IH|].
    rewrite Forall_map. eapply Forall_impl; [|exact Hi].
    intros j Hj. exact Hj.
Qed.

Lemma sized_before_asym reqs a b :
  sized_before reqs a b -> sized_before reqs b a -> False.
Proof. unfold sized_before. lia. Qed.

(** X12.  Where the gap search puts a buffer.  After a layout pass the
    placement list holds every added buffer exactly once, and each buffer
    either is at offset 0, no buffer placed before it being live together
    with it, or starts exactly where a buffer ends that was placed before it
    and is live together with it.  The buffers placed before a buffer are
    the larger ones and those of the same size added earlier.  The sizes
    are not negative and add up to at most [INT_MAX], so that every offset
    and every end the source computes is inside the range of [int]. *)
Theorem every_offset_is_zero_or_the_end_of_a_live_buffer fuel p :
  reachable p ->
  0 < buffer_count_ p ->
  (forall i, 0 <= i < buffer_count_ p -> 0 <= size (requirements_ p i)) ->
  total_size p <= INT_MAX ->
  (Z.to_nat (buffer_count_ p) <= fuel)%nat ->
  exists p' m entries,
    GetMaximumMemorySize fuel p = Some (p', m)
    /\ placement_list fuel p' = Some entries
    /\ Permutation (map requirements_index entries) (indices (buffer_count_ p))
    /\ Forall (fun e => 0 <= offset e /\ range_end p e <= INT_MAX) entries
    /\ Forall
         (fun e =>
            (offset e = 0
             /\ forall e',
                  In e' entries ->
                  sized_before (requirements_ p)
                    (requirements_index e') (requirements_index e) ->
                  overlap_in_time (requirements_ p (requirements_index e'))
                    (requirements_ p (requirements_index e)) = false)
            \/ exists e',
                 In e' entries
                 /\ sized_before (requirements_ p)
                      (requirements_index e') (requirements_index e)
                 /\ overlap_in_time (requirements_ p (requirements_index e'))
                      (requirements_ p (requirements_index e)) = true
                 /\ offset e = range_end p e')
         entries.
Proof.
  intros Hreach Hn Hsize Htotal Hfuel.
  destruct (GetMaximumMemorySize_exact Hreach Hn Hfuel)
    as (p' & l & Hm & Hlist & Hnodes & Hlaid & Hreq & Hcnt).
  destruct (placement_fits_int Hreach Hn Hsize Htotal Hfuel)
    as (q & m' & entries' & Hq & Hlq & Hfit & _).
  rewrite Hm in Hq. injection Hq as Hpq _. subst q.
  rewrite Hlist in Hlq. injection Hlq as Hentries'. subst entries'.
  set (reqs := requirements_ p) in *. set (n := buffer_count_ p) in *.
  eexists p', _, _. split; [exact Hm|]. split; [exact Hlist|].
  split; [rewrite <- Hcnt; now apply laid_out_entries|].
  split; [eapply Forall_impl; [|exact Hfit]; intros e [He0 He1]; lia|].
  pose proof (size_order_descending reqs n) as Hsorted.
  pose proof (size_order_perm reqs n) as Hperm.
  destruct (size_order reqs n) as [|largest others].
  { apply Permutation_nil in Hperm. rewrite indices_cons in Hperm by lia.
    discriminate. }
  cbn [greedy_plan] in Hnodes.
  pose proof (@fold_place_offsets reqs (sized_before reqs) (@sized_before_asym reqs)
                others [largest] [(0, largest)] Hsorted ltac:(discriminate)) as Hfold.
  rewrite <- Hnodes in Hfold.
  assert (Hnode : forall j, In j l ->
                    In (node_of (buffers_sorted_by_offset_ p' j)) (nodes p' l)).
  { intros j Hj. unfold nodes. apply in_map_iff. eauto. }
  rewrite Forall_map, Forall_forall. intros j Hj.
  destruct (Hfold
              ltac:(intros x [<-|[]]; now left)
              ltac:(intros x [<-|[]]; left; split; [reflexivity|];
                    intros n' [<-|[]] HR; destruct (sized_before_asym HR HR))
              (node_of (buffers_sorted_by_offset_ p' j)) (Hnode j Hj))
    as [[H0 Hnone] | (n' & Hin & HR & Hlive & Hoff)].
  - left. split; [exact H0|]. intros e' He' HR.
    apply in_map_iff in He' as (j' & <- & Hj').
    apply (Hnone (node_of (buffers_sorted_by_offset_ p' j')) (Hnode j' Hj') HR).
  - right. unfold nodes in Hin. apply in_map_iff in Hin as (j' & <- & Hj').
    exists (buffers_sorted_by_offset_ p' j').
    rewrite !snd_node_of in *. rewrite fst_node_of in Hoff.
    split; [now apply in_map|]. split; [exact HR|].
    split; [exact Hlive|]. exact Hoff.
Qed.

(** * The further properties at concrete planners *)

Lemma reachable_from_AddBuffers storage batch :
  forall p, reachable_from storage p -> reachable_from storage (AddBuffers p batch).
Proof.
  induction batch as [|r batch IH]; intros p Hp; cbn [AddBuffers]; [exact Hp|].
  apply IH. now apply from_AddBuffer.
Qed.

Lemma two_buffers_from_zero_storage : reachable_from zero_storage two_buffers.
Proof. apply reachable_from_AddBuffers, from_new. Qed.

Lemma reachable_two_buffers_used : reachable two_buffers_used.
Proof. apply reachable_AddBuffers, reachable_new. Qed.

Lemma reachable_apart_buffers : reachable apart_buffers.
Proof. apply reachable_AddBuffers, reachable_new. Qed.

Lemma two_buffers_count : 0 < buffer_count_ two_buffers.
Proof. reflexivity. Qed.

Lemma two_buffers_fuel : (Z.to_nat (buffer_count_ two_buffers) <= 2)%nat.
Proof. vm_compute. lia. Qed.

Lemma two_buffers_total : total_size two_buffers <= INT_MAX.
Proof. vm_compute. discriminate. Qed.

Lemma two_buffers_positive :
  forall i, 0 <= i < buffer_count_ two_buffers ->
    0 < size (requirements_ two_buffers i).
Proof.
  intros i Hi. change (buffer_count_ two_buffers) with 2 in Hi.
  assert (H : i = 0 \/ i = 1) by lia.
  destruct H as [-> | ->]; reflexivity.
Qed.

Lemma two_buffers_live_together :
  forall i j, 0 <= i < buffer_count_ two_buffers ->
    0 <= j < buffer_count_ two_buffers -> i <> j ->
    overlap_in_time (requirements_ two_buffers i) (requirements_ two_buffers j) = true.
Proof.
  intros i j Hi Hj Hij. change (buffer_count_ two_buffers) with 2 in Hi, Hj.
  assert (H : (i = 0 /\ j = 1) \/ (i = 1 /\ j = 0)) by lia.
  destruct H as [[-> ->] | [-> ->]]; reflexivity.
Qed.

Lemma two_buffers_used_records :
  forall i, 0 <= i < buffer_count_ two_buffers ->
    requirements_ two_buffers_used i = requirements_ two_buffers i.
Proof.
  intros i Hi. change (buffer_count_ two_buffers) with 2 in Hi.
  assert (H : i = 0 \/ i = 1) by lia.
  destruct H as [-> | ->]; reflexivity.
Qed.

Lemma apart_buffers_sizes :
  forall i, 0 <= i < buffer_count_ apart_buffers ->
    0 <= size (requirements_ apart_buffers i).
Proof.
  intros i Hi. change (buffer_count_ apart_buffers) with 2 in Hi.
  assert (H : i = 0 \/ i = 1) by lia.
  destruct H as [-> | ->]; vm_compute; discriminate.
Qed.

Lemma apart_buffers_never_live_together :
  forall i j, 0 <= i < buffer_count_ apart_buffers ->
    0 <= j < buffer_count_ apart_buffers -> i <> j ->
    overlap_in_time (requirements_ apart_buffers i) (requirements_ apart_buffers j)
    = false.
Proof.
  intros i j Hi Hj Hij. change (buffer_count_ apart_buffers) with 2 in Hi, Hj.
  assert (H : (i = 0 /\ j = 1) \/ (i = 1 /\ j = 0)) by lia.
  destruct H as [[-> ->] | [-> ->]]; reflexivity.
Qed.

Lemma two_buffers_total_scaled : total_size two_buffers * 80 <= INT_MAX.
Proof. vm_compute. discriminate. Qed.

Lemma two_buffers_cells :
  forall i, 0 <= i < buffer_count_ two_buffers ->
    0 <= buffer_offsets_ two_buffers i
    /\ (buffer_offsets_ two_buffers i + size (requirements_ two_buffers i)) * 80
       <= INT_MAX.
Proof.
  intros i Hi. change (buffer_count_ two_buffers) with 2 in Hi.
  assert (H : i = 0 \/ i = 1) by lia.
  destruct H as [-> | ->]; vm_compute; split; discriminate.
Qed.

Lemma two_buffers_times :
  forall i, 0 <= i < buffer_count_ two_buffers ->
    last_time_used (requirements_ two_buffers i) < INT_MAX.
Proof.
  intros i Hi. change (buffer_count_ two_buffers) with 2 in Hi.
  assert (H : i = 0 \/ i = 1) by lia.
  destruct H as [-> | ->]; reflexivity.
Qed.

Lemma two_cells_chain : chain (buffers_sorted_by_offset_ linked_planner) 0 [0; 1].
Proof.
  apply chain_step; [vm_compute; discriminate|].
  apply chain_last. reflexivity.
Qed.

Lemma NextValidEntry_first_live_successor_witness :
  chain (buffers_sorted_by_offset_ linked_planner) 0 [0; 1]
  /\ (List.length [1] <= 1)%nat
  /\ ((NextValidEntry 1 linked_planner (Some 0) 0 9 = Some None
       /\ Forall (fun j => DoesEntryOverlapInTime linked_planner j 0 9 = false) [1])
      \/ (exists skipped j after,
            NextValidEntry 1 linked_planner (Some 0) 0 9 = Some (Some j)
            /\ [1] = skipped ++ j :: after
            /\ Forall (fun i => DoesEntryOverlapInTime linked_planner i 0 9 = false)
                 skipped
            /\ DoesEntryOverlapInTime linked_planner j 0 9 = true
            /\ j <> 0)).
Proof.
  assert (Hlen : (List.length [1] <= 1)%nat) by (simpl; lia).
  split; [exact two_cells_chain|]. split; [exact Hlen|].
  exact (@NextValidEntry_first_live_successor linked_planner 0 9 0 [1] 1
           two_cells_chain Hlen).
Defined.

Lemma layout_depends_only_on_the_records_witness :
  reachable two_buffers
  /\ reachable two_buffers_used
  /\ buffer_count_ two_buffers_used = buffer_count_ two_buffers
  /\ (forall i, 0 <= i < buffer_count_ two_buffers ->
        requirements_ two_buffers_used i = requirements_ two_buffers i)
  /\ 0 < buffer_count_ two_buffers
  /\ (Z.to_nat (buffer_count_ two_buffers) <= 2)%nat
  /\ exists p' q' m entries_p entries_q,
       GetMaximumMemorySize 2 two_buffers = Some (p', m)
       /\ GetMaximumMemorySize 2 two_buffers_used = Some (q', m)
       /\ placement_list 2 p' = Some entries_p
       /\ placement_list 2 q' = Some entries_q
       /\ map (fun e => (offset e, requirements_index e)) entries_p
          = map (fun e => (offset e, requirements_index e)) entries_q.
Proof.
  assert (Hcnt : buffer_count_ two_buffers_used = buffer_count_ two_buffers)
    by reflexivity.
  split; [exact reachable_two_buffers|]. split; [exact reachable_two_buffers_used|].
  split; [exact Hcnt|]. split; [exact two_buffers_used_records|].
  split; [exact two_buffers_count|]. split; [exact two_buffers_fuel|].
  exact (@layout_depends_only_on_the_records 2 two_buffers two_buffers_used
           reachable_two_buffers reachable_two_buffers_used Hcnt
           two_buffers_used_records two_buffers_count two_buffers_fuel).
Defined.

Lemma buffers_never_live_together_share_offset_zero_witness :
  reachable apart_buffers
  /\ 0 < buffer_count_ apart_buffers
  /\ (forall i, 0 <= i < buffer_count_ apart_buffers ->
        0 <= size (requirements_ apart_buffers i))
  /\ (forall i j, 0 <= i < buffer_count_ apart_buffers ->
        0 <= j < buffer_count_ apart_buffers -> i <> j ->
        overlap_in_time (requirements_ apart_buffers i) (requirements_ apart_buffers j)
        = false)
  /\ (Z.to_nat (buffer_count_ apart_buffers) <= 2)%nat
  /\ exists p' m entries,
       GetMaximumMemorySize 2 apart_buffers = Some (p', m)
       /\ placement_list 2 p' = Some entries
       /\ Permutation (map requirements_index entries)
            (indices (buffer_count_ apart_buffers))
       /\ Forall (fun e => offset e = 0) entries
       /\ (forall i, 0 <= i < buffer_count_ apart_buffers ->
             size (requirements_ apart_buffers i) <= m)
       /\ (exists i, 0 <= i < buffer_count_ apart_buffers
                     /\ m = size (requirements_ apart_buffers i)).
Proof.
  assert (Hn : 0 < buffer_count_ apart_buffers) by reflexivity.
  assert (Hfuel : (Z.to_nat (buffer_count_ apart_buffers) <= 2)%nat)
    by (vm_compute; lia).
  split; [exact reachable_apart_buffers|]. split; [exact Hn|].
  split; [exact apart_buffers_sizes|].
  split; [exact apart_buffers_never_live_together|]. split; [exact Hfuel|].
  exact (@buffers_never_live_together_share_offset_zero 2 apart_buffers
           reachable_apart_buffers Hn apart_buffers_sizes
           apart_buffers_never_live_together Hfuel).
Defined.

Lemma buffers_all_live_together_are_laid_end_to_end_witness :
  reachable two_buffers
  /\ 0 < buffer_count_ two_buffers
  /\ (forall i, 0 <= i < buffer_count_ two_buffers ->
        0 < size (requirements_ two_buffers i))
  /\ total_size two_buffers <= INT_MAX
  /\ (forall i j, 0 <= i < buffer_count_ two_buffers ->
        0 <= j < buffer_count_ two_buffers -> i <> j ->
        overlap_in_time (requirements_ two_buffers i) (requirements_ two_buffers j)
        = true)
  /\ (Z.to_nat (buffer_count_ two_buffers) <= 2)%nat
  /\ exists p' m entries,
       GetMaximumMemorySize 2 two_buffers = Some (p', m)
       /\ placement_list 2 p' = Some entries
       /\ Permutation (map requirements_index entries)
            (indices (buffer_count_ two_buffers))
       /\ Forall (fun e => 0 <= offset e /\ range_end two_buffers e <= INT_MAX) entries
       /\ end_to_end two_buffers 0 entries
       /\ m = total_size two_buffers.
Proof.
  split; [exact reachable_two_buffers|]. split; [exact two_buffers_count|].
  split; [exact two_buffers_positive|]. split; [exact two_buffers_total|].
  split; [exact two_buffers_live_together|]. split; [exact two_buffers_fuel|].
  exact (@buffers_all_live_together_are_laid_end_to_end 2 two_buffers
           reachable_two_buffers two_buffers_count two_buffers_positive
           two_buffers_total two_buffers_live_together two_buffers_fuel).
Defined.

Lemma GetMaximumMemorySize_at_most_total_size_witness :
  reachable two_buffers
  /\ 0 < buffer_count_ two_buffers
  /\ (forall i, 0 <= i < buffer_count_ two_buffers ->
        0 <= size (requirements_ two_buffers i))
  /\ total_size two_buffers <= INT_MAX
  /\ (Z.to_nat (buffer_count_ two_buffers) <= 2)%nat
  /\ exists p' m entries,
       GetMaximumMemorySize 2 two_buffers = Some (p', m)
       /\ placement_list 2 p' = Some entries
       /\ Permutation (map requirements_index entries)
            (indices (buffer_count_ two_buffers))
       /\ Forall (fun e =>
                    0 <= offset e
                    /\ offset e + size (requirements_ two_buffers (requirements_index e))
                       <= total_size two_buffers
                    /\ offset e + size (requirements_ two_buffers (requirements_index e))
                       <= INT_MAX) entries
       /\ 0 <= m <= total_size two_buffers
       /\ m <= INT_MAX.
Proof.
  split; [exact reachable_two_buffers|]. split; [exact two_buffers_count|].
  split; [exact two_buffers_sizes|]. split; [exact two_buffers_total|].
  split; [exact two_buffers_fuel|].
  exact (@GetMaximumMemorySize_at_most_total_size 2 two_buffers
           reachable_two_buffers two_buffers_count two_buffers_sizes
           two_buffers_total two_buffers_fuel).
Defined.

Lemma ordered_insertion_keeps_the_list_witness :
  chain two_cells 0 [0; 1]
  /\ ~ In 2 [0; 1]
  /\ 2 <> -1
  /\ (List.length [1] < 2)%nat
  /\ exists pool' before after,
       insert_loop 2 two_cells 0 2 50 = Some pool'
       /\ [1] = before ++ after
       /\ chain pool' 0 (0 :: before ++ 2 :: after)
       /\ Forall (fun j => offset (two_cells j) <= 50) before
       /\ (forall j after', after = j :: after' -> 50 < offset (two_cells j))
       /\ (forall j, offset (pool' j) = offset (two_cells j)
                     /\ requirements_index (pool' j) = requirements_index (two_cells j)).
Proof.
  assert (Hnew : ~ In 2 [0; 1]) by (intros [H|[H|[]]]; discriminate H).
  assert (Hend : 2 <> -1) by discriminate.
  assert (Hlen : (List.length [1] < 2)%nat) by (simpl; lia).
  split; [exact two_cells_chain|]. split; [exact Hnew|]. split; [exact Hend|].
  split; [exact Hlen|].
  exact (@ordered_insertion_keeps_the_list 2 two_cells 0 [1] 2 50
           two_cells_chain Hnew Hend Hlen).
Defined.

Lemma PrintMemoryPlan_lines_witness :
  reachable two_buffers
  /\ (forall i, 0 <= i < buffer_count_ two_buffers ->
        0 <= size (requirements_ two_buffers i))
  /\ total_size two_buffers * 80 <= INT_MAX
  /\ (forall i, 0 <= i < buffer_count_ two_buffers ->
        0 <= buffer_offsets_ two_buffers i
        /\ (buffer_offsets_ two_buffers i + size (requirements_ two_buffers i)) * 80
           <= INT_MAX)
  /\ (forall i, 0 <= i < buffer_count_ two_buffers ->
        last_time_used (requirements_ two_buffers i) < INT_MAX)
  /\ (Z.to_nat (buffer_count_ two_buffers) <= 2)%nat
  /\ exists p' er' max_time lines,
       PrintMemoryPlan 2 two_buffers [] = Some (p', er')
       /\ er' = [] ++ lines
       /\ (forall i, 0 <= i < buffer_count_ two_buffers ->
             0 <= buffer_offsets_ p' i
             /\ (buffer_offsets_ p' i + size (requirements_ two_buffers i)) * 80
                <= INT_MAX)
       /\ 0 <= max_time < INT_MAX
       /\ (forall i, 0 <= i < buffer_count_ two_buffers ->
             last_time_used (requirements_ two_buffers i) <= max_time)
       /\ (max_time = 0
           \/ exists i, 0 <= i < buffer_count_ two_buffers
                        /\ max_time = last_time_used (requirements_ two_buffers i))
       /\ List.length lines = Z.to_nat (max_time + 1)
       /\ forall t r,
            nth_error lines t = Some r ->
            exists s,
              r = mkReport "%s" [ArgStr s]
              /\ String.length s = 80%nat
              /\ ((forall i, 0 <= i < buffer_count_ two_buffers ->
                     Z.of_nat t < first_time_used (requirements_ two_buffers i)
                     \/ last_time_used (requirements_ two_buffers i) < Z.of_nat t) ->
                  s = eighty_dots).
Proof.
  split; [exact reachable_two_buffers|]. split; [exact two_buffers_sizes|].
  split; [exact two_buffers_total_scaled|]. split; [exact two_buffers_cells|].
  split; [exact two_buffers_times|]. split; [exact two_buffers_fuel|].
  exact (@PrintMemoryPlan_lines 2 two_buffers [] reachable_two_buffers
           two_buffers_sizes two_buffers_total_scaled two_buffers_cells
           two_buffers_times two_buffers_fuel).
Defined.

Lemma PrintMemoryPlan_columns_inside_the_line_witness :
  reachable two_buffers
  /\ (forall i, 0 <= i < buffer_count_ two_buffers ->
        0 <= size (requirements_ two_buffers i))
  /\ total_size two_buffers * 80 <= INT_MAX
  /\ (forall i, 0 <= i < buffer_count_ two_buffers ->
        0 <= buffer_offsets_ two_buffers i
        /\ (buffer_offsets_ two_buffers i + size (requirements_ two_buffers i)) * 80
           <= INT_MAX)
  /\ (forall i, 0 <= i < buffer_count_ two_buffers ->
        last_time_used (requirements_ two_buffers i) < INT_MAX)
  /\ (Z.to_nat (buffer_count_ two_buffers) <= 2)%nat
  /\ exists p' er' max_size max_time,
       PrintMemoryPlan 2 two_buffers [] = Some (p', er')
       /\ er' = [] ++ map (fun t => mkReport "%s"
                                      [ArgStr (c_string 81
                                                 (plan_line p' max_size (Z.of_nat t)) 0)])
                        (seq 0 (Z.to_nat (max_time + 1)))
       /\ 80 <= max_size <= INT_MAX
       /\ 0 <= max_time < INT_MAX
       /\ forall i,
            0 <= i < buffer_count_ two_buffers ->
            let line_start := Z.quot (buffer_offsets_ p' i * 80) max_size in
            let line_end :=
              Z.quot ((buffer_offsets_ p' i + size (requirements_ two_buffers i)) * 80)
                max_size in
            0 <= buffer_offsets_ p' i
            /\ buffer_offsets_ p' i + size (requirements_ two_buffers i) <= max_size
            /\ (buffer_offsets_ p' i + size (requirements_ two_buffers i)) * 80 <= INT_MAX
            /\ 0 <= line_start /\ line_start <= line_end /\ line_end <= 80.
Proof.
  split; [exact reachable_two_buffers|]. split; [exact two_buffers_sizes|].
  split; [exact two_buffers_total_scaled|]. split; [exact two_buffers_cells|].
  split; [exact two_buffers_times|]. split; [exact two_buffers_fuel|].
  exact (@PrintMemoryPlan_columns_inside_the_line 2 two_buffers []
           reachable_two_buffers two_buffers_sizes two_buffers_total_scaled
           two_buffers_cells two_buffers_times two_buffers_fuel).
Defined.

Lemma zeroed_storage_holds_every_offset_witness :
  (forall i, buffer_offsets_ zero_storage i = 0)
  /\ reachable_from zero_storage two_buffers
  /\ 0 < buffer_count_ two_buffers
  /\ (Z.to_nat (buffer_count_ two_buffers) <= 2)%nat
  /\ exists p' m entries,
       GetMaximumMemorySize 2 two_buffers = Some (p', m)
       /\ placement_list 2 p' = Some entries
       /\ Forall (fun e => buffer_offsets_ p' (requirements_index e) = offset e) entries
       /\ forall index er out,
            0 <= index < buffer_count_ two_buffers ->
            exists e,
              In e entries
              /\ requirements_index e = index
              /\ GetOffsetForBuffer p' er index out = (true, offset e, er).
Proof.
  assert (Hzero : forall i, buffer_offsets_ zero_storage i = 0) by reflexivity.
  split; [exact Hzero|]. split; [exact two_buffers_from_zero_storage|].
  split; [exact two_buffers_count|]. split; [exact two_buffers_fuel|].
  exact (@zeroed_storage_holds_every_offset 2 zero_storage two_buffers Hzero
           two_buffers_from_zero_storage two_buffers_count two_buffers_fuel).
Defined.

Lemma every_offset_is_zero_or_the_end_of_a_live_buffer_witness :
  reachable two_buffers
  /\ 0 < buffer_count_ two_buffers
  /\ (forall i, 0 <= i < buffer_count_ two_buffers ->
        0 <= size (requirements_ two_buffers i))
  /\ total_size two_buffers <= INT_MAX
  /\ (Z.to_nat (buffer_count_ two_buffers) <= 2)%nat
  /\ exists p' m entries,
       GetMaximumMemorySize 2 two_buffers = Some (p', m)
       /\ placement_list 2 p' = Some entries
       /\ Permutation (map requirements_index entries)
            (indices (buffer_count_ two_buffers))
       /\ Forall (fun e => 0 <= offset e /\ range_end two_buffers e <= INT_MAX) entries
       /\ Forall
            (fun e =>
               (offset e = 0
                /\ forall e',
                     In e' entries ->
                     sized_before (requirements_ two_buffers)
                       (requirements_index e') (requirements_index e) ->
                     overlap_in_time
                       (requirements_ two_buffers (requirements_index e'))
                       (requirements_ two_buffers (requirements_index e)) = false)
               \/ exists e',
                    In e' entries
                    /\ sized_before (requirements_ two_buffers)
                         (requirements_index e') (requirements_index e)
                    /\ overlap_in_time
                         (requirements_ two_buffers (requirements_index e'))
                         (requirements_ two_buffers (requirements_index e)) = true
                    /\ offset e = range_end two_buffers e')
            entries.
Proof.
  split; [exact reachable_two_buffers|]. split; [exact two_buffers_count|].
  split; [exact two_buffers_sizes|]. split; [exact two_buffers_total|].
  split; [exact two_buffers_fuel|].
  exact (@every_offset_is_zero_or_the_end_of_a_live_buffer 2 two_buffers
           reachable_two_buffers two_buffers_count two_buffers_sizes
           two_buffers_total two_buffers_fuel).
Defined.
